(** * cadastre-viz: the parcel resolution pipeline

    A shallow embedding of the TypeScript sources

      - [services/regexService.ts]   (deterministic extractor),
      - [services/cadastreService.ts] (the two network lookups),
      - [types.ts]                    (record types),
      - [App.tsx]                     (area, formatting, GPX export, the
                                       resolution loop [handleProcess],
                                       the list view),
      - [components/ParcelMap.tsx]    (the edge labels of the map),

    followed by the properties stated about them.

    Conventions.
      - A JavaScript string is the list of its UTF-16 code units ([jstring]).
      - The coordinates and the areas computed from them go through
        [Math.sin], which ECMAScript leaves to the implementation: they are
        idealised as real numbers, and the rounding of IEEE doubles is not
        modelled there.
      - [formatArea] only compares, divides and prints its argument: it is
        modelled on binary64 numbers, with the division of IEEE 754.
      - The network is a state ([World]) queried through [fetch]; every
        request that is sent is appended to a log.
      - A JavaScript exception is the [Throw] outcome of the monad [M]. *)

From Stdlib Require Import List ZArith NArith Lia String Ascii Bool Reals Lra.
From Stdlib Require Import DecimalString.
From stdpp Require Import base list.
From Stdlib Require Import Floats.
Import ListNotations.

(* ===================================================================== *)
(** * JavaScript strings                                                  *)
(* ===================================================================== *)

Module JsString.

(** One UTF-16 code unit. *)
Definition jchar := N.
Definition jstring := list jchar.
Bind Scope N_scope with jchar.

(** An ASCII literal as a JavaScript string. *)
Definition lit (s : string) : jstring :=
  map N_of_ascii (list_ascii_of_string s).

Definition jchar_eqb (a b : jchar) : bool := N.eqb a b.

Fixpoint jstring_eqb (s t : jstring) : bool :=
  match s, t with
  | [], [] => true
  | a :: s', b :: t' => jchar_eqb a b && jstring_eqb s' t'
  | _, _ => false
  end.

Definition in_range (lo hi c : N) : bool := (N.leb lo c && N.leb c hi)%bool.

(** ECMAScript WhiteSpace and LineTerminator code points: what [\s]
    matches and what [String.prototype.trim] removes. *)
Definition isWhiteSpace (c : jchar) : bool :=
  (in_range 9 13 c || N.eqb c 32 || N.eqb c 160 || N.eqb c 5760
   || in_range 8192 8202 c || N.eqb c 8232 || N.eqb c 8233
   || N.eqb c 8239 || N.eqb c 8287 || N.eqb c 12288 || N.eqb c 65279)%bool.

Definition isLineTerminator (c : jchar) : bool :=
  (N.eqb c 10 || N.eqb c 13 || N.eqb c 8232 || N.eqb c 8233)%bool.

Definition isDigit (c : jchar) : bool := in_range 48 57 c.
Definition isUpper (c : jchar) : bool := in_range 65 90 c.
Definition isLower (c : jchar) : bool := in_range 97 122 c.

(** Case mapping restricted to the ASCII letters.  The sources apply
    [toUpperCase] to the section capture only (ASCII letters and digits),
    and the case-insensitive patterns contain no cased character outside
    ASCII, so nothing else is needed. *)
Definition upper (c : jchar) : jchar := if isLower c then (c - 32)%N else c.
Definition lower (c : jchar) : jchar := if isUpper c then (c + 32)%N else c.

Definition toUpperCase (s : jstring) : jstring := map upper s.

Fixpoint trimStart (s : jstring) : jstring :=
  match s with
  | c :: s' => if isWhiteSpace c then trimStart s' else s
  | [] => []
  end.

Definition trimEnd (s : jstring) : jstring := rev (trimStart (rev s)).

Definition trim (s : jstring) : jstring := trimEnd (trimStart s).

(** [s.split(sep)] for a one-character separator: always at least one
    piece. *)
Fixpoint split (sep : jchar) (s : jstring) : list jstring :=
  match s with
  | [] => [[]]
  | c :: s' =>
      if jchar_eqb c sep then [] :: split sep s'
      else match split sep s' with
           | piece :: rest => (c :: piece) :: rest
           | [] => [[c]]
           end
  end.

(** [s.padStart(n, fill)] for a one-character filler. *)
Definition padStart (n : nat) (fill : jchar) (s : jstring) : jstring :=
  repeat fill (n - length s) ++ s.

(** Decimal rendering of a natural number (template-literal
    interpolation of a non-negative integer). *)
Definition ofN (n : N) : jstring :=
  lit (NilZero.string_of_uint (N.to_uint n)).

End JsString.
Import JsString.

(* ===================================================================== *)
(** * Regular expressions                                                 *)
(* ===================================================================== *)

(** A backtracking matcher for the fragment of ECMAScript regular
    expressions the sources use: literals, character classes and escapes,
    sequence, alternation, capture groups, [^] and [$], quantified
    one-character atoms ([+], [*], [{m,n}], greedy or lazy) and optional
    groups.  Alternatives are tried in the order ECMAScript tries them. *)
Module Regex.

Inductive citem : Type :=
| CChar (c : jchar)            (* a single character *)
| CRange (lo hi : jchar)       (* lo-hi *)
| CSpace                       (* \s *)
| CDigit.                      (* \d *)

Record cclass : Type := { negated : bool; items : list citem }.

Inductive regex : Type :=
| Eps
| Chr (c : jchar)
| Cls (cl : cclass)
| Seq (r1 r2 : regex)
| Alt (r1 r2 : regex)
| Opt (r : regex)                                     (* (?:r)?  *)
| Rep (cl : cclass) (lo : nat) (hi : option nat) (greedy : bool)
| Group (i : nat) (r : regex)                         (* ( r )   *)
| Bol                                                 (* ^ *)
| Eol.                                                (* $ *)

(** [.] : anything but a line terminator. *)
Definition dot : cclass :=
  {| negated := true;
     items := [CChar 10; CChar 13; CChar 8232; CChar 8233] |}.

Definition canon (ignoreCase : bool) (c : jchar) : jchar :=
  if ignoreCase then upper c else c.

Definition item_has (it : citem) (c : jchar) : bool :=
  match it with
  | CChar a => N.eqb a c
  | CRange lo hi => in_range lo hi c
  | CSpace => isWhiteSpace c
  | CDigit => isDigit c
  end.

(** With the [i] flag a character belongs to a class when some member
    has the same canonical form, that is when the character or one of
    its two case variants is a member. *)
Definition item_matches (ignoreCase : bool) (it : citem) (c : jchar) : bool :=
  if ignoreCase
  then (item_has it c || item_has it (upper c) || item_has it (lower c))%bool
  else item_has it c.

Definition class_matches (ignoreCase : bool) (cl : cclass) (c : jchar) : bool :=
  xorb (negated cl) (existsb (fun it => item_matches ignoreCase it c) (items cl)).

Definition captures := list (nat * jstring).

Fixpoint capture (i : nat) (c : captures) : option jstring :=
  match c with
  | [] => None
  | (j, s) :: c' => if Nat.eqb i j then Some s else capture i c'
  end.

(** The outcome of a successful match: end position, rest of the input,
    captures. *)
Definition outcome : Type := nat * jstring * captures.
Definition cont := nat -> jstring -> captures -> option outcome.

Definition orelse {A} (a : option A) (b : unit -> option A) : option A :=
  match a with Some x => Some x | None => b tt end.

Definition hi_allows (hi : option nat) : bool :=
  match hi with Some 0 => false | _ => true end.

Fixpoint rep (ic : bool) (cl : cclass) (greedy : bool) (k : cont)
    (lo : nat) (hi : option nat) (pos : nat) (s : jstring) (c : captures)
    {struct s} : option outcome :=
  let more (_ : unit) :=
    match s with
    | ch :: s' =>
        if (hi_allows hi && class_matches ic cl ch)%bool
        then rep ic cl greedy k (pred lo) (option_map pred hi) (S pos) s' c
        else None
    | [] => None
    end in
  let stop (_ : unit) := k pos s c in
  match lo with
  | S _ => more tt
  | O => if greedy then orelse (more tt) stop else orelse (stop tt) more
  end.

Fixpoint run (ic : bool) (r : regex) (k : cont)
    (pos : nat) (s : jstring) (c : captures) : option outcome :=
  match r with
  | Eps => k pos s c
  | Chr a =>
      match s with
      | ch :: s' =>
          if N.eqb (canon ic ch) (canon ic a) then k (S pos) s' c else None
      | [] => None
      end
  | Cls cl =>
      match s with
      | ch :: s' => if class_matches ic cl ch then k (S pos) s' c else None
      | [] => None
      end
  | Seq r1 r2 => run ic r1 (fun pos' s' c' => run ic r2 k pos' s' c') pos s c
  | Alt r1 r2 => orelse (run ic r1 k pos s c) (fun _ => run ic r2 k pos s c)
  | Opt r1 => orelse (run ic r1 k pos s c) (fun _ => k pos s c)
  | Rep cl lo hi greedy => rep ic cl greedy k lo hi pos s c
  | Group i r1 =>
      run ic r1
        (fun pos' s' c' => k pos' s' ((i, firstn (pos' - pos) s) :: c'))
        pos s c
  | Bol => if Nat.eqb pos 0 then k pos s c else None
  | Eol => match s with [] => k pos s c | _ :: _ => None end
  end.

Definition accept : cont := fun pos s c => Some (pos, s, c).

(** A match attempt anchored at the current position. *)
Definition match_here (ic : bool) (r : regex) (pos : nat) (s : jstring)
  : option outcome := run ic r accept pos s [].

(** [RegExp.prototype.exec] without the [g] flag: the leftmost start
    position at which the pattern matches. *)
Fixpoint exec_from (ic : bool) (r : regex) (pos : nat) (s : jstring)
  : option captures :=
  match match_here ic r pos s with
  | Some (_, _, c) => Some c
  | None =>
      match s with
      | [] => None
      | _ :: s' => exec_from ic r (S pos) s'
      end
  end.

(** [str.match(re)] for a pattern without the [g] flag. *)
Definition jsmatch (ic : bool) (r : regex) (s : jstring) : option captures :=
  exec_from ic r 0 s.

(** [str.replace(re, by)] for a pattern with the [g] flag and a
    replacement without [$] patterns.  [skip] counts the characters of
    the current match that are still to be dropped. *)
Fixpoint replace_from (ic : bool) (r : regex) (by_ : jstring)
    (skip pos : nat) (s : jstring) : jstring :=
  match skip with
  | S n =>
      match s with
      | [] => []
      | _ :: s' => replace_from ic r by_ n (S pos) s'
      end
  | O =>
      match match_here ic r pos s with
      | Some (e, _, _) =>
          match s with
          | [] => by_
          | ch :: s' =>
              match e - pos with
              | O => by_ ++ ch :: replace_from ic r by_ 0 (S pos) s'
              | S n => by_ ++ replace_from ic r by_ n (S pos) s'
              end
          end
      | None =>
          match s with
          | [] => []
          | ch :: s' => ch :: replace_from ic r by_ 0 (S pos) s'
          end
      end
  end.

Definition replaceAll (ic : bool) (r : regex) (by_ s : jstring) : jstring :=
  replace_from ic r by_ 0 0 s.

(** Helpers to write patterns the way the source writes them. *)
Fixpoint word (s : jstring) : regex :=
  match s with
  | [] => Eps
  | [c] => Chr c
  | c :: s' => Seq (Chr c) (word s')
  end.

Fixpoint seqs (rs : list regex) : regex :=
  match rs with
  | [] => Eps
  | [r] => r
  | r :: rs' => Seq r (seqs rs')
  end.

Fixpoint alts (rs : list regex) : regex :=
  match rs with
  | [] => Eps
  | [r] => r
  | r :: rs' => Alt r (alts rs')
  end.

End Regex.
Import Regex.

(* ===================================================================== *)
(** * services/regexService.ts                                            *)
(* ===================================================================== *)

Module RegexService.

(** types.ts / the extractor's output record. *)
Record ParcelQuery : Type := {
  communeName : jstring;
  section : jstring;
  numero : jstring
}.

(** [[\s\t]] *)
Definition sep_class : cclass := {| negated := false; items := [CSpace; CChar 9] |}.
(** [[A-Z0-9]] *)
Definition alnum_class : cclass :=
  {| negated := false; items := [CRange 65 90; CRange 48 57] |}.
(** [\d] *)
Definition digit_class : cclass := {| negated := false; items := [CDigit] |}.

(** The second character of the first number marker as the source file
    stores it: U+C9F8, not the degree sign U+00B0. *)
Definition marker_char : jchar := 51704.
Definition degree_sign : jchar := 176.

(** Pattern 1 with [m] as the character that follows N in the first
    number marker. *)
Definition pattern1_with (m : jchar) : regex :=
  seqs [ Bol;
         Group 1 (Rep dot 1 None false);
         Rep sep_class 1 None true;
         alts [ word (lit "S"); word (lit "Section");
                Seq (word (lit "Sec")) (Opt (Chr 46));
                Seq (word (lit "Sect")) (Opt (Chr 46)) ];
         Rep sep_class 1 None true;
         Group 2 (Rep alnum_class 1 (Some 2) true);
         Rep sep_class 1 None true;
         Opt (alts [ word [78%N; m]; word (lit "No"); word (lit "N");
                     word (lit "Num"); word (lit "Numero") ]);
         Opt (Chr 46);
         Rep sep_class 0 None true;
         Group 3 (Rep digit_class 1 None true);
         Eol ].

(** /^(.+?)[\s\t]+(?:S|Section|Sec\.?|Sect\.?)[\s\t]+([A-Z0-9]{1,2})[\s\t]+(?:N\uC9F8|No|N|Num|Numero)?\.?[\s\t]*(\d+)$/i *)
Definition pattern1 : regex := pattern1_with marker_char.

(** /^(.+?)[\s\t]+([A-Z0-9]{1,2})[\s\t]+(\d+)$/i *)
Definition pattern2 : regex :=
  seqs [ Bol;
         Group 1 (Rep dot 1 None false);
         Rep sep_class 1 None true;
         Group 2 (Rep alnum_class 1 (Some 2) true);
         Rep sep_class 1 None true;
         Group 3 (Rep digit_class 1 None true);
         Eol ].

Definition group (i : nat) (c : captures) : jstring :=
  match capture i c with Some s => s | None => [] end.

Definition to_query (c : captures) : ParcelQuery :=
  {| communeName := trim (group 1 c);
     section := toUpperCase (group 2 c);
     numero := group 3 c |}.

(** The body of the [for (const line of lines)] loop: the records the
    line contributes. *)
Definition parse_line (line : jstring) : list ParcelQuery :=
  let cleanLine := trim line in
  match jsmatch true pattern1 cleanLine with
  | Some c => [to_query c]
  | None =>
      match jsmatch true pattern2 cleanLine with
      | Some c => [to_query c]
      | None => []
      end
  end.

Definition parseParcelTextRegex (inputText : jstring) : list ParcelQuery :=
  let lines :=
    List.filter (fun line => negb (jstring_eqb (trim line) [])) (split 10 inputText) in
  flat_map parse_line lines.

End RegexService.
Import RegexService.

(* ===================================================================== *)
(** * types.ts                                                            *)
(* ===================================================================== *)

Module Types.

Inductive Status : Type := pending | loading | success | error.

Definition Status_eqb (a b : Status) : bool :=
  match a, b with
  | pending, pending | loading, loading
  | success, success | error, error => true
  | _, _ => false
  end.

(** GeoJSON as far as the sources read it.  A position is
    [(longitude, latitude)]; a ring is a list of positions; the
    coordinates of a polygon are its rings, the outer ring first. *)
Definition Position : Type := R * R.
Definition Ring : Type := list Position.

Inductive Geometry : Type :=
| Polygon (coordinates : list Ring)
| MultiPolygon (coordinates : list (list Ring))
| OtherGeometry.                       (* Point, LineString, ... *)

Record Feature : Type := { geometry : option Geometry }.

(** A GeoJSON object: its [type] member, its [features] member when it
    has one, and its own [geometry] member when it has one. *)
Record GeoJson : Type := {
  gtype : jstring;
  features : option (list Feature);
  own_geometry : option Geometry
}.

Record ParsedParcel : Type := {
  id : jstring;
  rawText : jstring;
  communeName : jstring;
  inseeCode : option jstring;
  section : jstring;
  numero : jstring;
  status : Status;
  geoJson : option GeoJson;
  errorMessage : option jstring
}.

Record InseeResponse : Type := {
  nom : jstring;
  code : jstring;
  codesPostaux : list jstring
}.

Inductive ParseStatus : Type :=
| IDLE | PARSING_TEXT | FETCHING_INSEE | FETCHING_GEOMETRY | COMPLETED.

End Types.
Import Types.

(* ===================================================================== *)
(** * Effects: state and exceptions                                       *)
(* ===================================================================== *)

Module Effects.

Record JsError : Type := { message : jstring }.

Inductive Result (A : Type) : Type :=
| Val (a : A)
| Throw (e : JsError).
Arguments Val {A} a.
Arguments Throw {A} e.

(** A computation over a state [S]: it returns or throws, and leaves a
    state behind in both cases. *)
Definition M (S A : Type) : Type := S -> Result A * S.

Definition ret {S A} (a : A) : M S A := fun s => (Val a, s).

Definition bind {S A B} (m : M S A) (f : A -> M S B) : M S B :=
  fun s =>
    match m s with
    | (Val a, s') => f a s'
    | (Throw e, s') => (Throw e, s')
    end.

Definition throw {S A} (e : JsError) : M S A := fun s => (Throw e, s).

(** [try { m } catch (e) { h e }] *)
Definition try_catch {S A} (m : M S A) (h : JsError -> M S A) : M S A :=
  fun s =>
    match m s with
    | (Val a, s') => (Val a, s')
    | (Throw e, s') => h e s'
    end.

Definition of_result {S A} (r : Result A) : M S A := fun s => (r, s).

Definition modify {S} (f : S -> S) : M S unit := fun s => (Val tt, f s).

(** Run a computation on a component of the state. *)
Definition zoom {S T A} (get : S -> T) (set : T -> S -> S) (m : M T A)
  : M S A :=
  fun s => let (r, t) := m (get s) in (r, set t s).

Declare Scope js_scope.
Delimit Scope js_scope with js.
Notation "x <- c1 ;; c2" := (bind c1 (fun x => c2))
  (at level 100, c1 at next level, right associativity) : js_scope.
Notation "c1 ;; c2" := (bind c1 (fun _ => c2))
  (at level 100, right associativity) : js_scope.

End Effects.
Import Effects.

(* ===================================================================== *)
(** * The host environment                                                *)
(* ===================================================================== *)

Module Host.

(** What [await response.json()] yields, as far as the sources inspect
    it: [null], an array of communes, or a GeoJSON object. *)
Inductive Json : Type :=
| JNull
| JCommunes (data : list InseeResponse)
| JGeo (g : GeoJson).

Record Response : Type := {
  ok : bool;
  json : Result Json        (* [Throw]: the body does not parse *)
}.

Inductive FetchOutcome : Type :=
| Rejected (e : JsError)    (* transport error: the promise rejects *)
| Responded (r : Response).

(** Everything the program takes from its environment. *)
Class Env : Type := {
  World : Type;
  fetch_in : jstring -> World -> FetchOutcome * World;
  encodeURIComponent : jstring -> Result jstring;
  (** services/geminiService.ts: the remote extractor *)
  remote_extract : jstring -> World -> Result (list ParcelQuery) * World;
  Date_now : World -> N * World
}.

(** The network as the lookups see it: the world and the log of the
    URLs requested so far, oldest first. *)
Record Net `{Env} : Type := { world : World; sent : list jstring }.

Definition fetch `{Env} (url : jstring) : M Net Response :=
  fun n =>
    let (o, w) := fetch_in url (world n) in
    let n' := {| world := w; sent := sent n ++ [url] |} in
    match o with
    | Rejected e => (Throw e, n')
    | Responded r => (Val r, n')
    end.

End Host.
Import Host.

(* ===================================================================== *)
(** * services/cadastreService.ts                                         *)
(* ===================================================================== *)

Module CadastreService.
Section WithEnv.
Context `{Env}.
Local Open Scope js_scope.

Definition API_GEO_URL : jstring := lit "https://geo.api.gouv.fr".
Definition API_CARTO_URL : jstring := lit "https://apicarto.ign.fr/api/cadastre".

Definition commune_url (encodedName : jstring) : jstring :=
API_GEO_URL ++ lit "/communes?nom=" ++ encodedName
  ++ lit "&fields=code&boost=population&limit=1".

Definition parcelle_url (insee section numero : jstring) : jstring :=
API_CARTO_URL ++ lit "/parcelle?code_insee=" ++ insee
  ++ lit "&section=" ++ section ++ lit "&numero=" ++ numero.

(** The [try] block of [getInseeCode]. *)
Definition getInseeCode_try (communeName : jstring) : M Net (option jstring) :=
q <- of_result (encodeURIComponent communeName) ;;
response <- fetch (commune_url q) ;;
if negb (ok response) then ret None
else
  data <- of_result (json response) ;;
  match data with
  | JCommunes (d :: _) => ret (Some (code d))
  | _ => ret None
  end.

Definition getInseeCode (communeName : jstring) : M Net (option jstring) :=
try_catch (getInseeCode_try communeName) (fun _ => ret None).

(** The [try] block of [getParcelGeometry]. *)
Definition getParcelGeometry_try (insee section numero : jstring) : M Net Json :=
let formattedNumero := padStart 4 48 numero in
let url := parcelle_url insee section formattedNumero in
response <- fetch url ;;
if negb (ok response) then
  if Nat.eqb (length section) 1 then
    let retryUrl := parcelle_url insee (48%N :: section) formattedNumero in
    retryResponse <- fetch retryUrl ;;
    if ok retryResponse then of_result (json retryResponse)
    else ret JNull
  else ret JNull
else
  geoJson <- of_result (json response) ;;
  ret geoJson.

Definition getParcelGeometry (insee section numero : jstring) : M Net Json :=
try_catch (getParcelGeometry_try insee section numero) (fun _ => ret JNull).

End WithEnv.
End CadastreService.
Import CadastreService.

(* ===================================================================== *)
(** * App.tsx: geometry helpers                                           *)
(* ===================================================================== *)

Module Geometry.
Local Open Scope R_scope.
Local Open Scope js_scope.

Definition typeError : JsError :=
  {| message := lit "Cannot read properties of undefined" |}.

(** [list.forEach(f)] with a callback that may throw. *)
Fixpoint forEach {S A} (l : list A) (f : A -> M S unit) : M S unit :=
  match l with
  | [] => ret tt
  | a :: l' => f a ;; forEach l' f
  end.

Definition earthRadius : R := 6378137.

(** One turn of the [for] loop of [getRingArea]: [area += ...] for the
    vertices [coords[i]] and [coords[(i + 1) % coords.length]].  The
    index is always in range, the default of [nth] is never read. *)
Definition ring_step (coords : Ring) (area : R) (i : nat) : R :=
  let '(p1Lng, p1Lat) := nth i coords (0, 0) in
  let '(p2Lng, p2Lat) := nth ((i + 1) mod length coords) coords (0, 0) in
  area + ((p2Lng - p1Lng) * (PI / 180)) *
         (2 + sin (p1Lat * (PI / 180)) + sin (p2Lat * (PI / 180))).

Definition getRingArea (coords : Ring) : R :=
  let area :=
    if Nat.ltb 2 (length coords) then
      let area := fold_left (ring_step coords) (seq 0 (length coords)) 0 in
      area * earthRadius * earthRadius / 2
    else 0 in
  Rabs area.

(** [getRingArea(rings[0])]: reading [length] of a missing ring is a
    TypeError. *)
Definition outerRingArea (rings : list Ring) : Result R :=
  match rings with
  | ring :: _ => Val (getRingArea ring)
  | [] => Throw typeError
  end.

(** [totalArea += getRingArea(rings[0])] *)
Definition addOuterRing (rings : list Ring) : M R unit :=
  a <- of_result (outerRingArea rings) ;;
  modify (fun totalArea => totalArea + a).

Definition isFeatureCollection (g : GeoJson) : bool :=
  jstring_eqb (gtype g) (lit "FeatureCollection").

(** [geoJson.type === 'FeatureCollection' ? geoJson.features : [geoJson]];
    the object itself is then read as a feature through its own
    [geometry] member. *)
Definition featuresOf (g : GeoJson) : option (list Feature) :=
  if isFeatureCollection g then features g
  else Some [ {| geometry := own_geometry g |} ].

Definition areaOfFeature (f : Feature) : M R unit :=
  match geometry f with
  | None => ret tt
  | Some (Polygon coordinates) => addOuterRing coordinates
  | Some (MultiPolygon coordinates) => forEach coordinates addOuterRing
  | Some OtherGeometry => ret tt
  end.

Definition calculateGeoJsonArea (geoJson : option GeoJson) : Result R :=
  match geoJson with
  | None => Val 0
  | Some g =>
      match featuresOf g with
      | None => Throw typeError              (* undefined.forEach *)
      | Some fs =>
          match forEach fs areaOfFeature 0 with
          | (Val _, totalArea) => Val totalArea
          | (Throw e, _) => Throw e
          end
      end
  end.

(** ** Number formatting *)

(** The values [Math.round] returns: an integer, the negative zero, or
    its argument when that is NaN or an infinity. *)
Inductive Rounded : Type :=
| RInt (n : Z)
| RNegZero
| RNaN
| RInfinity (negative : bool).

(** Formatting done by the host: [Number::toString] on the number a
    double stands for, and [Number.prototype.toLocaleString] on a value
    of [Math.round]. *)
Class NumberFormat : Type := {
  numberToString : R -> jstring;
  toLocaleString : Rounded -> jstring
}.

(** The number a finite double stands for: its signed mantissa times a
    power of two. *)
Definition mantissa (s : bool) (m : positive) : Z := if s then Zneg m else Zpos m.

Definition valueOf (x : float) : R :=
  match Prim2SF x with
  | S754_finite s m e => IZR (mantissa s m) * powerRZ 2 e
  | _ => 0
  end.

(** The integer [n] for which [n / 10^f] is as close as possible to
    [m * 2^e], the larger one if there are two: the floor of
    [m * 2^e * 10^f + 1/2]. *)
Definition nearest (m e : Z) (f : nat) : Z :=
  let scaled := (m * 10 ^ Z.of_nat f)%Z in
  if (0 <=? e)%Z then (scaled * 2 ^ e)%Z
  else ((2 * scaled + 2 ^ (- e)) / 2 ^ (1 - e))%Z.

(** [Math.round]: the nearest integer, ties towards +infinity; a result
    that is zero keeps the sign of a negative argument. *)
Definition Math_round (x : float) : Rounded :=
  match Prim2SF x with
  | S754_nan => RNaN
  | S754_infinity s => RInfinity s
  | S754_zero s => if s then RNegZero else RInt 0
  | S754_finite s m e =>
      let n := nearest (mantissa s m) e 0 in
      if (s && (n =? 0)%Z)%bool then RNegZero else RInt n
  end.

(** The digits of [toFixed] for the integer [n] it has chosen: padded
    with zeros to [f + 1] digits, the point before the last [f]. *)
Definition fixedDigits (f : nat) (n : Z) : jstring :=
  let m := ofN (Z.to_N n) in
  match f with
  | O => m
  | S _ =>
      let m := padStart (f + 1) 48 m in
      let k := length m in
      firstn (k - f) m ++ lit "." ++ skipn (k - f) m
  end.

(** [Number.prototype.toFixed(f)] as ECMAScript defines it, for
    [0 <= f <= 100]: a value that is not finite is printed by name; the
    sign is taken off; from 10^21 on, which a double holds exactly, the
    rest is left to [Number::toString]; below, the digits are those of
    the integer nearest to the value times [10^f]. *)
Definition toFixed `{NumberFormat} (f : nat) (x : float) : jstring :=
  match Prim2SF x with
  | S754_nan => lit "NaN"
  | S754_infinity s => if s then lit "-Infinity" else lit "Infinity"
  | S754_zero _ => fixedDigits f 0
  | S754_finite s m e =>
      (if s then lit "-" else [])
        ++ (if (abs x <? 1e21)%float
            then fixedDigits f (nearest (Zpos m) e f)
            else numberToString (valueOf (abs x)))
  end.

(** The unit suffix of the square-metre branch is a space, [m] and the
    superscript two U+00B2. *)
Definition formatArea `{NumberFormat} (areaSqM : float) : jstring :=
  if (areaSqM =? 0)%float then []
  else if (10000 <? areaSqM)%float
  then toFixed 4 (areaSqM / 10000)%float ++ lit " ha"
  else toLocaleString (Math_round areaSqM) ++ [32%N; 109%N; 178%N].

End Geometry.
Import Geometry.

(* ===================================================================== *)
(** * App.tsx: GPX export                                                 *)
(* ===================================================================== *)

Module Gpx.
Section WithFormat.
Context `{NumberFormat}.
Local Open Scope js_scope.

Definition quote : jstring := [34%N].
Definition newline : jstring := [10%N].

(** The name written in the document: [`${communeName} ${section} ${numero}`]. *)
Definition gpxName (parcel : ParsedParcel) : jstring :=
Types.communeName parcel ++ lit " " ++ Types.section parcel
  ++ lit " " ++ Types.numero parcel.

Definition trkpt (coord : Position) : jstring :=
lit "<trkpt lat=" ++ quote ++ numberToString (snd coord) ++ quote
  ++ lit " lon=" ++ quote ++ numberToString (fst coord) ++ quote
  ++ lit "><ele>0</ele></trkpt>".

Definition addRing (ring : Ring) : jstring :=
let pts := fold_left (fun pts coord => pts ++ trkpt coord) ring [] in
lit "<trkseg>" ++ pts ++ lit "</trkseg>".

(** [segments += addRing(ring)] *)
Definition appendRing (ring : Ring) : M jstring unit :=
modify (fun segments => segments ++ addRing ring).

Definition segmentsOfFeature (f : Feature) : M jstring unit :=
match geometry f with
| None => ret tt
| Some (Polygon coordinates) => forEach coordinates appendRing
| Some (MultiPolygon coordinates) =>
    forEach coordinates (fun poly => forEach poly appendRing)
| Some OtherGeometry => ret tt
end.

Definition gpxDocument (name segments : jstring) : jstring :=
lit "<?xml version=" ++ quote ++ lit "1.0" ++ quote
  ++ lit " encoding=" ++ quote ++ lit "UTF-8" ++ quote ++ lit "?>" ++ newline
  ++ lit "<gpx version=" ++ quote ++ lit "1.1" ++ quote
  ++ lit " creator=" ++ quote ++ lit "CadastreViz" ++ quote ++ lit ">" ++ newline
  ++ lit "  <metadata>" ++ newline
  ++ lit "    <name>" ++ name ++ lit "</name>" ++ newline
  ++ lit "  </metadata>" ++ newline
  ++ lit "  <trk>" ++ newline
  ++ lit "    <name>" ++ name ++ lit "</name>" ++ newline
  ++ lit "    " ++ segments ++ newline
  ++ lit "  </trk>" ++ newline
  ++ lit "</gpx>".

Definition createGpxContent (parcel : ParsedParcel) : Result jstring :=
match geoJson parcel with
| None => Val []
| Some g =>
    let name := gpxName parcel in
    match featuresOf g with
    | None => Throw typeError
    | Some fs =>
        match forEach fs segmentsOfFeature [] with
        | (Val _, segments) => Val (gpxDocument name segments)
        | (Throw e, _) => Throw e
        end
    end
end.

(** /\s+/g *)
Definition whitespace_run : regex :=
Rep {| negated := false; items := [CSpace] |} 1 None true.

(** /[^a-z0-9_\-\.]/gi *)
Definition unsafe_char : regex :=
Cls {| negated := true;
       items := [CRange 97 122; CRange 48 57; CChar 95; CChar 45; CChar 46] |}.

(** [cleanName] of [handleExportGPX]. *)
Definition cleanName (p : ParsedParcel) : jstring :=
replaceAll true unsafe_char []
  (replaceAll false whitespace_run (lit "_")
     (Types.communeName p ++ lit "-" ++ Types.section p
        ++ lit "-" ++ Types.numero p)).

(** [zip.file(name, content)]: an entry of the same name is replaced. *)
Fixpoint zip_file (name content : jstring) (zip : list (jstring * jstring))
: list (jstring * jstring) :=
match zip with
| [] => [(name, content)]
| (n, c) :: zip' =>
    if jstring_eqb n name then (n, content) :: zip'
    else (n, c) :: zip_file name content zip'
end.

Inductive ExportOutcome : Type :=
| Refused (notice : jstring)
| Archive (files : list (jstring * jstring)).

Definition exportable (p : ParsedParcel) : bool :=
(Status_eqb (status p) success && bool_decide (is_Some (geoJson p)))%bool.

(** [handleExportGPX] up to the point where the archive is handed to
  the browser. *)
Definition handleExportGPX (parcels : list ParsedParcel) : Result ExportOutcome :=
let successParcels := List.filter exportable parcels in
if Nat.eqb (length successParcels) 0
then Val (Refused (lit "No valid parcels with geometry found to export."))
else
  match
    forEach successParcels
      (fun p =>
         gpxContent <- of_result (createGpxContent p) ;;
         modify (zip_file (cleanName p ++ lit ".gpx") gpxContent)) []
  with
  | (Val _, zip) => Val (Archive zip)
  | (Throw e, _) => Throw e
  end.

End WithFormat.
End Gpx.
Import Gpx.

(* ===================================================================== *)
(** * App.tsx: the resolution run                                         *)
(* ===================================================================== *)

Module App.
Section WithEnv.
Context `{Env}.
Local Open Scope js_scope.

(** The component state [handleProcess] writes, the network, and the
  log of every list handed to [setParcels], oldest first. *)
Record AppState : Type := {
net : Net;
parcels : list ParsedParcel;
published : list (list ParsedParcel);
appStatus : ParseStatus;
progressMessage : jstring;
selectedParcelId : option jstring;
measurementsVisibleIds : list jstring
}.

Definition set_net (n : Net) (s : AppState) : AppState :=
{| net := n; parcels := parcels s; published := published s;
   appStatus := appStatus s; progressMessage := progressMessage s;
   selectedParcelId := selectedParcelId s;
   measurementsVisibleIds := measurementsVisibleIds s |}.

Definition setParcels (v : list ParsedParcel) : M AppState unit :=
modify (fun s =>
  {| net := net s; parcels := v; published := published s ++ [v];
     appStatus := appStatus s; progressMessage := progressMessage s;
     selectedParcelId := selectedParcelId s;
     measurementsVisibleIds := measurementsVisibleIds s |}).

Definition setAppStatus (v : ParseStatus) : M AppState unit :=
modify (fun s =>
  {| net := net s; parcels := parcels s; published := published s;
     appStatus := v; progressMessage := progressMessage s;
     selectedParcelId := selectedParcelId s;
     measurementsVisibleIds := measurementsVisibleIds s |}).

Definition setProgressMessage (v : jstring) : M AppState unit :=
modify (fun s =>
  {| net := net s; parcels := parcels s; published := published s;
     appStatus := appStatus s; progressMessage := v;
     selectedParcelId := selectedParcelId s;
     measurementsVisibleIds := measurementsVisibleIds s |}).

Definition setSelectedParcelId (v : option jstring) : M AppState unit :=
modify (fun s =>
  {| net := net s; parcels := parcels s; published := published s;
     appStatus := appStatus s; progressMessage := progressMessage s;
     selectedParcelId := v;
     measurementsVisibleIds := measurementsVisibleIds s |}).

Definition setMeasurementsVisibleIds (v : list jstring) : M AppState unit :=
modify (fun s =>
  {| net := net s; parcels := parcels s; published := published s;
     appStatus := appStatus s; progressMessage := progressMessage s;
     selectedParcelId := selectedParcelId s;
     measurementsVisibleIds := v |}).

(** A call into services/cadastreService.ts. *)
Definition service {A} (m : M Net A) : M AppState A := zoom net set_net m.

(** A call into services/geminiService.ts. *)
Definition parseParcelText (inputText : jstring) : M AppState (list ParcelQuery) :=
service (fun n =>
  let (r, w) := remote_extract inputText (world n) in
  (r, {| world := w; sent := sent n |})).

Definition dateNow : M AppState N :=
service (fun n =>
  let (t, w) := Date_now (world n) in
  (Val t, {| world := w; sent := sent n |})).

(** [{ ...p, status: 'loading' }] *)
Definition asLoading (p : ParsedParcel) : ParsedParcel :=
{| id := id p; rawText := rawText p; communeName := Types.communeName p;
   inseeCode := inseeCode p; section := Types.section p;
   numero := Types.numero p; status := loading;
   geoJson := geoJson p; errorMessage := errorMessage p |}.

(** [{ ...p, status: 'error', errorMessage: 'Commune not found' }] *)
Definition asCommuneNotFound (p : ParsedParcel) : ParsedParcel :=
{| id := id p; rawText := rawText p; communeName := Types.communeName p;
   inseeCode := inseeCode p; section := Types.section p;
   numero := Types.numero p; status := error;
   geoJson := geoJson p;
   errorMessage := Some (lit "Commune not found") |}.

(** [{ ...p, inseeCode: insee, geoJson: geoJson, status: 'success' }] *)
Definition asSuccess (p : ParsedParcel) (insee : jstring) (g : GeoJson)
: ParsedParcel :=
{| id := id p; rawText := rawText p; communeName := Types.communeName p;
   inseeCode := Some insee; section := Types.section p;
   numero := Types.numero p; status := success;
   geoJson := Some g; errorMessage := errorMessage p |}.

(** [{ ...p, inseeCode: insee, status: 'error', errorMessage: ... }] *)
Definition asGeometryNotFound (p : ParsedParcel) (insee : jstring)
: ParsedParcel :=
{| id := id p; rawText := rawText p; communeName := Types.communeName p;
   inseeCode := Some insee; section := Types.section p;
   numero := Types.numero p; status := error;
   geoJson := geoJson p;
   errorMessage := Some (lit "Parcel geometry not found in Cadastre") |}.

(** [!insee] is false: the lookup returned a non-empty string. *)
Definition truthy (insee : option jstring) : option jstring :=
match insee with
| Some (c :: s) => Some (c :: s)
| _ => None
end.

(** [geoJson && geoJson.features && geoJson.features.length > 0] *)
Definition hasFeatures (geoJson : Json) : option GeoJson :=
match geoJson with
| JGeo g =>
    match features g with
    | Some (_ :: _) => Some g
    | _ => None
    end
| _ => None
end.

(** The [for] loop over [updatedParcels]: [n] turns are left, the next
  one is for index [i].  The result is the array after the loop. *)
Fixpoint resolveFrom (n i : nat) (updatedParcels : list ParsedParcel)
: M AppState (list ParsedParcel) :=
match n with
| O => ret updatedParcels
| S n' =>
    match updatedParcels !! i with
    | None => throw typeError    (* reading [p.communeName] of undefined; [i] is in range *)
    | Some p =>
        let updatedParcels := <[i := asLoading p]> updatedParcels in
        setParcels updatedParcels ;;
        insee <- service (getInseeCode (Types.communeName p)) ;;
        match truthy insee with
        | None =>
            let updatedParcels := <[i := asCommuneNotFound p]> updatedParcels in
            resolveFrom n' (S i) updatedParcels            (* continue *)
        | Some insee =>
            geoJson <- service (getParcelGeometry insee (Types.section p) (Types.numero p)) ;;
            let updatedParcels :=
              match hasFeatures geoJson with
              | Some g => <[i := asSuccess p insee g]> updatedParcels
              | None => <[i := asGeometryNotFound p insee]> updatedParcels
              end in
            setParcels updatedParcels ;;
            resolveFrom n' (S i) updatedParcels
        end
    end
end.

Definition resolveAll (initialParcels : list ParsedParcel)
: M AppState (list ParsedParcel) :=
resolveFrom (length initialParcels) 0 initialParcels.

(** One element of [parsedRaw.map((p, idx) => ...)]. *)
Definition initialParcel (p : ParcelQuery) (idx : nat) : M AppState ParsedParcel :=
now <- dateNow ;;
ret {| id := lit "p-" ++ ofN (N.of_nat idx) ++ lit "-" ++ ofN now;
       rawText := RegexService.communeName p ++ lit " "
                    ++ RegexService.section p ++ lit " "
                    ++ RegexService.numero p;
       communeName := RegexService.communeName p;
       inseeCode := None;
       section := RegexService.section p;
       numero := RegexService.numero p;
       status := pending;
       geoJson := None;
       errorMessage := None |}.

Fixpoint initialParcelsFrom (idx : nat) (parsedRaw : list ParcelQuery)
: M AppState (list ParsedParcel) :=
match parsedRaw with
| [] => ret []
| p :: rest =>
    r <- initialParcel p idx ;;
    rs <- initialParcelsFrom (S idx) rest ;;
    ret (r :: rs)
end.

Definition extract (useAiParsing : bool) (inputText : jstring)
: M AppState (list ParcelQuery) :=
if useAiParsing then
  setProgressMessage (lit "Asking AI to interpret parcel data...") ;;
  parseParcelText inputText
else
  setProgressMessage (lit "Parsing text locally...") ;;
  let parsedRaw := parseParcelTextRegex inputText in
  if Nat.eqb (length parsedRaw) 0
  then throw {| message :=
    lit "No parcels detected using Regex mode. Try checking your format or enable AI analysis." |}
  else ret parsedRaw.

(** The part of [handleProcess] that starts from the extracted
  triples. *)
Definition resolveRun (parsedRaw : list ParcelQuery) : M AppState unit :=
initialParcels <- initialParcelsFrom 0 parsedRaw ;;
setParcels initialParcels ;;
setAppStatus FETCHING_INSEE ;;
setProgressMessage (lit "Resolving INSEE codes and geometries...") ;;
_ <- resolveAll initialParcels ;;
setAppStatus COMPLETED ;;
setProgressMessage (lit "Processing complete.").

Definition handleProcess (useAiParsing : bool) (inputText : jstring)
: M AppState unit :=
match trim inputText with
| [] => ret tt
| _ :: _ =>
    setAppStatus PARSING_TEXT ;;
    setParcels [] ;;
    setSelectedParcelId None ;;
    setMeasurementsVisibleIds [] ;;
    try_catch
      (parsedRaw <- extract useAiParsing inputText ;;
       resolveRun parsedRaw)
      (fun e =>
         setAppStatus IDLE ;;
         setProgressMessage
           (match message e with
            | [] => lit "An error occurred during processing."
            | m => m
            end))
end.

Definition initialState (w : World) : AppState :=
{| net := {| world := w; sent := [] |};
   parcels := []; published := [];
   appStatus := IDLE; progressMessage := [];
   selectedParcelId := None; measurementsVisibleIds := [] |}.

End WithEnv.
End App.
Import App.

(* ===================================================================== *)
(** * App.tsx: the list view                                              *)
(* ===================================================================== *)

Module View.

(** A JavaScript [Set] of strings: its elements in insertion order,
    without repetition. *)
Definition Set_has (id : jstring) (s : list jstring) : bool :=
  existsb (jstring_eqb id) s.

Definition Set_delete (id : jstring) (s : list jstring) : list jstring :=
  List.filter (fun x => negb (jstring_eqb id x)) s.

Definition Set_add (id : jstring) (s : list jstring) : list jstring :=
  if Set_has id s then s else s ++ [id].

(** The updater that [toggleMeasurements] hands to
    [setMeasurementsVisibleIds]. *)
Definition toggleMeasurements (id : jstring) (prev : list jstring) : list jstring :=
  let next := prev in
  if Set_has id next then Set_delete id next else Set_add id next.

(** [handleParcelClick]: the new value of [selectedParcelId]. *)
Definition handleParcelClick (parcel : ParsedParcel) (selectedParcelId : option jstring)
  : option jstring :=
  if Status_eqb (status parcel) success then Some (id parcel)
  else selectedParcelId.

Inductive ListFilter : Type := filter_all | filter_success | filter_error.

Definition filteredParcels (listFilter : ListFilter) (parcels : list ParsedParcel)
  : list ParsedParcel :=
  List.filter
    (fun p =>
       match listFilter with
       | filter_all => true
       | filter_success => Status_eqb (status p) success
       | filter_error => Status_eqb (status p) error
       end)
    parcels.

Record Stats : Type := {
  total : nat;
  successes : nat;
  errors : nat;
  pendings : nat
}.

Definition stats (parcels : list ParsedParcel) : Stats :=
  {| total := length parcels;
     successes := length (List.filter (fun p => Status_eqb (status p) success) parcels);
     errors := length (List.filter (fun p => Status_eqb (status p) error) parcels);
     pendings :=
       length (List.filter
                 (fun p => (Status_eqb (status p) pending
                            || Status_eqb (status p) loading)%bool) parcels) |}.

(** [lines.join(sep)] *)
Fixpoint join (sep : jstring) (l : list jstring) : jstring :=
  match l with
  | [] => []
  | [x] => x
  | x :: l' => x ++ sep ++ join sep l'
  end.

(** The line of [handleCopyList] for one record; the number marker is N
    followed by the degree sign. *)
Definition copyLine (p : ParsedParcel) : jstring :=
  Types.communeName p ++ lit " Section " ++ Types.section p
    ++ lit " N" ++ [degree_sign] ++ lit " " ++ Types.numero p.

(** [handleCopyList]: the text written to the clipboard and the text of
    the alert. *)
Definition handleCopyList (filtered : list ParsedParcel) : jstring * jstring :=
  let textToCopy := join [10%N] (map copyLine filtered) in
  (textToCopy,
   lit "Copied " ++ ofN (N.of_nat (length filtered)) ++ lit " lines to clipboard!").

End View.
Import View.

(* ===================================================================== *)
(** * components/ParcelMap.tsx: edge lengths                              *)
(* ===================================================================== *)

Module ParcelMap.
Local Open Scope R_scope.
Local Open Scope js_scope.

Record LatLng : Type := { lat : R; lng : R }.

Record Edge : Type := {
  pos : LatLng;
  edgeLength : R;
  parcelId : jstring
}.

(** The map widget as far as the measurements use it: [map.distance]. *)
Class MapWidget : Type := { distance : LatLng -> LatLng -> R }.

Section WithMap.
Context `{MapWidget}.

Definition coordsToLatLngs (ring : Ring) : list LatLng :=
  map (fun c => {| lat := snd c; lng := fst c |}) ring.

(** [polygons.push(coordsToLatLngs(rings[0]))]: mapping over a missing
    ring is a TypeError. *)
Definition pushOuterRing (rings : list Ring) : M (list (list LatLng)) unit :=
  match rings with
  | ring :: _ => modify (fun polygons => polygons ++ [coordsToLatLngs ring])
  | [] => throw typeError
  end.

Definition polygonsOfFeature (f : Feature) : M (list (list LatLng)) unit :=
  match geometry f with
  | None => ret tt
  | Some (Polygon coordinates) => pushOuterRing coordinates
  | Some (MultiPolygon coordinates) => forEach coordinates pushOuterRing
  | Some OtherGeometry => ret tt
  end.

(** [if (dist > 2) allEdges.push({ pos: midpoint, length: dist, parcelId })] *)
Definition pushEdge (owner : jstring) (p1 p2 : LatLng) (allEdges : list Edge)
  : list Edge :=
  let dist := distance p1 p2 in
  if Rgt_dec dist 2
  then allEdges ++ [ {| pos := {| lat := (lat p1 + lat p2) / 2;
                                  lng := (lng p1 + lng p2) / 2 |};
                        edgeLength := dist;
                        parcelId := owner |} ]
  else allEdges.

Definition origin : LatLng := {| lat := 0; lng := 0 |}.

(** One turn of the [for] loop over the sides of a ring; the indices are
    in range, the default of [nth] is never read. *)
Definition side_step (owner : jstring) (ring : list LatLng)
    (allEdges : list Edge) (i : nat) : list Edge :=
  pushEdge owner (nth i ring origin) (nth (i + 1) ring origin) allEdges.

(** The body of [polygons.forEach(ring => ...)]: the sides, then the
    closing segment. *)
Definition ringEdges (owner : jstring) (ring : list LatLng) (allEdges : list Edge)
  : list Edge :=
  let allEdges :=
    fold_left (side_step owner ring) (seq 0 (length ring - 1)) allEdges in
  if Nat.ltb 2 (length ring)
  then pushEdge owner (nth (length ring - 1) ring origin) (nth 0 ring origin) allEdges
  else allEdges.

(** The body of [for (const parcel of targetParcels)]. *)
Definition parcelEdges (parcel : ParsedParcel) : M (list Edge) unit :=
  match geoJson parcel with
  | None => throw typeError
  | Some g =>
      match featuresOf g with
      | None => throw typeError
      | Some fs =>
          fun allEdges =>
            match forEach fs polygonsOfFeature [] with
            | (Val _, polygons) =>
                (Val tt,
                 fold_left (fun acc ring => ringEdges (id parcel) ring acc)
                           polygons allEdges)
            | (Throw e, _) => (Throw e, allEdges)
            end
      end
  end.

Definition isTarget (visibleIds : list jstring) (p : ParsedParcel) : bool :=
  (Set_has (id p) visibleIds && bool_decide (is_Some (geoJson p)))%bool.

(** The value computed by [useMemo] in [ParcelMeasurements]: [None] is
    [null]. *)
Definition measurementData (parcels : list ParsedParcel) (visibleIds : list jstring)
  : Result (option (list Edge)) :=
  let targetParcels := List.filter (isTarget visibleIds) parcels in
  if Nat.eqb (length targetParcels) 0 then Val None
  else
    match forEach targetParcels parcelEdges [] with
    | (Val _, allEdges) => Val (Some allEdges)
    | (Throw e, _) => Throw e
    end.

(** [MapBoundsAdjuster]: the records whose layers are fitted. *)
Definition validParcels (parcels : list ParsedParcel) : list ParsedParcel :=
  List.filter
    (fun p => match geoJson p with
              | Some g => match features g with Some (_ :: _) => true | _ => false end
              | None => false
              end)
    parcels.

End WithMap.
End ParcelMap.
Import ParcelMap.

(* ===================================================================== *)
(** * The specification's wording                                         *)
(* ===================================================================== *)

(** Definitions that follow the specification's sentences, to be compared
    with the functions above. *)
Module Spec.
Local Open Scope R_scope.

Definition Rsum (l : list R) : R := fold_right Rplus 0 l.

Definition radians (degrees : R) : R := degrees * PI / 180.

(** The ring's consecutive vertex pairs, the last vertex paired with the
    first. *)
Definition consecutive_pairs (ring : Ring) : list (Position * Position) :=
  combine ring (skipn 1 ring ++ firstn 1 ring).

(** (delta lng in radians) * (2 + sin(lat1 in radians) + sin(lat2 in radians)) *)
Definition pair_term (pq : Position * Position) : R :=
  let '((lng1, lat1), (lng2, lat2)) := pq in
  radians (lng2 - lng1) * (2 + sin (radians lat1) + sin (radians lat2)).

(** The absolute value of the sum over the pairs, multiplied by R^2/2. *)
Definition ring_area (ring : Ring) : R :=
  Rabs (Rsum (map pair_term (consecutive_pairs ring))) * (6378137 ^ 2 / 2).

(** The polygons of a geometry, each as its list of rings. *)
Definition polygons (geom : option Geometry) : list (list Ring) :=
  match geom with
  | Some (Polygon rings) => [rings]
  | Some (MultiPolygon polys) => polys
  | _ => []
  end.

(** The outer ring of a polygon; holes are what follows it. *)
Definition outer_ring (rings : list Ring) : Ring := hd [] rings.

(** The sum of the members' outer-ring areas. *)
Definition collection_area (fs : list Feature) : R :=
  Rsum (map (fun rings => ring_area (outer_ring rings))
            (flat_map (fun f => polygons (geometry f)) fs)).

(** Every polygon carries at least its outer ring. *)
Definition has_outer_rings (fs : list Feature) : Prop :=
  Forall (fun rings => rings <> []) (flat_map (fun f => polygons (geometry f)) fs).

(** Every outer ring has fewer than three vertices. *)
Definition degenerate (fs : list Feature) : Prop :=
  Forall (fun rings => (length (outer_ring rings) < 3)%nat)
         (flat_map (fun f => polygons (geometry f)) fs).

(** Whitespace collapsed to underscores: every maximal run of
    whitespace becomes one underscore. *)
Fixpoint collapse_whitespace (in_run : bool) (s : jstring) : jstring :=
  match s with
  | [] => []
  | c :: s' =>
      if isWhiteSpace c
      then if in_run then collapse_whitespace true s'
           else 95%N :: collapse_whitespace true s'
      else c :: collapse_whitespace false s'
  end.

(** A character of [[a-zA-Z0-9_.-]]. *)
Definition file_name_char (c : jchar) : bool :=
  (isLower c || isUpper c || isDigit c
   || N.eqb c 95 || N.eqb c 46 || N.eqb c 45)%bool.

Definition strip_unsafe (s : jstring) : jstring := List.filter file_name_char s.

Definition sanitize (name : jstring) : jstring :=
  strip_unsafe (collapse_whitespace false name).

(** The invariant on a record: geometry exactly on success and then
    with a non-empty feature list, error message exactly on error. *)
Definition record_ok (p : ParsedParcel) : Prop :=
  (is_Some (geoJson p) <-> status p = success)
  /\ (forall g, geoJson p = Some g ->
        exists f fs, features g = Some (f :: fs))
  /\ (is_Some (errorMessage p) <-> status p = error)
  /\ (status p = pending \/ status p = loading ->
        geoJson p = None /\ errorMessage p = None).

(** The outcomes of the commune lookup that count as "not found": a
    transport error, a response that is not OK, an empty result set. *)
Inductive commune_lookup_fails `{Env} (communeName : jstring) (w : World)
  : jstring -> World -> Prop :=
| transport_error q e w' :
    encodeURIComponent communeName = Val q ->
    fetch_in (commune_url q) w = (Rejected e, w') ->
    commune_lookup_fails communeName w (commune_url q) w'
| no_response q r w' :
    encodeURIComponent communeName = Val q ->
    fetch_in (commune_url q) w = (Responded r, w') ->
    ok r = false ->
    commune_lookup_fails communeName w (commune_url q) w'
| empty_result_set q r w' :
    encodeURIComponent communeName = Val q ->
    fetch_in (commune_url q) w = (Responded r, w') ->
    ok r = true ->
    json r = Val (JCommunes []) ->
    commune_lookup_fails communeName w (commune_url q) w'.

(** The text of a geometry request: the parcel endpoint of API Carto with
    the INSEE code, the section and the numero as query parameters. *)
Definition geometry_request (insee section numero : jstring) : jstring :=
  lit "https://apicarto.ign.fr/api/cadastre/parcelle?code_insee=" ++ insee
    ++ lit "&section=" ++ section ++ lit "&numero=" ++ numero.

(** The numero padded with zeros on the left to four characters. *)
Definition zero_padded (numero : jstring) : jstring :=
  repeat 48%N (4 - length numero) ++ numero.
End Spec.
Import Spec.

(* ===================================================================== *)
(** * Concrete environments and inputs                                    *)
(* ===================================================================== *)

Module Fixtures.

(** The first line of [ExampleData], with the degree sign U+00B0. *)
Definition example1 : jstring :=
  lit "SCHORBACH S C N" ++ [degree_sign] ++ lit " 0584".

Definition schorbach : ParsedParcel :=
  {| id := lit "p-0-0"; rawText := lit "SCHORBACH C 0584";
     communeName := lit "SCHORBACH"; inseeCode := None;
     section := lit "C"; numero := lit "0584";
     status := pending; geoJson := None; errorMessage := None |}.

Definition triangle : Ring := [(0, 0); (0, 1); (1, 1)]%R.

Definition one_parcel : GeoJson :=
  {| gtype := lit "FeatureCollection";
     features := Some [ {| geometry := Some (Polygon [triangle]) |} ];
     own_geometry := None |}.

Definition pass_through (s : jstring) : Result jstring := Val s.

(** A geocoder that knows no commune. *)
Definition no_commune : Env :=
  {| World := unit;
     fetch_in := fun _ w =>
       (Responded {| ok := true; json := Val (JCommunes []) |}, w);
     encodeURIComponent := pass_through;
     remote_extract := fun _ w => (Val [], w);
     Date_now := fun w => (0%N, w) |}.

(** A cadastre that stores section C of commune 57639 as 0C: the
    request for section C is answered 404, the one for 0C with the
    parcel. *)
Definition legacy_sections : Env :=
  {| World := unit;
     fetch_in := fun url w =>
       if jstring_eqb url (commune_url (lit "SCHORBACH")) then
         (Responded {| ok := true;
                       json := Val (JCommunes [ {| nom := lit "Schorbach";
                                                   code := lit "57639";
                                                   codesPostaux := [] |} ]) |}, w)
       else if jstring_eqb url (parcelle_url (lit "57639") (lit "0C") (lit "0584")) then
         (Responded {| ok := true; json := Val (JGeo one_parcel) |}, w)
       else
         (Responded {| ok := false; json := Throw {| message := lit "Unexpected token" |} |}, w);
     encodeURIComponent := pass_through;
     remote_extract := fun _ w => (Val [], w);
     Date_now := fun w => (0%N, w) |}.

(** A host that prints integers without separators. *)
Definition showRounded (r : Rounded) : jstring :=
  match r with
  | RInt n => if Z.ltb n 0 then lit "-" ++ ofN (Z.to_N (- n)) else ofN (Z.to_N n)
  | RNegZero => lit "-0"
  | RNaN => lit "NaN"
  | RInfinity s => if s then lit "-Infinity" else lit "Infinity"
  end.

Definition plain_numbers : NumberFormat :=
  {| numberToString := fun _ => lit "0";
     toLocaleString := showRounded |}.

(** A feature whose outer ring has two vertices only. *)
Definition two_points : GeoJson :=
  {| gtype := lit "Feature"; features := None;
     own_geometry := Some (Polygon [[(0, 0); (1, 1)]%R]) |}.

(** A feature whose polygon has an empty [coordinates] array. *)
Definition no_rings : GeoJson :=
  {| gtype := lit "Feature"; features := None;
     own_geometry := Some (Polygon []) |}.

(** The record of [schorbach] once resolved. *)
Definition schorbach_resolved : ParsedParcel :=
  {| id := lit "p-0-0"; rawText := lit "SCHORBACH C 0584";
     communeName := lit "SCHORBACH"; inseeCode := Some (lit "57639");
     section := lit "C"; numero := lit "0584";
     status := success; geoJson := Some one_parcel; errorMessage := None |}.

End Fixtures.
Import Fixtures.

(* ===================================================================== *)
(** * Auxiliary definitions                                               *)
(* ===================================================================== *)

(** Notions the proofs are stated with. *)
Module Aux.

(** The pair of vertices the [for] loop of [getRingArea] reads at index
    [i]. *)
Definition pair_at (coords : Ring) (i : nat) : Position * Position :=
  (nth i coords (0, 0)%R, nth ((i + 1) mod length coords) coords (0, 0)%R).

(** The number of whitespace characters a string starts with. *)
Fixpoint ws_prefix (s : jstring) : nat :=
  match s with
  | c :: s' => if isWhiteSpace c then S (ws_prefix s') else 0
  | [] => 0
  end.

(** The class of [whitespace_run]. *)
Definition ws_class : cclass := {| negated := false; items := [CSpace] |}.

(** An archive entry is named after an exportable record. *)
Definition named_after (parcels : list ParsedParcel) (entry : jstring * jstring) : Prop :=
  exists p, In p parcels /\ status p = success
            /\ fst entry = cleanName p ++ lit ".gpx".

(** What [getParcelGeometry] makes of the outcome of its retry request. *)
Definition retry_result (o : FetchOutcome) : Json :=
  match o with
  | Responded r =>
      if ok r then match json r with Val j => j | Throw _ => JNull end
      else JNull
  | Rejected _ => JNull
  end.

(** A record as [handleProcess] creates it. *)
Definition pristine (p : ParsedParcel) : Prop :=
  status p = pending /\ inseeCode p = None
  /\ geoJson p = None /\ errorMessage p = None.

(** The state after [setParcels v]. *)
Definition publish `{Env} (v : list ParsedParcel) (st : AppState) : AppState :=
  snd (setParcels v st).

(** Before turn [i] of the loop: the records before [i] are settled, the
    others are as created. *)
Definition loop_inv (i : nat) (l : list ParsedParcel) : Prop :=
  forall j q, l !! j = Some q -> if Nat.ltb j i then record_ok q else pristine q.

(** From [st] to [st'] the log of published lists only grows, and by
    lists whose records satisfy the invariant. *)
Definition publishes_ok `{Env} (st st' : AppState) : Prop :=
  exists new, published st' = published st ++ new
              /\ Forall (Forall record_ok) new.

End Aux.
Import Aux.

Module Notions.

(** Every ring of a feature list, in the order of the document: for each
    feature, for each polygon, the outer ring and then the holes. *)
Definition all_rings (fs : list Feature) : list Ring :=
  flat_map (fun f =>
              match geometry f with
              | Some (Polygon rings) => rings
              | Some (MultiPolygon polys) => concat polys
              | _ => []
              end) fs.

(** The sides of a ring as pairs of neighbours, and its closing pair. *)
Definition sides (ring : list LatLng) : list (LatLng * LatLng) :=
  combine ring (skipn 1 ring).

End Notions.
Import Notions.

Module RegexNotions.

(** What a successful match is known to have captured in a group that
    wraps a quantified class: the number of characters and their class. *)
Definition shape (ic : bool) (r : regex) (m : jstring) : Prop :=
  match r with
  | Rep cl lo hi _ =>
      lo <= length m
      /\ match hi with Some h => length m <= h | None => True end
      /\ Forall (fun ch => class_matches ic cl ch = true) m
  | _ => True
  end.

(** [cap_ok ic r j m]: [m] is a possible capture of group [j] of [r]. *)
Fixpoint cap_ok (ic : bool) (r : regex) (j : nat) (m : jstring) : Prop :=
  match r with
  | Seq r1 r2 | Alt r1 r2 => cap_ok ic r1 j m \/ cap_ok ic r2 j m
  | Opt r1 => cap_ok ic r1 j m
  | Group i r1 => (j = i /\ shape ic r1 m) \/ cap_ok ic r1 j m
  | _ => False
  end.

(** The groups every match of [r] goes through. *)
Fixpoint must (r : regex) : list nat :=
  match r with
  | Seq r1 r2 => must r1 ++ must r2
  | Group i r1 => i :: must r1
  | _ => []
  end.

End RegexNotions.
Import RegexNotions.

Module MoreFixtures.

(** An environment whose remote extractor is out of reach. *)
Definition extractor_down : Env :=
  {| World := unit;
     fetch_in := fun _ w =>
       (Responded {| ok := true; json := Val (JCommunes []) |}, w);
     encodeURIComponent := pass_through;
     remote_extract := fun _ w => (Throw {| message := lit "503" |}, w);
     Date_now := fun w => (0%N, w) |}.

(** A cadastre that answers OK with an empty feature collection. *)
Definition empty_collection : GeoJson :=
  {| gtype := lit "FeatureCollection"; features := Some []; own_geometry := None |}.

Definition unknown_parcel : Env :=
  {| World := unit;
     fetch_in := fun url w =>
       if jstring_eqb url (commune_url (lit "SCHORBACH")) then
         (Responded {| ok := true;
                       json := Val (JCommunes [ {| nom := lit "Schorbach";
                                                   code := lit "57639";
                                                   codesPostaux := [] |} ]) |}, w)
       else (Responded {| ok := true; json := Val (JGeo empty_collection) |}, w);
     encodeURIComponent := pass_through;
     remote_extract := fun _ w => (Val [], w);
     Date_now := fun w => (0%N, w) |}.

(** A map on which every two points are ten metres apart. *)
Definition ten_metres : MapWidget := {| distance := fun _ _ => 10%R |}.

End MoreFixtures.
Import MoreFixtures.

Module RunNotions.

(** The query a record was made from. *)
Definition queryOf (p : ParsedParcel) : ParcelQuery :=
  {| RegexService.communeName := Types.communeName p;
     RegexService.section := Types.section p;
     RegexService.numero := Types.numero p |}.

(** What stays of a record through a run. *)
Definition identity (p : ParsedParcel) : jstring * jstring * ParcelQuery :=
  (id p, rawText p, queryOf p).

(** A record at the end of its turn. *)
Definition settled (p : ParsedParcel) : Prop :=
  (status p = success /\ is_Some (inseeCode p) /\ is_Some (geoJson p)
   /\ errorMessage p = None)
  \/ (status p = error /\ errorMessage p = Some (lit "Commune not found")
      /\ inseeCode p = None /\ geoJson p = None)
  \/ (status p = error
      /\ errorMessage p = Some (lit "Parcel geometry not found in Cadastre")
      /\ is_Some (inseeCode p) /\ geoJson p = None).

(** Before turn [i]: the records before [i] are settled, the others are
    as created. *)
Definition settled_before (i : nat) (l : list ParsedParcel) : Prop :=
  forall j q, l !! j = Some q -> if Nat.ltb j i then settled q else pristine q.

(** A record the component still shows as loading. *)
Definition left_loading (q : ParsedParcel) : Prop :=
  status q = loading /\ inseeCode q = None
  /\ geoJson q = None /\ errorMessage q = None.

(** What the component holds of the working array before turn [i]:
    the records of the array, except that the record of the turn just
    ended may still be shown as loading. *)
Definition shown_before (i : nat) (up shown : list ParsedParcel) : Prop :=
  length shown = length up
  /\ forall j q, shown !! j = Some q ->
       up !! j = Some q \/ (S j = i /\ left_loading q).

End RunNotions.
Import RunNotions.

Module AreaNotions.
Local Open Scope R_scope.


End AreaNotions.
Import AreaNotions.

Module GpxNotions.
Section WithNumberFormat.
Context `{NumberFormat}.

(** One track segment: a point per vertex, in the order of the ring. *)
Definition track_segment (ring : Ring) : jstring :=
  lit "<trkseg>" ++ concat (map trkpt ring) ++ lit "</trkseg>".

(** The track of a feature list: one segment per ring, holes included. *)
Definition track (fs : list Feature) : jstring :=
  concat (map track_segment (all_rings fs)).

End WithNumberFormat.
End GpxNotions.
Import GpxNotions.

Module MapNotions.
Local Open Scope R_scope.

(** An edge datum that may be shown: longer than two metres, and owned
    by a record of the list that is visible and has geometry. *)
Definition edge_ok (parcels : list ParsedParcel) (visibleIds : list jstring)
    (e : Edge) : Prop :=
  edgeLength e > 2
  /\ exists p, In p parcels /\ parcelId e = id p
               /\ Set_has (id p) visibleIds = true
               /\ is_Some (geoJson p).

End MapNotions.
Import MapNotions.

Module ViewNotions.

(** No field of the record holds a line feed. *)
Definition single_line (p : ParsedParcel) : Prop :=
  ~ In 10%N (Types.communeName p) /\ ~ In 10%N (Types.section p)
  /\ ~ In 10%N (Types.numero p).

End ViewNotions.
Import ViewNotions.


(* ===================================================================== *)
(** * The deterministic extractor                                         *)
(* ===================================================================== *)

(** With the number marker the pattern really contains (N followed by
    U+C9F8), with the bare marker N, and without markers, the lazy commune
    capture leaves the markers out of the name. *)
Lemma parseParcelTextRegex_stored_marker :
  parseParcelTextRegex (lit "SCHORBACH S C N" ++ [marker_char] ++ lit " 0584")
  = [ {| RegexService.communeName := lit "SCHORBACH";
         RegexService.section := lit "C";
         RegexService.numero := lit "0584" |} ]
  /\ parseParcelTextRegex (lit "SCHORBACH S C N 0584")
     = [ {| RegexService.communeName := lit "SCHORBACH";
            RegexService.section := lit "C";
            RegexService.numero := lit "0584" |} ]
  /\ parseParcelTextRegex (lit "LENGELSHEIM B 45")
     = [ {| RegexService.communeName := lit "LENGELSHEIM";
            RegexService.section := lit "B";
            RegexService.numero := lit "45" |} ].
Proof. repeat split; vm_compute; reflexivity. Qed.

(** Had the marker been N followed by the degree sign, Pattern 1 would
    recognise the example line and give the expected triple. *)
Lemma pattern1_with_degree_sign :
  option_map to_query (jsmatch true (pattern1_with degree_sign) example1)
  = Some {| RegexService.communeName := lit "SCHORBACH";
            RegexService.section := lit "C";
            RegexService.numero := lit "0584" |}.
Proof. vm_compute. reflexivity. Qed.

(** C2.  On the line "SCHORBACH S C N(degree sign) 0584" the extractor
    yields no triple at all: the first number marker of Pattern A is
    stored as N followed by U+C9F8, so the degree sign U+00B0 is matched
    by neither pattern. *)
Theorem parseParcelTextRegex_example1 :
  example1 = lit "SCHORBACH S C N" ++ [176%N] ++ lit " 0584"
  /\ jsmatch true pattern1 example1 = None
  /\ jsmatch true pattern2 example1 = None
  /\ parseParcelTextRegex example1 = [].
Proof. repeat split; vm_compute; reflexivity. Qed.

(* ===================================================================== *)
(** * The area computation *)
(* ===================================================================== *)

Section AreaLemmas.
Local Open Scope R_scope.

Lemma fold_left_Rsum {A} (f : A -> R) (l : list A) (a0 : R) :
  fold_left (fun a x => a + f x) l a0 = a0 + Rsum (map f l).
Proof.
  revert a0. induction l as [|x l IH]; intros a0; simpl.
  - lra.
  - rewrite IH. lra.
Qed.

Lemma ring_step_pair_term coords area i :
  ring_step coords area i = area + pair_term (pair_at coords i).
Proof.
  unfold ring_step, pair_at, pair_term, radians.
  destruct (nth i coords (0, 0)) as [x1 y1].
  destruct (nth ((i + 1) mod length coords) coords (0, 0)) as [x2 y2].
  replace (y1 * PI / 180) with (y1 * (PI / 180)) by (unfold Rdiv; ring).
  replace (y2 * PI / 180) with (y2 * (PI / 180)) by (unfold Rdiv; ring).
  replace ((x2 - x1) * PI / 180) with ((x2 - x1) * (PI / 180)) by (unfold Rdiv; ring).
  reflexivity.
Qed.

Lemma consecutive_pairs_length (coords : Ring) :
  length (consecutive_pairs coords) = length coords.
Proof.
  unfold consecutive_pairs.
  rewrite length_combine, length_app, length_skipn, length_firstn.
  destruct coords as [|p coords]; [reflexivity | cbn [length]].
  unfold Position in *. lia.
Qed.

Lemma consecutive_pairs_nth (coords : Ring) (i : nat) :
  (i < length coords)%nat ->
  nth i (consecutive_pairs coords) ((0, 0), (0, 0)) = pair_at coords i.
Proof.
  intros Hi. unfold consecutive_pairs, pair_at.
  rewrite combine_nth.
  2:{ rewrite length_app, length_skipn, length_firstn.
      destruct coords as [|p coords]; cbn [length] in *; [lia|].
      unfold Position in *. lia. }
  f_equal.
  destruct (Nat.eq_dec (i + 1)%nat (length coords)) as [E|E].
  - rewrite E, Nat.Div0.mod_same.
    rewrite app_nth2 by (rewrite length_skipn; lia).
    rewrite length_skipn.
    replace (i - (length coords - 1))%nat with 0%nat by lia.
    destruct coords; simpl in *; [lia | reflexivity].
  - rewrite Nat.mod_small by lia.
    rewrite app_nth1 by (rewrite length_skipn; lia).
    rewrite nth_skipn. f_equal. lia.
Qed.

Lemma ring_loop_sum (coords : Ring) :
  fold_left (ring_step coords) (seq 0 (length coords)) 0
  = Rsum (map pair_term (consecutive_pairs coords)).
Proof.
  transitivity (fold_left (fun a i => a + pair_term (pair_at coords i))
                          (seq 0 (length coords)) 0).
  - generalize (seq 0 (length coords)) 0.
    intros l. induction l as [|i l IH]; intros a; simpl; [reflexivity|].
    now rewrite IH, ring_step_pair_term.
  - rewrite fold_left_Rsum, Rplus_0_l. f_equal.
    rewrite <- map_map.
    f_equal.
    apply (nth_ext _ _ ((0, 0), (0, 0)) ((0, 0), (0, 0))).
    + now rewrite length_map, length_seq, consecutive_pairs_length.
    + intros i Hi. rewrite length_map, length_seq in Hi.
      rewrite consecutive_pairs_nth by exact Hi.
      rewrite (nth_indep _ ((0, 0), (0, 0)) (pair_at coords 0%nat))
        by (rewrite length_map, length_seq; exact Hi).
      rewrite map_nth, seq_nth by exact Hi. reflexivity.
Qed.

Lemma short_ring_sum (coords : Ring) :
  (length coords < 3)%nat ->
  Rsum (map pair_term (consecutive_pairs coords)) = 0.
Proof.
  intros Hlen.
  destruct coords as [|[x1 y1] [|[x2 y2] [|? ?]]]; simpl in Hlen; try lia.
  - reflexivity.
  - cbn. unfold radians. lra.
  - cbn. unfold radians. set (a := sin _). set (b := sin _). 
    unfold Rdiv. ring.
Qed.

Lemma getRingArea_spec (coords : Ring) : getRingArea coords = ring_area coords.
Proof.
  unfold getRingArea, ring_area.
  destruct (Nat.ltb 2 (length coords)) eqn:E.
  - rewrite ring_loop_sum. unfold earthRadius.
    set (s := Rsum _).
    replace (s * 6378137 * 6378137 / 2) with (s * (6378137 ^ 2 / 2)) by (unfold Rdiv; ring).
    rewrite Rabs_mult. f_equal. apply Rabs_pos_eq. lra.
  - apply Nat.ltb_ge in E.
    rewrite short_ring_sum by lia. rewrite Rabs_R0. lra.
Qed.

Lemma ring_area_nonneg (ring : Ring) : 0 <= ring_area ring.
Proof.
  unfold ring_area. apply Rmult_le_pos; [apply Rabs_pos | lra].
Qed.

Lemma addOuterRing_spec (rings : list Ring) (totalArea : R) :
  rings <> [] ->
  addOuterRing rings totalArea
  = (Val tt, totalArea + ring_area (outer_ring rings)).
Proof.
  destruct rings as [|ring holes]; [congruence | intros _].
  unfold addOuterRing, bind, of_result, modify; simpl.
  now rewrite getRingArea_spec.
Qed.

Lemma forEach_addOuterRing (polys : list (list Ring)) (totalArea : R) :
  Forall (fun rings => rings <> []) polys ->
  forEach polys addOuterRing totalArea
  = (Val tt, totalArea
             + Rsum (map (fun rings => ring_area (outer_ring rings)) polys)).
Proof.
  intros Hne. revert totalArea.
  induction Hne as [|rings polys Hr _ IH]; intros totalArea; simpl.
  - unfold ret. f_equal. lra.
  - unfold bind. rewrite addOuterRing_spec by exact Hr.
    rewrite IH. f_equal. lra.
Qed.

Lemma areaOfFeature_spec (f : Feature) (totalArea : R) :
  Forall (fun rings => rings <> []) (polygons (geometry f)) ->
  areaOfFeature f totalArea
  = (Val tt, totalArea
             + Rsum (map (fun rings => ring_area (outer_ring rings))
                         (polygons (geometry f)))).
Proof.
  unfold areaOfFeature. destruct (geometry f) as [[rings|polys|]|]; simpl; intros Hne.
  - inversion_clear Hne as [|? ? Hr _].
    rewrite addOuterRing_spec by exact Hr. f_equal. lra.
  - now apply forEach_addOuterRing.
  - unfold ret. f_equal. lra.
  - unfold ret. f_equal. lra.
Qed.

Lemma Rsum_app (l1 l2 : list R) : Rsum (l1 ++ l2) = Rsum l1 + Rsum l2.
Proof.
  unfold Rsum. induction l1 as [|x l1 IH]; simpl; lra.
Qed.

Lemma Rsum_nonneg (l : list R) : Forall (fun x => 0 <= x) l -> 0 <= Rsum l.
Proof.
  unfold Rsum. induction 1 as [|x l Hx _ IH]; simpl; lra.
Qed.

Lemma forEach_areaOfFeature (fs : list Feature) (totalArea : R) :
  has_outer_rings fs ->
  forEach fs areaOfFeature totalArea = (Val tt, totalArea + collection_area fs).
Proof.
  unfold has_outer_rings, collection_area. revert totalArea.
  induction fs as [|f fs IH]; intros totalArea Hne; cbn [forEach flat_map].
  - unfold ret. f_equal. cbn. lra.
  - cbn [flat_map] in Hne. apply Forall_app in Hne as [Hf Hfs].
    unfold bind. rewrite areaOfFeature_spec by exact Hf.
    rewrite IH by exact Hfs. f_equal.
    rewrite map_app, Rsum_app. lra.
Qed.

Lemma calculateGeoJsonArea_collection (g : GeoJson) (fs : list Feature) :
  featuresOf g = Some fs ->
  has_outer_rings fs ->
  calculateGeoJsonArea (Some g) = Val (collection_area fs).
Proof.
  intros Hfs Hne. unfold calculateGeoJsonArea. rewrite Hfs.
  rewrite forEach_areaOfFeature by exact Hne.
  f_equal. lra.
Qed.

Lemma collection_area_nonneg (fs : list Feature) : 0 <= collection_area fs.
Proof.
  unfold collection_area.
  apply Rsum_nonneg.
  induction (flat_map (fun f => polygons (geometry f)) fs) as [|rings l IH];
    cbn [map]; constructor; [apply ring_area_nonneg | exact IH].
Qed.

Lemma collection_area_degenerate (fs : list Feature) :
  degenerate fs -> collection_area fs = 0.
Proof.
  unfold degenerate, collection_area.
  unfold Rsum. induction 1 as [|rings l Hr _ IH]; simpl; [reflexivity|].
  rewrite IH.
  unfold ring_area. rewrite short_ring_sum by exact Hr.
  rewrite Rabs_R0. lra.
Qed.

Lemma forEach_addOuterRing_throws (polys : list (list Ring)) (totalArea : R) :
  ~ Forall (fun rings => rings <> []) polys ->
  exists t, forEach polys addOuterRing totalArea = (Throw typeError, t).
Proof.
  revert totalArea. induction polys as [|rings polys IH]; intros totalArea Hn.
  - destruct Hn. constructor.
  - cbn [forEach]. unfold bind.
    destruct rings as [|ring holes].
    + eexists. reflexivity.
    + rewrite addOuterRing_spec by discriminate.
      apply IH. intros Hall. apply Hn. constructor; [discriminate | exact Hall].
Qed.

Lemma areaOfFeature_throws (f : Feature) (totalArea : R) :
  ~ Forall (fun rings => rings <> []) (polygons (geometry f)) ->
  exists t, areaOfFeature f totalArea = (Throw typeError, t).
Proof.
  unfold areaOfFeature. destruct (geometry f) as [[rings|polys|]|]; cbn [polygons]; intros Hn.
  - destruct rings as [|ring holes]; [eexists; reflexivity|].
    destruct Hn. constructor; [discriminate | constructor].
  - now apply forEach_addOuterRing_throws.
  - destruct Hn. constructor.
  - destruct Hn. constructor.
Qed.

Lemma outer_rings_dec (polys : list (list Ring)) :
  Forall (fun rings => rings <> []) polys \/ ~ Forall (fun rings => rings <> []) polys.
Proof.
  induction polys as [|rings polys [IH|IH]].
  - left. constructor.
  - destruct rings as [|ring holes].
    + right. intros Hall. inversion Hall as [|? ? Hr _]. now apply Hr.
    + left. constructor; [discriminate | exact IH].
  - right. intros Hall. inversion Hall. contradiction.
Qed.

Lemma forEach_areaOfFeature_throws (fs : list Feature) (totalArea : R) :
  ~ has_outer_rings fs ->
  exists t, forEach fs areaOfFeature totalArea = (Throw typeError, t).
Proof.
  unfold has_outer_rings. revert totalArea.
  induction fs as [|f fs IH]; intros totalArea Hn; cbn [flat_map] in Hn.
  - destruct Hn. constructor.
  - cbn [forEach]. unfold bind.
    destruct (outer_rings_dec (polygons (geometry f))) as [Hf|Hf].
    + rewrite areaOfFeature_spec by exact Hf.
      apply IH. intros Hall. apply Hn. apply Forall_app. now split.
    + destruct (areaOfFeature_throws f totalArea Hf) as (t & ->). eauto.
Qed.

Lemma calculateGeoJsonArea_throws (g : GeoJson) :
  (featuresOf g = None
   \/ exists fs, featuresOf g = Some fs /\ ~ has_outer_rings fs) ->
  calculateGeoJsonArea (Some g) = Throw typeError.
Proof.
  unfold calculateGeoJsonArea. intros [-> | (fs & -> & Hn)]; [reflexivity|].
  now destruct (forEach_areaOfFeature_throws fs 0 Hn) as (t & ->).
Qed.

End AreaLemmas.

(** C6.  The area computed for a ring is the absolute value of the sum,
    over the ring's consecutive vertex pairs (the last paired with the
    first), of (delta lng in radians) * (2 + sin lat1 + sin lat2),
    multiplied by R^2/2 with R = 6378137; the area of a GeoJSON object
    whose polygons each carry an outer ring is the sum of the outer-ring
    areas of its features' polygons, holes being ignored. *)
Theorem calculateGeoJsonArea_formula :
  (forall ring : Ring, getRingArea ring = ring_area ring)
  /\ (forall (g : GeoJson) (fs : list Feature),
        featuresOf g = Some fs ->
        has_outer_rings fs ->
        calculateGeoJsonArea (Some g) = Val (collection_area fs)).
Proof.
  split.
  - exact getRingArea_spec.
  - exact calculateGeoJsonArea_collection.
Qed.

Lemma calculateGeoJsonArea_formula_witness :
  calculateGeoJsonArea (Some one_parcel)
  = Val (collection_area [ {| geometry := Some (Polygon [triangle]) |} ]).
Proof.
  apply (proj2 calculateGeoJsonArea_formula).
  - reflexivity.
  - repeat constructor. discriminate.
Defined.

(** C10, counterexample.  The area function is not total: on a feature
    whose polygon has no ring at all, reading the outer ring's length
    throws. *)
Lemma calculateGeoJsonArea_no_rings :
  calculateGeoJsonArea (Some no_rings) = Throw typeError.
Proof. reflexivity. Qed.

(** C10, amended.  A ring with fewer than three vertices contributes
    exactly 0 and a feature without geometry leaves the running total
    unchanged; so the area is 0, a finite non-negative number, for a
    missing GeoJSON value and for every Feature or FeatureCollection with
    a [features] array whose polygons each carry an outer ring, all of
    fewer than three vertices.  The function is not total: it throws on
    a FeatureCollection without a [features] array and as soon as a
    polygon has no ring at all. *)
Theorem calculateGeoJsonArea_degenerate :
  (forall ring : Ring, (length ring < 3)%nat -> getRingArea ring = 0%R)
  /\ (forall (f : Feature) (totalArea : R),
        geometry f = None -> areaOfFeature f totalArea = (Val tt, totalArea))
  /\ calculateGeoJsonArea None = Val 0%R
  /\ (forall (g : GeoJson) (fs : list Feature),
        featuresOf g = Some fs ->
        has_outer_rings fs ->
        degenerate fs ->
        calculateGeoJsonArea (Some g) = Val 0%R)
  /\ (forall g : GeoJson,
        featuresOf g = None
        \/ (exists fs, featuresOf g = Some fs /\ ~ has_outer_rings fs) ->
        calculateGeoJsonArea (Some g) = Throw typeError).
Proof.
  repeat split.
  - intros ring Hlen. unfold getRingArea.
    replace (Nat.ltb 2 (length ring)) with false
      by (symmetry; apply Nat.ltb_ge; lia).
    apply Rabs_R0.
  - intros f totalArea Hg. unfold areaOfFeature. now rewrite Hg.
  - intros g fs Hfs Hne Hdeg.
    rewrite (calculateGeoJsonArea_collection g fs Hfs Hne).
    f_equal. now apply collection_area_degenerate.
  - apply calculateGeoJsonArea_throws.
Qed.

Lemma calculateGeoJsonArea_degenerate_witness :
  calculateGeoJsonArea (Some two_points) = Val 0%R.
Proof.
  apply (proj1 (proj2 (proj2 (proj2 calculateGeoJsonArea_degenerate)))
           two_points [ {| geometry := Some (Polygon [[(0, 0); (1, 1)]%R]) |} ]).
  - reflexivity.
  - repeat constructor. discriminate.
  - repeat constructor.
Defined.

(* ===================================================================== *)
(** * The export file name *)
(* ===================================================================== *)

Section ReplaceLemmas.

(** Decide every comparison of the goal that [lia] can decide. *)
Ltac decide_leb :=
  repeat match goal with
  | |- context [N.leb ?a ?b] =>
      first [ replace (N.leb a b) with true by (symmetry; apply N.leb_le; lia)
            | replace (N.leb a b) with false by (symmetry; apply N.leb_gt; lia) ]
  | |- context [N.eqb ?a ?b] =>
      first [ replace (N.eqb a b) with true by (symmetry; apply N.eqb_eq; lia)
            | replace (N.eqb a b) with false by (symmetry; apply N.eqb_neq; lia) ]
  end.

Lemma unsafe_char_class (c : jchar) :
  class_matches true
    {| negated := true;
       items := [CRange 97 122; CRange 48 57; CChar 95; CChar 45; CChar 46] |} c
  = negb (file_name_char c).
Proof.
  unfold class_matches, item_matches, item_has, file_name_char,
    isLower, isUpper, isDigit, upper, lower, isLower, isUpper, in_range;
    cbn [negated items existsb].
  assert (c < 45 \/ c = 45 \/ c = 46 \/ c = 47 \/ (48 <= c <= 57) \/ (58 <= c <= 64)
          \/ (65 <= c <= 90) \/ (91 <= c <= 94) \/ c = 95 \/ c = 96
          \/ (97 <= c <= 122) \/ 122 < c)%N as Hc by lia.
  repeat (destruct Hc as [Hc|Hc]);
    decide_leb; cbn [andb orb negb xorb]; decide_leb; reflexivity.
Qed.

Lemma replace_unsafe (s : jstring) (pos : nat) :
  replace_from true unsafe_char [] 0 pos s = strip_unsafe s.
Proof.
  revert pos. induction s as [|ch s IH]; intros pos.
  - reflexivity.
  - cbn [replace_from match_here unsafe_char run].
    rewrite unsafe_char_class. unfold strip_unsafe. cbn [List.filter].
    destruct (file_name_char ch); cbn [negb accept].
    + now rewrite IH.
    + replace (S pos - pos) with 1 by lia. cbn [app]. apply IH.
Qed.

Lemma ws_class_matches (c : jchar) : class_matches false ws_class c = isWhiteSpace c.
Proof.
  unfold class_matches, ws_class; cbn. now rewrite orb_false_r.
Qed.

Lemma rep_whitespace_greedy (s : jstring) (pos : nat) :
  exists rest,
    rep false ws_class true accept 0 None pos s []
    = Some (pos + ws_prefix s, rest, []).
Proof.
  revert pos. induction s as [|ch s IH]; intros pos.
  - exists []. cbn. now rewrite Nat.add_0_r.
  - cbn [rep ws_prefix hi_allows andb option_map pred].
    rewrite ws_class_matches. destruct (isWhiteSpace ch).
    + destruct (IH (S pos)) as [rest E]. rewrite E. exists rest. cbn.
      do 3 f_equal. lia.
    + exists (ch :: s). cbn. now rewrite Nat.add_0_r.
Qed.

Lemma match_whitespace_run (s : jstring) (pos : nat) :
  match s with
  | ch :: s' =>
      if isWhiteSpace ch
      then exists rest, match_here false whitespace_run pos s
                        = Some (S pos + ws_prefix s', rest, [])
      else match_here false whitespace_run pos s = None
  | [] => match_here false whitespace_run pos s = None
  end.
Proof.
  destruct s as [|ch s']; [reflexivity|].
  unfold match_here, whitespace_run. fold ws_class.
  cbn [run rep hi_allows andb option_map pred].
  rewrite ws_class_matches. destruct (isWhiteSpace ch); [|reflexivity].
  apply rep_whitespace_greedy.
Qed.

Lemma replace_whitespace (s : jstring) :
  (forall pos, replace_from false whitespace_run (lit "_") 0 pos s
               = collapse_whitespace false s)
  /\ (forall pos, replace_from false whitespace_run (lit "_") (ws_prefix s) pos s
                  = collapse_whitespace true s).
Proof.
  induction s as [|ch s [IH0 IHrun]].
  - split; reflexivity.
  - assert (forall pos, replace_from false whitespace_run (lit "_") 0 pos (ch :: s)
                        = collapse_whitespace false (ch :: s)) as H0.
    { intros pos. pose proof (match_whitespace_run (ch :: s) pos) as Hm.
      cbn [replace_from collapse_whitespace]. cbv beta iota in Hm.
      destruct (isWhiteSpace ch).
      - destruct Hm as [rest ->].
        replace (S pos + ws_prefix s - pos) with (S (ws_prefix s)) by lia.
        cbn [lit app]. change (lit "_" ++ ?x) with (95%N :: x).
        f_equal. apply IHrun.
      - rewrite Hm. f_equal. apply IH0. }
    split; [exact H0|].
    intros pos. cbn [ws_prefix collapse_whitespace].
    destruct (isWhiteSpace ch) eqn:E.
    + cbn [replace_from]. apply IHrun.
    + rewrite H0. cbn [collapse_whitespace]. now rewrite E.
Qed.

Lemma cleanName_sanitize (p : ParsedParcel) :
  cleanName p
  = sanitize (Types.communeName p ++ lit "-" ++ Types.section p
                ++ lit "-" ++ Types.numero p).
Proof.
  unfold cleanName, sanitize, replaceAll.
  rewrite replace_unsafe. f_equal. apply replace_whitespace.
Qed.

Lemma strip_unsafe_chars (s : jstring) :
  Forall (fun c => file_name_char c = true) (strip_unsafe s).
Proof.
  unfold strip_unsafe. induction s as [|c s IH]; cbn [List.filter].
  - constructor.
  - destruct (file_name_char c) eqn:E; [constructor|]; assumption.
Qed.

Context `{NumberFormat}.

Lemma createGpxContent_name (p : ParsedParcel) (g : GeoJson) (doc : jstring) :
  geoJson p = Some g ->
  createGpxContent p = Val doc ->
  exists segments, doc = gpxDocument (gpxName p) segments.
Proof.
  unfold createGpxContent. intros ->.
  destruct (featuresOf g) as [fs|]; [|discriminate].
  destruct (forEach fs segmentsOfFeature []) as [[[]|e] segments]; [|discriminate].
  intros [= <-]. now exists segments.
Qed.

Lemma zip_file_named parcels name content zip :
  named_after parcels (name, content) ->
  Forall (named_after parcels) zip ->
  Forall (named_after parcels) (zip_file name content zip).
Proof.
  intros Hnew. induction 1 as [|[n c] zip Hn Hzip IH]; cbn [zip_file].
  - repeat constructor. exact Hnew.
  - destruct (jstring_eqb n name); constructor; assumption.
Qed.

Lemma forEach_zip_named parcels (l : list ParsedParcel) zip r zip' :
  (forall p, In p l -> In p parcels /\ status p = success) ->
  Forall (named_after parcels) zip ->
  forEach l
    (fun p => bind (of_result (createGpxContent p))
                (fun gpxContent => modify (zip_file (cleanName p ++ lit ".gpx") gpxContent)))
    zip = (r, zip') ->
  Forall (named_after parcels) zip'.
Proof.
  revert zip. induction l as [|p l IH]; intros zip Hl Hzip; cbn [forEach].
  - unfold ret. now intros [= _ <-].
  - unfold bind at 1. unfold bind at 1. unfold of_result, modify.
    destruct (createGpxContent p) as [content|e].
    + apply IH.
      * intros q Hq. apply Hl. now right.
      * apply zip_file_named; [|exact Hzip].
        destruct (Hl p (or_introl eq_refl)) as [Hin Hs].
        exists p. now repeat split.
    + now intros [= _ <-].
Qed.

Lemma exportable_success (p : ParsedParcel) :
  exportable p = true -> status p = success.
Proof.
  unfold exportable. intros Hp. apply andb_prop in Hp as [Hs _].
  now destruct (status p).
Qed.

Lemma handleExportGPX_names (parcels : list ParsedParcel) files :
  handleExportGPX parcels = Val (Archive files) ->
  Forall (named_after parcels) files.
Proof.
  unfold handleExportGPX.
  destruct (Nat.eqb _ 0); [discriminate|].
  destruct (forEach _ _ []) as [[[]|e] zip] eqn:E; [|discriminate].
  intros [= <-].
  eapply forEach_zip_named; [| |exact E].
  - intros p Hp. apply filter_In in Hp as [Hin Hp].
    split; [exact Hin | now apply exportable_success].
  - constructor.
Qed.

End ReplaceLemmas.

(** C7, counterexample.  The file name of the record SCHORBACH / C / 0584
    is not the sanitised metadata name: the metadata name joins the fields
    with spaces, the file name joins them with hyphens. *)
Lemma cleanName_not_from_gpxName :
  gpxName schorbach = lit "SCHORBACH C 0584"
  /\ sanitize (gpxName schorbach) = lit "SCHORBACH_C_0584"
  /\ cleanName schorbach = lit "SCHORBACH-C-0584"
  /\ cleanName schorbach <> sanitize (gpxName schorbach).
Proof.
  repeat split; try (vm_compute; reflexivity).
  vm_compute. discriminate.
Qed.

(** C7, amended.  For every record, the file name is derived from the
    fields joined with hyphens: runs of whitespace become one underscore,
    then every character outside [a-zA-Z0-9_.-] is removed; the document's
    metadata name is the fields joined with spaces; and every entry of an
    exported archive is named this way after a successful record, with the
    suffix .gpx. *)
Theorem export_file_name :
  forall `{NumberFormat} (parcels : list ParsedParcel),
    (forall p : ParsedParcel,
        cleanName p
        = sanitize (Types.communeName p ++ lit "-" ++ Types.section p
                      ++ lit "-" ++ Types.numero p)
        /\ Forall (fun c => file_name_char c = true) (cleanName p))
    /\ (forall (p : ParsedParcel) (g : GeoJson) (doc : jstring),
          geoJson p = Some g ->
          createGpxContent p = Val doc ->
          exists segments,
            doc = gpxDocument (Types.communeName p ++ lit " " ++ Types.section p
                                 ++ lit " " ++ Types.numero p) segments)
    /\ (forall files,
          handleExportGPX parcels = Val (Archive files) ->
          Forall (fun entry =>
                    exists p, In p parcels /\ status p = success
                      /\ fst entry
                         = sanitize (Types.communeName p ++ lit "-" ++ Types.section p
                                       ++ lit "-" ++ Types.numero p) ++ lit ".gpx")
                 files).
Proof.
  intros F parcels. split; [|split].
  - intros p. split.
    + apply cleanName_sanitize.
    + rewrite cleanName_sanitize. apply strip_unsafe_chars.
  - intros p g doc. apply createGpxContent_name.
  - intros files Hx. apply handleExportGPX_names in Hx.
    induction Hx as [|entry files (p & Hp & Hs & Hf) _ IH]; constructor; [|exact IH].
    exists p. now rewrite <- cleanName_sanitize.
Qed.

Lemma export_file_name_witness :
  exists segments,
    gpxDocument (lit "SCHORBACH C 0584")
      (lit "<trkseg>" ++ fold_left (fun pts coord => pts ++ @trkpt plain_numbers coord) triangle []
         ++ lit "</trkseg>")
    = gpxDocument (lit "SCHORBACH" ++ lit " " ++ lit "C" ++ lit " " ++ lit "0584") segments.
Proof.
  apply (proj1 (proj2 (@export_file_name plain_numbers [])) schorbach_resolved one_parcel).
  - reflexivity.
  - reflexivity.
Defined.

(* ===================================================================== *)
(** * The display of an area *)
(* ===================================================================== *)

Section FloatLemmas.

Lemma positive_shape (c a : float) (mc : positive) (ec : Z) :
  Prim2SF c = S754_zero false \/ Prim2SF c = S754_finite false mc ec ->
  (c <? a)%float = true ->
  (exists m e, Prim2SF a = S754_finite false m e) \/ Prim2SF a = S754_infinity false.
Proof.
  intros Hc. rewrite ltb_spec. unfold SFltb, SFcompare.
  destruct Hc as [-> | ->]; destruct (Prim2SF a) as [s|s| |s m e];
    try discriminate; destruct s; try discriminate; eauto.
Qed.

Lemma SFcompare_antisym (m1 m2 : positive) (e1 e2 : Z) :
  SFcompare (S754_finite false m2 e2) (S754_finite false m1 e1)
  = option_map CompOpp (SFcompare (S754_finite false m1 e1) (S754_finite false m2 e2)).
Proof.
  cbn [SFcompare option_map]. f_equal.
  rewrite (Z.compare_antisym e1 e2).
  destruct (e1 ?= e2)%Z; cbn [CompOpp]; try reflexivity.
  now rewrite (Pos.compare_cont_antisym m1 m2 Eq).
Qed.

Lemma at_most_not_above (c a : float) (mc : positive) (ec : Z) :
  Prim2SF c = S754_finite false mc ec ->
  (0 <? a)%float = true ->
  (a <=? c)%float = true ->
  (c <? a)%float = false
  /\ exists m e, Prim2SF a = S754_finite false m e.
Proof.
  intros Hc Hpos Hle.
  destruct (positive_shape 0 a 1 0 (or_introl eq_refl) Hpos) as [(m & e & Ha)|Ha];
    rewrite leb_spec, Ha, Hc in Hle; rewrite ltb_spec, Ha, Hc.
  - split; [|eauto]. unfold SFltb. rewrite SFcompare_antisym.
    unfold SFleb in Hle.
    destruct (SFcompare (S754_finite false m e) (S754_finite false mc ec)) as [[]|];
      cbn; congruence.
  - discriminate Hle.
Qed.

Lemma not_zero (a : float) : (0 <? a)%float = true -> (a =? 0)%float = false.
Proof.
  intros Hpos. rewrite eqb_spec.
  destruct (positive_shape 0 a 1 0 (or_introl eq_refl) Hpos) as [(m & e & ->)| ->];
    reflexivity.
Qed.

Lemma SFdiv_sign (x : spec_float) (my : positive) (ey : Z) :
  (exists m e, x = S754_finite false m e) \/ x = S754_infinity false ->
  let q := SF64div x (S754_finite false my ey) in
  q = S754_nan \/ q = S754_zero false \/ q = S754_infinity false
  \/ exists m e, q = S754_finite false m e.
Proof.
  intros [(m & e & ->)| ->]; cbn zeta; unfold SF64div, SFdiv; [|auto].
  destruct (SFdiv_core_binary prec emax (Z.pos m) e (Z.pos my) ey) as [[mz ez] lz].
  unfold binary_round_aux. cbn [xorb].
  destruct (shr_fexp prec emax mz ez lz) as [mrs' e'].
  destruct (shr_fexp prec emax _ e' loc_Exact) as [mrs'' e''].
  destruct (shr_m mrs''); [auto | | auto].
  destruct (e'' <=? emax - prec)%Z; eauto 6.
Qed.

Lemma quotient_shape (a c d : float) (mc : positive) (ec : Z) (md : positive) (ed : Z) :
  Prim2SF c = S754_finite false mc ec ->
  Prim2SF d = S754_finite false md ed ->
  (c <? a)%float = true ->
  (a / c <? d)%float = true ->
  Prim2SF (a / c) = S754_zero false
  \/ exists m e, Prim2SF (a / c) = S754_finite false m e.
Proof.
  intros Hc Hd Hgt Hlt.
  pose proof (positive_shape c a mc ec (or_intror Hc) Hgt) as Ha.
  pose proof (SFdiv_sign (Prim2SF a) mc ec Ha) as Hq. cbn zeta in Hq.
  rewrite <- Hc, <- div_spec in Hq.
  rewrite ltb_spec, Hd in Hlt.
  destruct Hq as [Hq|[Hq|[Hq|Hq]]]; auto; rewrite Hq in Hlt; discriminate Hlt.
Qed.

End FloatLemmas.

Section NearestLemmas.
Local Open Scope R_scope.

Lemma powerRZ_2_nonneg (e : Z) : (0 <= e)%Z -> powerRZ 2 e = IZR (2 ^ e).
Proof.
  intros He. rewrite <- (Z2Nat.id e He), <- pow_powerRZ, pow_IZR. reflexivity.
Qed.

Lemma powerRZ_2_neg (e : Z) : (e < 0)%Z -> powerRZ 2 e = / IZR (2 ^ (- e)).
Proof.
  intros He. replace e with (- (- e))%Z at 1 by lia.
  rewrite powerRZ_neg'. f_equal. apply powerRZ_2_nonneg. lia.
Qed.

Lemma nearest_spec (m e : Z) (f : nat) :
  let v := IZR m * powerRZ 2 e in
  IZR (nearest m e f) <= v * 10 ^ f + / 2 < IZR (nearest m e f) + 1.
Proof.
  cbn zeta. unfold nearest.
  assert (10 ^ f = IZR (10 ^ Z.of_nat f)) as H10 by (now rewrite <- pow_IZR).
  destruct (Z.leb_spec 0 e) as [He|He].
  - rewrite powerRZ_2_nonneg by exact He.
    rewrite !mult_IZR, H10. lra.
  - rewrite powerRZ_2_neg by exact He.
    set (k := (- e)%Z). replace (1 - e)%Z with (k + 1)%Z by lia.
    assert (0 < k)%Z as Hk by lia.
    set (scaled := (m * 10 ^ Z.of_nat f)%Z).
    set (N := (2 * scaled + 2 ^ k)%Z).
    assert (0 < 2 ^ k)%Z as Hpk by (apply Z.pow_pos_nonneg; lia).
    assert (2 ^ (k + 1) = 2 * 2 ^ k)%Z as HD by (rewrite Z.pow_add_r by lia; lia).
    pose proof (Z.div_mod N (2 ^ (k + 1)) ltac:(lia)) as Hdm.
    pose proof (Z.mod_pos_bound N (2 ^ (k + 1)) ltac:(lia)) as Hr.
    set (n := (N / 2 ^ (k + 1))%Z) in *. set (r := (N mod 2 ^ (k + 1))%Z) in *.
    assert (IZR m * / IZR (2 ^ k) * 10 ^ f + / 2 = IZR N / IZR (2 ^ (k + 1))) as ->.
    { unfold N, scaled. rewrite HD, plus_IZR, !mult_IZR, H10.
      assert (0 < IZR (2 ^ k)) by (now apply IZR_lt). field. lra. }
    assert (0 < IZR (2 ^ (k + 1))) as HDpos by (apply IZR_lt; lia).
    rewrite Hdm, plus_IZR, mult_IZR.
    assert (0 <= IZR r < IZR (2 ^ (k + 1))) as Hr'
      by (split; [apply IZR_le | apply IZR_lt]; lia).
    split.
    + apply Rmult_le_reg_r with (IZR (2 ^ (k + 1))); [exact HDpos|].
      unfold Rdiv. rewrite Rmult_assoc, Rinv_l by lra. lra.
    + apply Rmult_lt_reg_r with (IZR (2 ^ (k + 1))); [exact HDpos|].
      unfold Rdiv. rewrite Rmult_assoc, Rinv_l by lra. lra.
Qed.

Lemma nearest_nonneg (m : positive) (e : Z) (f : nat) : (0 <= nearest (Zpos m) e f)%Z.
Proof.
  unfold nearest. destruct (Z.leb_spec 0 e) as [He|He].
  - apply Z.mul_nonneg_nonneg; [|apply Z.pow_nonneg; lia].
    apply Z.mul_nonneg_nonneg; [lia | apply Z.pow_nonneg; lia].
  - apply Z.div_pos.
    + assert (0 <= 10 ^ Z.of_nat f)%Z by (apply Z.pow_nonneg; lia).
      assert (0 <= 2 ^ (- e))%Z by (apply Z.pow_nonneg; lia).
      assert (0 <= Z.pos m * 10 ^ Z.of_nat f)%Z
        by (apply Z.mul_nonneg_nonneg; lia).
      lia.
    + apply Z.pow_pos_nonneg; lia.
Qed.

End NearestLemmas.

Section FormatLemmas.
Context `{NumberFormat}.
Local Open Scope R_scope.

Lemma formatArea_zero : formatArea 0 = [].
Proof. reflexivity. Qed.

Lemma formatArea_square_metres (a : float) :
  (0 <? a)%float = true -> (a <=? 10000)%float = true ->
  exists m e,
    Prim2SF a = S754_finite false m e
    /\ formatArea a
       = toLocaleString (RInt (nearest (Zpos m) e 0)) ++ [32%N; 109%N; 178%N].
Proof.
  intros Hpos Hle. unfold formatArea.
  rewrite (not_zero a Hpos).
  destruct (at_most_not_above 10000 a 5497558138880000 (-39) eq_refl Hpos Hle)
    as (Hgt & m & e & Ha).
  rewrite Hgt. exists m, e. split; [exact Ha|].
  unfold Math_round. rewrite Ha. reflexivity.
Qed.

Lemma formatArea_hectares (a : float) :
  (10000 <? a)%float = true ->
  formatArea a = toFixed 4 (a / 10000)%float ++ lit " ha".
Proof.
  intros Hgt. unfold formatArea. rewrite Hgt.
  destruct (positive_shape 10000 a 5497558138880000 (-39) (or_intror eq_refl) Hgt)
    as [(m & e & Ha)|Ha]; rewrite eqb_spec, Ha; reflexivity.
Qed.

Lemma digits_of_uint (d : Decimal.uint) :
  Forall (fun c => isDigit c = true) (lit (NilEmpty.string_of_uint d)).
Proof.
  induction d; cbn; constructor; (reflexivity || assumption).
Qed.

Lemma digits_ofN (n : N) : Forall (fun c => isDigit c = true) (ofN n).
Proof.
  unfold ofN, NilZero.string_of_uint.
  destruct (N.to_uint n) eqn:E; try apply digits_of_uint.
  repeat constructor.
Qed.

Lemma padStart_length (n : nat) (fill : jchar) (s : jstring) :
  (n <= length (padStart n fill s))%nat.
Proof.
  unfold padStart. rewrite length_app, repeat_length. lia.
Qed.

Lemma digits_padStart (n : nat) (s : jstring) :
  Forall (fun c => isDigit c = true) s ->
  Forall (fun c => isDigit c = true) (padStart n 48 s).
Proof.
  intros Hs. unfold padStart. apply Forall_app. split; [|exact Hs].
  induction (n - length s)%nat; cbn; constructor; (reflexivity || assumption).
Qed.

Lemma fixedDigits_places (n : Z) :
  exists ip fp,
    fixedDigits 4 n = ip ++ lit "." ++ fp
    /\ length fp = 4%nat
    /\ ip <> []
    /\ Forall (fun c => isDigit c = true) (ip ++ fp)
    /\ ip ++ fp = padStart 5 48 (ofN (Z.to_N n)).
Proof.
  unfold fixedDigits.
  set (m := padStart (4 + 1) 48 (ofN (Z.to_N n))).
  pose proof (padStart_length (4 + 1) 48 (ofN (Z.to_N n))) as Hm.
  fold m in Hm. cbn [Nat.add] in Hm.
  exists (firstn (length m - 4) m), (skipn (length m - 4) m).
  repeat split.
  - rewrite length_skipn. lia.
  - intros E. apply (f_equal (@length _)) in E.
    rewrite length_firstn in E. cbn [length] in E. lia.
  - rewrite firstn_skipn. apply digits_padStart, digits_ofN.
  - now rewrite firstn_skipn.
Qed.

Lemma toFixed_below (f : nat) (q d : float) :
  Prim2SF d = Prim2SF 1e21%float ->
  (q <? d)%float = true ->
  Prim2SF q = S754_zero false \/ (exists m e, Prim2SF q = S754_finite false m e) ->
  exists n : Z,
    toFixed f q = fixedDigits f n
    /\ (0 <= n)%Z
    /\ IZR n <= valueOf q * 10 ^ f + / 2 < IZR n + 1.
Proof.
  intros Hd Hlt [Hq|(m & e & Hq)].
  - exists 0%Z. unfold toFixed, valueOf. rewrite Hq.
    split; [reflexivity|]. split; [lia|]. lra.
  - exists (nearest (Zpos m) e f). unfold toFixed, valueOf. rewrite Hq.
    assert ((abs q <? 1e21)%float = true) as ->.
    { rewrite ltb_spec, abs_spec, Hq. cbn [SFabs].
      rewrite ltb_spec, Hq, Hd in Hlt. exact Hlt. }
    split; [reflexivity|]. split; [apply nearest_nonneg|].
    apply (nearest_spec (Zpos m) e f).
Qed.

End FormatLemmas.

(** C8, counterexample.  The area 0 is non-negative and at most 10,000,
    yet it is rendered as the empty string, not as square metres; and the
    area +Infinity, which is above 10,000, is rendered without any
    decimal place. *)
Lemma formatArea_zero_is_empty :
  (0 <=? 0)%float = true /\ (0 <=? 10000)%float = true
  /\ @formatArea plain_numbers 0 = []
  /\ @formatArea plain_numbers 0
     <> @toLocaleString plain_numbers (Math_round 0) ++ [32%N; 109%N; 178%N]
  /\ (10000 <? infinity)%float = true
  /\ @formatArea plain_numbers infinity = lit "Infinity ha".
Proof. repeat split. discriminate. Qed.

(** The quotient shown in hectares is the one computed on doubles:
    10010.5 / 10000 falls just below 1.00105 and is shown as 1.0010; the
    square metres are rounded half up. *)
Lemma formatArea_double_quotient :
  @formatArea plain_numbers 10010.5 = lit "1.0010 ha"
  /\ @formatArea plain_numbers 5000.5 = lit "5001 m" ++ [178%N]
  /\ @formatArea plain_numbers 10000 = lit "10000 m" ++ [178%N].
Proof. vm_compute. repeat split. Qed.

(** C8, amended.  The area 0 renders as the empty string.  Every positive
    area of at most 10,000 square metres renders as the nearest integer,
    the larger one at a tie, formatted by the locale and followed by the
    square-metre unit.  Every area above 10,000 renders as [toFixed(4)] of
    its quotient by 10,000, computed on doubles, followed by the hectare
    unit; when that quotient is below 10^21 the number shown has exactly
    four digits after the decimal point, and its digits are those of the
    integer nearest to 10^4 times the quotient. *)
Theorem formatArea_display :
  forall `{NumberFormat},
    formatArea 0 = []
    /\ forall a : float, (0 <? a)%float = true ->
         ((a <=? 10000)%float = true ->
            exists n : Z,
              formatArea a = toLocaleString (RInt n) ++ [32%N; 109%N; 178%N]
              /\ (IZR n <= valueOf a + / 2 < IZR n + 1)%R)
         /\ ((10000 <? a)%float = true ->
            formatArea a = toFixed 4 (a / 10000)%float ++ lit " ha"
            /\ ((a / 10000 <? 1e21)%float = true ->
                exists (ip fp : jstring) (n : Z),
                  toFixed 4 (a / 10000)%float = ip ++ lit "." ++ fp
                  /\ length fp = 4%nat
                  /\ ip <> []
                  /\ Forall (fun c => isDigit c = true) (ip ++ fp)
                  /\ ip ++ fp = padStart 5 48 (ofN (Z.to_N n))
                  /\ (0 <= n)%Z
                  /\ (IZR n <= valueOf (a / 10000)%float * 10 ^ 4 + / 2
                      < IZR n + 1)%R)).
Proof.
  intros F. split; [apply formatArea_zero|].
  intros a Hpos. split.
  - intros Hle.
    destruct (formatArea_square_metres a Hpos Hle) as (m & e & Ha & Hfmt).
    exists (nearest (Zpos m) e 0). split; [exact Hfmt|].
    pose proof (nearest_spec (Zpos m) e 0) as Hn. cbn zeta in Hn.
    unfold valueOf. rewrite Ha. cbn [mantissa]. lra.
  - intros Hgt. split; [now apply formatArea_hectares|].
    intros Hlt.
    destruct (toFixed_below 4 (a / 10000)%float 1e21%float eq_refl Hlt)
      as (n & Hfix & Hn0 & Hn).
    { eapply (quotient_shape a 10000 1e21);
        [reflexivity | reflexivity | exact Hgt | exact Hlt]. }
    destruct (fixedDigits_places n) as (ip & fp & Hshape & Hlen & Hip & Hdig & Hpad).
    exists ip, fp, n. rewrite Hfix. repeat split; assumption || apply Hn.
Qed.

Lemma formatArea_display_witness :
  exists (ip fp : jstring) (n : Z),
    @toFixed plain_numbers 4 (10010.5 / 10000)%float = ip ++ lit "." ++ fp
    /\ length fp = 4%nat
    /\ ip <> []
    /\ Forall (fun c => isDigit c = true) (ip ++ fp)
    /\ ip ++ fp = padStart 5 48 (ofN (Z.to_N n))
    /\ (0 <= n)%Z
    /\ (IZR n <= valueOf (10010.5 / 10000)%float * 10 ^ 4 + / 2 < IZR n + 1)%R.
Proof.
  apply (proj2 (proj2 (proj2 (@formatArea_display plain_numbers) 10010.5%float eq_refl)
                 eq_refl)).
  reflexivity.
Defined.

(* ===================================================================== *)
(** * The two lookups *)
(* ===================================================================== *)

Section ServiceLemmas.
Context `{Env}.

Lemma try_catch_returns {S A} (m : M S A) (a0 : A) (s : S) :
  exists a s', try_catch m (fun _ => ret a0) s = (Val a, s').
Proof.
  unfold try_catch, ret. destruct (m s) as [[a|e] s']; eauto.
Qed.

Lemma try_catch_throw {S A} (m : M S A) (a0 : A) (s s' : S) (e : JsError) :
  m s = (Throw e, s') -> try_catch m (fun _ => ret a0) s = (Val a0, s').
Proof. unfold try_catch, ret. now intros ->. Qed.

Lemma getInseeCode_returns (communeName : jstring) (n : Net) :
  exists v n', getInseeCode communeName n = (Val v, n').
Proof. apply try_catch_returns. Qed.

Lemma getParcelGeometry_returns (insee section numero : jstring) (n : Net) :
  exists v n', getParcelGeometry insee section numero n = (Val v, n').
Proof. apply try_catch_returns. Qed.

Lemma fetch_rejected url (n : Net) e w :
  fetch_in url (world n) = (Rejected e, w) ->
  fetch url n = (Throw e, {| world := w; sent := sent n ++ [url] |}).
Proof. unfold fetch. now intros ->. Qed.

Lemma fetch_responded url (n : Net) r w :
  fetch_in url (world n) = (Responded r, w) ->
  fetch url n = (Val r, {| world := w; sent := sent n ++ [url] |}).
Proof. unfold fetch. now intros ->. Qed.

Lemma fetch_sent url (n : Net) r n' :
  fetch url n = (r, n') -> sent n' = sent n ++ [url].
Proof.
  unfold fetch. destruct (fetch_in url (world n)) as [[e|resp] w]; now intros [= _ <-].
Qed.

(** The commune lookup in each of its failure cases. *)
Lemma getInseeCode_not_found communeName (n : Net) url w' :
  commune_lookup_fails communeName (world n) url w' ->
  getInseeCode communeName n = (Val None, {| world := w'; sent := sent n ++ [url] |}).
Proof.
  intros Hfail. unfold getInseeCode, try_catch, getInseeCode_try, bind, of_result.
  destruct Hfail as [q e w' Hq Hf | q r w' Hq Hf Hok | q r w' Hq Hf Hok Hj]; rewrite Hq.
  - now rewrite (fetch_rejected _ _ _ _ Hf).
  - rewrite (fetch_responded _ _ _ _ Hf), Hok. reflexivity.
  - rewrite (fetch_responded _ _ _ _ Hf), Hok, Hj. reflexivity.
Qed.

Lemma getInseeCode_not_ok communeName (n : Net) q r w' :
  encodeURIComponent communeName = Val q ->
  fetch_in (commune_url q) (world n) = (Responded r, w') ->
  ok r = false ->
  getInseeCode communeName n
  = (Val None, {| world := w'; sent := sent n ++ [commune_url q] |}).
Proof.
  intros Hq Hf Hok. apply getInseeCode_not_found. eapply no_response; eauto.
Qed.

Section GeometryLookup.
Variables insee section numero : jstring.
Let formattedNumero := padStart 4 48 numero.
Let url := parcelle_url insee section formattedNumero.
Let retryUrl := parcelle_url insee (48%N :: section) formattedNumero.

Lemma getParcelGeometry_retry (n : Net) r1 w1 o2 w2 :
  fetch_in url (world n) = (Responded r1, w1) ->
  ok r1 = false ->
  length section = 1 ->
  fetch_in retryUrl w1 = (o2, w2) ->
  getParcelGeometry insee section numero n
  = (Val (retry_result o2), {| world := w2; sent := sent n ++ [url; retryUrl] |}).
Proof.
  intros Hf Hok Hlen Hr.
  unfold getParcelGeometry, try_catch, getParcelGeometry_try, bind.
  fold formattedNumero. fold url. fold retryUrl.
  rewrite (fetch_responded _ _ _ _ Hf), Hok, Hlen. cbn [negb Nat.eqb].
  unfold fetch at 1. cbn [world sent]. rewrite Hr.
  rewrite <- app_assoc. cbn [app].
  destruct o2 as [e|r2]; cbn [retry_result]; [reflexivity|].
  destruct (ok r2); [|reflexivity].
  unfold of_result, ret. now destruct (json r2).
Qed.

Lemma getParcelGeometry_no_retry (n : Net) r1 w1 :
  fetch_in url (world n) = (Responded r1, w1) ->
  ok r1 = false ->
  length section <> 1 ->
  getParcelGeometry insee section numero n
  = (Val JNull, {| world := w1; sent := sent n ++ [url] |}).
Proof.
  intros Hf Hok Hlen.
  unfold getParcelGeometry, try_catch, getParcelGeometry_try, bind.
  fold formattedNumero. fold url.
  rewrite (fetch_responded _ _ _ _ Hf), Hok. cbn [negb].
  apply Nat.eqb_neq in Hlen. now rewrite Hlen.
Qed.

Lemma getParcelGeometry_sent (n : Net) r n' :
  getParcelGeometry insee section numero n = (r, n') ->
  sent n' = sent n ++ [url] \/ sent n' = sent n ++ [url; retryUrl].
Proof.
  unfold getParcelGeometry, try_catch, getParcelGeometry_try, bind.
  fold formattedNumero. fold url. fold retryUrl.
  destruct (fetch url n) as [[r1|e1] n1] eqn:E1.
  - apply fetch_sent in E1.
    destruct (negb (ok r1)).
    + destruct (Nat.eqb (length section) 1).
      * destruct (fetch retryUrl n1) as [[r2|e2] n2] eqn:E2;
          apply fetch_sent in E2; rewrite E1, <- app_assoc in E2; cbn [app] in E2.
        -- destruct (ok r2); unfold of_result, ret;
             [destruct (json r2)|]; intros [= _ <-]; now right.
        -- unfold ret. intros [= _ <-]. now right.
      * unfold ret. intros [= _ <-]. now left.
    + unfold of_result, ret. destruct (json r1); intros [= _ <-]; now left.
  - apply fetch_sent in E1. unfold ret. intros [= _ <-]. now left.
Qed.

Lemma padStart_numero :
  formattedNumero = repeat 48%N (4 - length numero) ++ numero
  /\ 4 <= length formattedNumero
  /\ (4 <= length numero -> formattedNumero = numero)
  /\ (length numero <= 4 -> length formattedNumero = 4).
Proof.
  unfold formattedNumero, padStart. repeat split.
  - rewrite length_app, repeat_length. lia.
  - intros Hlen. now replace (4 - length numero) with 0 by lia.
  - intros Hlen. rewrite length_app, repeat_length. lia.
Qed.

End GeometryLookup.

(** The text of the two requests, and the lookups on a transport error,
    an OK response and a body that does not parse. *)
Lemma parcelle_url_text (insee section numero : jstring) :
  parcelle_url insee section (padStart 4 48 numero)
  = geometry_request insee section (zero_padded numero)
  /\ parcelle_url insee (48%N :: section) (padStart 4 48 numero)
     = geometry_request insee (lit "0" ++ section) (zero_padded numero).
Proof. split; reflexivity. Qed.

Lemma getParcelGeometry_ok (insee section numero : jstring) (n : Net) r1 w1 :
  fetch_in (parcelle_url insee section (padStart 4 48 numero)) (world n)
  = (Responded r1, w1) ->
  ok r1 = true ->
  getParcelGeometry insee section numero n
  = (Val (match json r1 with Val j => j | Throw _ => JNull end),
     {| world := w1;
        sent := sent n ++ [parcelle_url insee section (padStart 4 48 numero)] |}).
Proof.
  intros Hf Hok.
  unfold getParcelGeometry, try_catch, getParcelGeometry_try, bind.
  rewrite (fetch_responded _ _ _ _ Hf), Hok. cbn [negb].
  unfold of_result, ret. now destruct (json r1).
Qed.

Lemma getParcelGeometry_rejected (insee section numero : jstring) (n : Net) e w1 :
  fetch_in (parcelle_url insee section (padStart 4 48 numero)) (world n)
  = (Rejected e, w1) ->
  getParcelGeometry insee section numero n
  = (Val JNull,
     {| world := w1;
        sent := sent n ++ [parcelle_url insee section (padStart 4 48 numero)] |}).
Proof.
  intros Hf.
  unfold getParcelGeometry, try_catch, getParcelGeometry_try, bind.
  now rewrite (fetch_rejected _ _ _ _ Hf).
Qed.

Lemma getInseeCode_unparsable communeName (n : Net) q r e w' :
  encodeURIComponent communeName = Val q ->
  fetch_in (commune_url q) (world n) = (Responded r, w') ->
  ok r = true ->
  json r = Throw e ->
  getInseeCode communeName n
  = (Val None, {| world := w'; sent := sent n ++ [commune_url q] |}).
Proof.
  intros Hq Hf Hok Hj.
  unfold getInseeCode, try_catch, getInseeCode_try, bind, of_result.
  now rewrite Hq, (fetch_responded _ _ _ _ Hf), Hok, Hj.
Qed.

End ServiceLemmas.

(* ===================================================================== *)
(** * The resolution loop *)
(* ===================================================================== *)

Section LoopLemmas.
Context `{Env}.

Lemma publish_published v st : published (publish v st) = published st ++ [v].
Proof. reflexivity. Qed.

Lemma publish_net v st : net (publish v st) = net st.
Proof. reflexivity. Qed.

Lemma service_run {A} (m : M Net A) (st : AppState) :
  service m st = (fst (m (net st)), set_net (snd (m (net st))) st).
Proof. unfold service, zoom. now destruct (m (net st)). Qed.

(** One turn of the loop, as an equation between what is left to run
    before and after it. *)
Lemma resolveFrom_turn (n i : nat) (up : list ParsedParcel) (st : AppState) p :
  up !! i = Some p ->
  let up1 := <[i := asLoading p]> up in
  let st1 := publish up1 st in
  exists insee n1,
    getInseeCode (Types.communeName p) (net st) = (Val insee, n1)
    /\ match truthy insee with
       | None =>
           resolveFrom (S n) i up st
           = resolveFrom n (S i) (<[i := asCommuneNotFound p]> up1) (set_net n1 st1)
       | Some code =>
           exists geo n2,
             getParcelGeometry code (Types.section p) (Types.numero p) n1
             = (Val geo, n2)
             /\ let up2 :=
                  match hasFeatures geo with
                  | Some g => <[i := asSuccess p code g]> up1
                  | None => <[i := asGeometryNotFound p code]> up1
                  end in
                resolveFrom (S n) i up st
                = resolveFrom n (S i) up2 (publish up2 (set_net n2 st1))
       end.
Proof.
  intros Hp up1 st1.
  destruct (getInseeCode_returns (Types.communeName p) (net st)) as (insee & n1 & E1).
  exists insee, n1. split; [exact E1|].
  assert (forall k, resolveFrom (S n) i up st
                    = bind (service (getInseeCode (Types.communeName p))) k st1
                    -> resolveFrom (S n) i up st = k insee (set_net n1 st1)) as Hstep.
  { intros k ->. unfold bind. rewrite service_run.
    change (net st1) with (net st). now rewrite E1. }
  destruct (truthy insee) as [code|] eqn:Et.
  - destruct (getParcelGeometry_returns code (Types.section p) (Types.numero p) n1)
      as (geo & n2 & E2).
    exists geo, n2. split; [exact E2|].
    intros up2. erewrite Hstep.
    2:{ cbn [resolveFrom]. rewrite Hp. reflexivity. }
    cbv beta. rewrite Et.
    unfold bind at 1. rewrite service_run.
    change (net (set_net n1 st1)) with n1. rewrite E2. reflexivity.
  - erewrite Hstep.
    2:{ cbn [resolveFrom]. rewrite Hp. reflexivity. }
    cbv beta. now rewrite Et.
Qed.

End LoopLemmas.

Section RunLemmas.
Context `{Env}.

Lemma resolveFrom_returns (n : nat) :
  forall (i : nat) (up : list ParsedParcel) (st : AppState),
    i + n <= length up ->
    exists final st',
      resolveFrom n i up st = (Val final, st')
      /\ length final = length up
      /\ forall j, j < i -> final !! j = up !! j.
Proof.
  induction n as [|n IH]; intros i up st Hlen.
  - exists up, st. now repeat split.
  - destruct (lookup_lt_is_Some_2 up i ltac:(lia)) as [p Hp].
    destruct (resolveFrom_turn n i up st p Hp) as (insee & n1 & _ & Hturn).
    destruct (truthy insee) as [code|].
    + destruct Hturn as (geo & n2 & _ & ->).
      match goal with |- context [resolveFrom n (S i) ?l ?s] =>
        destruct (IH (S i) l s) as (final & st' & E & Hl & Hj) end.
      { destruct (hasFeatures geo); rewrite !length_insert; lia. }
      exists final, st'. split; [exact E|]. split.
      * rewrite Hl. destruct (hasFeatures geo); now rewrite !length_insert.
      * intros j Hji. rewrite Hj by lia.
        destruct (hasFeatures geo); now rewrite !list_lookup_insert_ne by lia.
    + rewrite Hturn.
      match goal with |- context [resolveFrom n (S i) ?l ?s] =>
        destruct (IH (S i) l s) as (final & st' & E & Hl & Hj) end.
      { rewrite !length_insert; lia. }
      exists final, st'. split; [exact E|]. split.
      * now rewrite Hl, !length_insert.
      * intros j Hji. rewrite Hj by lia.
        now rewrite !list_lookup_insert_ne by lia.
Qed.

(** The loop only appends to the log of published lists. *)
Lemma resolveFrom_extends (n : nat) :
  forall (i : nat) (up : list ParsedParcel) (st : AppState),
    exists later, published (snd (resolveFrom n i up st)) = published st ++ later.
Proof.
  induction n as [|n IH]; intros i up st.
  - exists []. now rewrite app_nil_r.
  - destruct (up !! i) as [p|] eqn:Hp.
    2:{ cbn [resolveFrom]. rewrite Hp. exists []. now rewrite app_nil_r. }
    destruct (resolveFrom_turn n i up st p Hp) as (insee & n1 & _ & Hturn).
    destruct (truthy insee) as [code|].
    + destruct Hturn as (geo & n2 & _ & ->).
      match goal with |- context [resolveFrom n (S i) ?l ?s] =>
        destruct (IH (S i) l s) as (later & ->) end.
      cbn. rewrite <- !app_assoc. eauto.
    + rewrite Hturn.
      match goal with |- context [resolveFrom n (S i) ?l ?s] =>
        destruct (IH (S i) l s) as (later & ->) end.
      cbn. rewrite <- !app_assoc. eauto.
Qed.

(** A turn starts by publishing the array with its record as loading. *)
Lemma resolveFrom_first_published (n i : nat) (up : list ParsedParcel) (st : AppState) p :
  up !! i = Some p ->
  exists later,
    published (snd (resolveFrom (S n) i up st))
    = published st ++ [<[i := asLoading p]> up] ++ later.
Proof.
  intros Hp.
  destruct (resolveFrom_turn n i up st p Hp) as (insee & n1 & _ & Hturn).
  destruct (truthy insee) as [code|].
  - destruct Hturn as (geo & n2 & _ & ->).
    match goal with |- context [resolveFrom n (S i) ?l ?s] =>
      destruct (resolveFrom_extends n (S i) l s) as (later & ->) end.
    cbn. rewrite <- !app_assoc. cbn. eauto.
  - rewrite Hturn.
    match goal with |- context [resolveFrom n (S i) ?l ?s] =>
      destruct (resolveFrom_extends n (S i) l s) as (later & ->) end.
    cbn. rewrite <- !app_assoc. cbn. eauto.
Qed.

(** ** The record invariant *)

Ltac settle_record :=
  unfold record_ok; cbn;
  repeat match goal with
         | H : _ = _ |- _ => rewrite H
         end;
  repeat split; intros;
  repeat match goal with
         | H : is_Some None |- _ => destruct H as [? H]; discriminate H
         | H : _ \/ _ |- _ => destruct H
         | H : _ = _ |- _ => discriminate H
         | |- is_Some (Some _) => eexists; reflexivity
         end;
  try reflexivity.

Lemma pristine_ok p : pristine p -> record_ok p.
Proof. intros (Hs & _ & Hg & He). settle_record. Qed.

Lemma asLoading_ok p : pristine p -> record_ok (asLoading p).
Proof. intros (_ & _ & Hg & He). settle_record. Qed.

Lemma asCommuneNotFound_ok p : pristine p -> record_ok (asCommuneNotFound p).
Proof. intros (_ & _ & Hg & _). settle_record. Qed.

Lemma asGeometryNotFound_ok p code :
  pristine p -> record_ok (asGeometryNotFound p code).
Proof. intros (_ & _ & Hg & _). settle_record. Qed.

Lemma hasFeatures_Some geo g :
  hasFeatures geo = Some g -> exists f fs, features g = Some (f :: fs).
Proof.
  unfold hasFeatures. destruct geo as [| |g']; try discriminate.
  destruct (features g') as [[|f fs]|] eqn:E; try discriminate.
  intros [= <-]. eauto.
Qed.

Lemma asSuccess_ok p code geo g :
  pristine p -> hasFeatures geo = Some g -> record_ok (asSuccess p code g).
Proof.
  intros (_ & _ & _ & He) Hf. apply hasFeatures_Some in Hf.
  unfold record_ok; cbn. rewrite He.
  repeat split; intros;
    repeat match goal with
           | H : is_Some None |- _ => destruct H as [? H]; discriminate H
           | H : _ \/ _ |- _ => destruct H
           | H : _ = _ |- _ => discriminate H
           | H : Some _ = Some _ |- _ => injection H as <-
           | |- is_Some (Some _) => eexists; reflexivity
           end;
    try reflexivity; exact Hf.
Qed.

Lemma loop_inv_all_ok i l : loop_inv i l -> Forall record_ok l.
Proof.
  intros Hinv. apply Forall_lookup. intros j q Hq.
  specialize (Hinv j q Hq). destruct (Nat.ltb j i); [exact Hinv | now apply pristine_ok].
Qed.

Lemma loop_inv_pristine i l p : loop_inv i l -> l !! i = Some p -> pristine p.
Proof.
  intros Hinv Hp. specialize (Hinv i p Hp). now rewrite Nat.ltb_irrefl in Hinv.
Qed.

Lemma loop_inv_settle i l x y :
  loop_inv i l -> record_ok x ->
  loop_inv (S i) (<[i := x]> (<[i := y]> l)).
Proof.
  intros Hinv Hx j q Hq.
  destruct (Nat.eq_dec i j) as [<-|Hne].
  - apply list_lookup_insert_Some in Hq as [(_ & <- & _)|(Hne & _)]; [|congruence].
    now replace (Nat.ltb i (S i)) with true by (symmetry; apply Nat.ltb_lt; lia).
  - rewrite !list_lookup_insert_ne in Hq by exact Hne.
    specialize (Hinv j q Hq).
    destruct (Nat.ltb j i) eqn:E.
    + apply Nat.ltb_lt in E.
      now replace (Nat.ltb j (S i)) with true by (symmetry; apply Nat.ltb_lt; lia).
    + apply Nat.ltb_ge in E.
      now replace (Nat.ltb j (S i)) with false by (symmetry; apply Nat.ltb_ge; lia).
Qed.

Lemma publishes_ok_same st st' :
  published st' = published st -> publishes_ok st st'.
Proof. intros E. exists []. now rewrite E, app_nil_r. Qed.

Lemma publishes_ok_trans st1 st2 st3 :
  publishes_ok st1 st2 -> publishes_ok st2 st3 -> publishes_ok st1 st3.
Proof.
  intros (new1 & E1 & H1) (new2 & E2 & H2). exists (new1 ++ new2). split.
  - now rewrite E2, E1, app_assoc.
  - apply Forall_app. now split.
Qed.

Lemma publishes_ok_publish v st :
  Forall record_ok v -> publishes_ok st (publish v st).
Proof. intros Hv. exists [v]. split; [reflexivity | now constructor]. Qed.

Lemma resolveFrom_published (n : nat) :
  forall (i : nat) (up : list ParsedParcel) (st : AppState) r st',
    loop_inv i up ->
    resolveFrom n i up st = (r, st') ->
    publishes_ok st st'.
Proof.
  induction n as [|n IH]; intros i up st r st' Hinv.
  - intros [= _ <-]. now apply publishes_ok_same.
  - destruct (up !! i) as [p|] eqn:Hp.
    2:{ cbn [resolveFrom]. rewrite Hp. intros [= _ <-]. now apply publishes_ok_same. }
    pose proof (loop_inv_pristine _ _ _ Hinv Hp) as Hnew.
    assert (Forall record_ok (<[i := asLoading p]> up)) as Hup1.
    { apply Forall_insert; [now apply (loop_inv_all_ok i) | now apply asLoading_ok]. }
    pose proof (publishes_ok_publish _ st Hup1) as Hst1.
    destruct (resolveFrom_turn n i up st p Hp) as (insee & n1 & _ & Hturn).
    destruct (truthy insee) as [code|].
    + destruct Hturn as (geo & n2 & _ & ->).
      intros E.
      assert (publishes_ok st (set_net n2 (publish (<[i := asLoading p]> up) st)))
        as Hmid
        by (eapply publishes_ok_trans; [exact Hst1 | now apply publishes_ok_same]).
      eapply publishes_ok_trans; [exact Hmid|].
      eapply publishes_ok_trans; [|eapply IH; [|exact E]].
      * apply publishes_ok_publish.
        destruct (hasFeatures geo) as [g|] eqn:Eg;
          (apply Forall_insert; [exact Hup1|]);
          [now apply (asSuccess_ok p code geo) | now apply asGeometryNotFound_ok].
      * destruct (hasFeatures geo) as [g|] eqn:Eg;
          (apply loop_inv_settle; [exact Hinv|]);
          [now apply (asSuccess_ok p code geo) | now apply asGeometryNotFound_ok].
    + rewrite Hturn. intros E.
      assert (publishes_ok st (set_net n1 (publish (<[i := asLoading p]> up) st)))
        as Hmid
        by (eapply publishes_ok_trans; [exact Hst1 | now apply publishes_ok_same]).
      eapply publishes_ok_trans; [exact Hmid|].
      eapply IH; [|exact E].
      apply loop_inv_settle; [exact Hinv | now apply asCommuneNotFound_ok].
Qed.

(** ** Creation of the records *)

Lemma dateNow_run st :
  exists t n', dateNow st = (Val t, set_net n' st).
Proof.
  unfold dateNow. rewrite service_run.
  destruct (Date_now (world (net st))) as [t w]. cbn. eauto.
Qed.

Lemma initialParcelsFrom_run (parsedRaw : list ParcelQuery) :
  forall idx st,
    exists ps n',
      initialParcelsFrom idx parsedRaw st = (Val ps, set_net n' st)
      /\ Forall pristine ps
      /\ length ps = length parsedRaw.
Proof.
  induction parsedRaw as [|q rest IH]; intros idx st.
  - exists [], (net st). repeat split; [|constructor].
    cbn. unfold ret. now destruct st.
  - cbn [initialParcelsFrom]. unfold bind at 1. unfold initialParcel, bind at 1.
    destruct (dateNow_run st) as (t & n1 & ->).
    unfold ret at 1. unfold bind at 1.
    destruct (IH (S idx) (set_net n1 st)) as (ps & n2 & -> & Hps & Hlen).
    eexists (_ :: ps), n2. split; [reflexivity|]. split.
    + constructor; [now repeat split | exact Hps].
    + cbn [length]. now rewrite Hlen.
Qed.

Lemma loop_inv_initial ps : Forall pristine ps -> loop_inv 0 ps.
Proof.
  intros Hps j q Hq. cbn. eapply Forall_lookup_1; eauto.
Qed.

Lemma resolveRun_published parsedRaw st r st' :
  resolveRun parsedRaw st = (r, st') -> publishes_ok st st'.
Proof.
  unfold resolveRun. unfold bind at 1.
  destruct (initialParcelsFrom_run parsedRaw 0 st) as (ps & n0 & -> & Hps & Hlen).
  unfold bind at 1, setParcels at 1, modify at 1.
  unfold bind at 1, setAppStatus at 1, modify at 1.
  unfold bind at 1, setProgressMessage at 1, modify at 1.
  unfold bind at 1.
  match goal with |- context [resolveAll ps ?s] =>
    assert (publishes_ok st s) as Hs
      by (exists [ps]; split; [reflexivity|];
          constructor; [|constructor];
          apply (loop_inv_all_ok 0), loop_inv_initial, Hps);
    destruct (resolveAll ps s) as [[final|e] st3] eqn:E;
    apply (resolveFrom_published _ 0 ps s) in E;
      try (now apply loop_inv_initial) end.
  - intros [= _ <-]. eapply publishes_ok_trans; [exact Hs|].
    eapply publishes_ok_trans; [exact E|]. now apply publishes_ok_same.
  - intros [= _ <-]. eapply publishes_ok_trans; [exact Hs|]. exact E.
Qed.

Lemma resolveRun_completes parsedRaw st :
  exists st', resolveRun parsedRaw st = (Val tt, st') /\ appStatus st' = COMPLETED.
Proof.
  unfold resolveRun. unfold bind at 1.
  destruct (initialParcelsFrom_run parsedRaw 0 st) as (ps & n0 & -> & Hps & Hlen).
  unfold bind at 1, setParcels at 1, modify at 1.
  unfold bind at 1, setAppStatus at 1, modify at 1.
  unfold bind at 1, setProgressMessage at 1, modify at 1.
  unfold bind at 1.
  match goal with |- context [resolveAll ps ?s] =>
    destruct (resolveFrom_returns (length ps) 0 ps s ltac:(lia))
      as (final & st3 & E & _) end.
  unfold resolveAll. rewrite E. eexists. split; reflexivity.
Qed.

Lemma extract_published useAiParsing inputText st r st' :
  extract useAiParsing inputText st = (r, st') -> published st' = published st.
Proof.
  unfold extract. destruct useAiParsing.
  - unfold bind, setProgressMessage, modify, parseParcelText. rewrite service_run.
    cbn [net world]. destruct (remote_extract _ _) as [r0 w]. cbn.
    now intros [= _ <-].
  - unfold bind, setProgressMessage, modify.
    destruct (Nat.eqb _ 0); unfold throw, ret; now intros [= _ <-].
Qed.

Lemma handleProcess_published useAiParsing inputText st r st' :
  handleProcess useAiParsing inputText st = (r, st') -> publishes_ok st st'.
Proof.
  unfold handleProcess.
  destruct (trim inputText); [intros [= _ <-]; now apply publishes_ok_same|].
  unfold bind at 1, setAppStatus at 1, modify at 1.
  unfold bind at 1, setParcels at 1, modify at 1.
  unfold bind at 1, setSelectedParcelId at 1, modify at 1.
  unfold bind at 1, setMeasurementsVisibleIds at 1, modify at 1.
  match goal with |- try_catch _ _ ?s = _ -> _ =>
    assert (publishes_ok st s) as Hs
      by (exists [[]]; split; [reflexivity | repeat constructor]);
    generalize dependent s end.
  intros s Hs E. eapply publishes_ok_trans; [exact Hs|]. revert E.
  unfold try_catch, bind at 1.
  destruct (extract useAiParsing inputText s) as [[parsedRaw|e] s1] eqn:Ex;
    apply extract_published in Ex.
  - destruct (resolveRun parsedRaw s1) as [[[]|e] s2] eqn:Er;
      apply resolveRun_published in Er.
    + intros [= _ <-].
      eapply publishes_ok_trans; [apply publishes_ok_same, Ex | exact Er].
    + unfold bind, setAppStatus, setProgressMessage, modify. intros [= _ <-].
      eapply publishes_ok_trans; [apply publishes_ok_same, Ex|].
      eapply publishes_ok_trans; [exact Er|]. now apply publishes_ok_same.
  - unfold bind, setAppStatus, setProgressMessage, modify. intros [= _ <-].
    apply publishes_ok_same. exact Ex.
Qed.

End RunLemmas.

(* ===================================================================== *)
(** * The resolution run *)
(* ===================================================================== *)

(** C3.  Whatever the mode, the input and the starting state, every list
    that a run of [handleProcess] publishes consists of records on which
    [geoJson] is present exactly when the status is success, then with a
    non-empty feature list, and [errorMessage] is present exactly when the
    status is error; pending and loading records carry neither. *)
Theorem published_records_ok :
  forall `{Env} (useAiParsing : bool) (inputText : jstring) (st : AppState),
  exists new : list (list ParsedParcel),
    published (snd (handleProcess useAiParsing inputText st))
    = published st ++ new
    /\ Forall (Forall record_ok) new.
Proof.
  intros E useAiParsing inputText st.
  destruct (handleProcess useAiParsing inputText st) as [r st'] eqn:Hrun.
  exact (handleProcess_published _ _ _ _ _ Hrun).
Qed.

(** In every environment, when the commune lookup of the last record
    fails, the loop returns with the record settled as an error in its
    working array, while the last list it has published, and the
    component's [parcels], still show the record as loading. *)
Lemma last_commune_failure_not_published :
  forall `{Env} (i : nat) (up : list ParsedParcel) (st : AppState)
         (p : ParsedParcel) (url : jstring) (w' : World),
    up !! i = Some p ->
    S i = length up ->
    commune_lookup_fails (Types.communeName p) (world (net st)) url w' ->
    exists st',
      resolveFrom 1 i up st
      = (Val (<[i := asCommuneNotFound p]> (<[i := asLoading p]> up)), st')
      /\ published st' = published st ++ [<[i := asLoading p]> up]
      /\ parcels st' = <[i := asLoading p]> up.
Proof.
  intros E i up st p url w' Hp Hlen Hfail.
  destruct (resolveFrom_turn 0 i up st p Hp) as (insee & n1 & E1 & Hturn).
  rewrite (getInseeCode_not_found _ _ _ _ Hfail) in E1.
  injection E1 as <- <-. cbn [truthy] in Hturn.
  rewrite Hturn. eexists. split; [reflexivity|]. split; reflexivity.
Qed.

(** C1.  A run on the single line "A B 1" against a geocoder that knows
    no commune: the record ends in the working array with status error,
    the run completes, but the last list published still shows the record
    as loading; no published list shows it with a terminal status. *)
Theorem commune_failure_not_published :
  let run := @handleProcess no_commune false (lit "A B 1") (@initialState no_commune tt) in
  let pending_record :=
    {| id := lit "p-0-0"; rawText := lit "A B 1"; communeName := lit "A";
       inseeCode := None; section := lit "B"; numero := lit "1";
       status := pending; geoJson := None; errorMessage := None |} in
  fst run = Val tt
  /\ appStatus (snd run) = COMPLETED
  /\ published (snd run) = [ []; [pending_record]; [asLoading pending_record] ]
  /\ parcels (snd run) = [asLoading pending_record]
  /\ fst (@resolveAll no_commune [pending_record] (@initialState no_commune tt))
     = Val [asCommuneNotFound pending_record].
Proof. vm_compute. repeat split. Qed.

(** C5.  When the commune lookup of the record at index [i] meets a
    transport error, a response that is not OK or an empty result set,
    the turn sends the commune request only and the loop goes on with the
    next index: in the working array the record has status error, the
    message "Commune not found" and no INSEE code.  That array is not
    handed to [setParcels]: after the turn the component still holds the
    record as loading.  When the record is the last one the loop ends
    there, and the record is never shown as an error; when another
    record follows, the error is first shown by the list that record's
    turn publishes. *)
Theorem commune_not_found :
  forall `{Env} (n i : nat) (up : list ParsedParcel) (st : AppState)
         (p : ParsedParcel) (url : jstring) (w' : World),
    up !! i = Some p ->
    i + S n <= length up ->
    inseeCode p = None ->
    commune_lookup_fails (Types.communeName p) (world (net st)) url w' ->
    let loadingList := <[i := asLoading p]> up in
    let workingList := <[i := asCommuneNotFound p]> loadingList in
    let st1 :=
      set_net {| world := w'; sent := sent (net st) ++ [url] |}
              (publish loadingList st) in
    resolveFrom (S n) i up st = resolveFrom n (S i) workingList st1
    /\ (exists p',
          workingList !! i = Some p'
          /\ status p' = error
          /\ errorMessage p' = Some (lit "Commune not found")
          /\ inseeCode p' = None)
    /\ published st1 = published st ++ [loadingList]
    /\ (exists q,
          parcels st1 !! i = Some q
          /\ status q = loading
          /\ errorMessage q = errorMessage p)
    /\ (n = 0 -> resolveFrom (S n) i up st = (Val workingList, st1))
    /\ (forall q, 0 < n -> up !! S i = Some q ->
          exists later,
            published (snd (resolveFrom (S n) i up st))
            = published st
              ++ [loadingList; <[S i := asLoading q]> workingList] ++ later).
Proof.
  intros E n i up st p url w' Hp Hlen Hcode Hfail loadingList workingList st1.
  assert (i < length up) as Hi by (now apply lookup_lt_Some in Hp).
  destruct (resolveFrom_turn n i up st p Hp) as (insee & n1 & E1 & Hturn).
  rewrite (getInseeCode_not_found _ _ _ _ Hfail) in E1.
  injection E1 as <- <-. cbn [truthy] in Hturn.
  split; [exact Hturn|]. split.
  { exists (asCommuneNotFound p). split; [|now repeat split].
    apply list_lookup_insert_eq. unfold loadingList. now rewrite length_insert. }
  split; [reflexivity|]. split.
  { exists (asLoading p). split; [|now split].
    change (parcels st1) with loadingList. now apply list_lookup_insert_eq. }
  split.
  { intros ->. exact Hturn. }
  intros q Hn Hq. destruct n as [|n]; [lia|].
  rewrite Hturn.
  assert (workingList !! S i = Some q) as Hq'.
  { unfold workingList, loadingList. now rewrite !list_lookup_insert_ne by lia. }
  destruct (resolveFrom_first_published n (S i) workingList st1 q Hq') as (later & Hl).
  exists later. fold loadingList workingList st1. rewrite Hl.
  change (published st1) with (published st ++ [loadingList]).
  now rewrite <- app_assoc.
Qed.

Lemma commune_not_found_witness :
  exists st',
    @resolveFrom no_commune 1 0 [schorbach] (@initialState no_commune tt)
    = (Val [asCommuneNotFound schorbach], st')
    /\ parcels st' = [asLoading schorbach]
    /\ published st' = [[asLoading schorbach]].
Proof.
  eexists. split; [|split].
  - apply (proj1 (proj2 (proj2 (proj2 (proj2
             (@commune_not_found no_commune 0 0 [schorbach] (@initialState no_commune tt)
                schorbach (commune_url (lit "SCHORBACH")) tt
                eq_refl ltac:(simpl; lia) eq_refl
                ltac:(eapply (@empty_result_set no_commune); reflexivity))))))).
    reflexivity.
  - reflexivity.
  - reflexivity.
Defined.

(** C4.  The geometry lookup requests
    [https://apicarto.ign.fr/api/cadastre/parcelle?code_insee=<insee>&section=<section>&numero=<numero>]
    with the numero padded with zeros on the left to four characters.  It
    sends one request, or two: when the first response is not OK and the
    section has exactly one character it sends exactly one more, for the
    section prefixed with "0" and the same padded numero, and returns what
    that request yields; when the section's length is not one it sends
    nothing more and returns null.  When the retry is answered OK with at
    least one feature, the record is published with status success, its
    geometry and its INSEE code. *)
Theorem geometry_lookup_retry :
  forall `{Env} (insee section numero : jstring) (n : Net),
    let formattedNumero := repeat 48%N (4 - length numero) ++ numero in
    let url :=
      lit "https://apicarto.ign.fr/api/cadastre/parcelle?code_insee=" ++ insee
        ++ lit "&section=" ++ section ++ lit "&numero=" ++ formattedNumero in
    let retryUrl :=
      lit "https://apicarto.ign.fr/api/cadastre/parcelle?code_insee=" ++ insee
        ++ lit "&section=0" ++ section ++ lit "&numero=" ++ formattedNumero in
    (4 <= length formattedNumero
     /\ (4 <= length numero -> formattedNumero = numero)
     /\ (length numero <= 4 -> length formattedNumero = 4))
    /\ (forall r n',
          getParcelGeometry insee section numero n = (r, n') ->
          sent n' = sent n ++ [url] \/ sent n' = sent n ++ [url; retryUrl])
    /\ (forall r1 w1 o2 w2,
          fetch_in url (world n) = (Responded r1, w1) ->
          ok r1 = false ->
          length section = 1 ->
          fetch_in retryUrl w1 = (o2, w2) ->
          getParcelGeometry insee section numero n
          = (Val (retry_result o2),
             {| world := w2; sent := sent n ++ [url; retryUrl] |}))
    /\ (forall r1 w1,
          fetch_in url (world n) = (Responded r1, w1) ->
          ok r1 = false ->
          length section <> 1 ->
          getParcelGeometry insee section numero n
          = (Val JNull, {| world := w1; sent := sent n ++ [url] |}))
    /\ (forall (k i : nat) (up : list ParsedParcel) (st : AppState)
               (p : ParsedParcel) r1 w1 r2 w2 g f fs,
          up !! i = Some p ->
          i + S k <= length up ->
          section = Types.section p ->
          numero = Types.numero p ->
          getInseeCode (Types.communeName p) (net st) = (Val (Some insee), n) ->
          insee <> [] ->
          fetch_in url (world n) = (Responded r1, w1) ->
          ok r1 = false ->
          length section = 1 ->
          fetch_in retryUrl w1 = (Responded r2, w2) ->
          ok r2 = true ->
          json r2 = Val (JGeo g) ->
          features g = Some (f :: fs) ->
          let loadingList := <[i := asLoading p]> up in
          let settledList := <[i := asSuccess p insee g]> loadingList in
          (exists st1,
             resolveFrom (S k) i up st = resolveFrom k (S i) settledList st1
             /\ published st1 = published st ++ [loadingList; settledList]
             /\ parcels st1 = settledList
             /\ sent (net st1) = sent n ++ [url; retryUrl])
          /\ exists final st',
               resolveFrom (S k) i up st = (Val final, st')
               /\ exists p',
                    final !! i = Some p'
                    /\ status p' = success
                    /\ geoJson p' = Some g
                    /\ inseeCode p' = Some insee).
Proof.
  intros E insee section numero n formattedNumero url retryUrl.
  destruct (parcelle_url_text insee section numero) as [Hurl Hretry].
  change (parcelle_url insee section (padStart 4 48 numero) = url) in Hurl.
  change (parcelle_url insee (48%N :: section) (padStart 4 48 numero) = retryUrl) in Hretry.
  rewrite <- Hurl, <- Hretry.
  split; [apply (padStart_numero numero)|].
  split; [apply getParcelGeometry_sent|].
  split; [apply getParcelGeometry_retry|].
  split; [apply getParcelGeometry_no_retry|].
  intros k i up st p r1 w1 r2 w2 g f fs Hp Hlen -> -> Hinsee Hne Hf1 Hok1 Hsec Hf2 Hok2 Hj Hfs
    loadingList settledList.
  destruct (resolveFrom_turn k i up st p Hp) as (insee' & n1 & E1 & Hturn).
  rewrite Hinsee in E1. injection E1 as <- <-.
  destruct insee as [|c insee]; [congruence|]. cbn [truthy] in Hturn.
  destruct Hturn as (geo & n2 & E2 & Hturn).
  rewrite (getParcelGeometry_retry _ _ _ _ _ _ _ _ Hf1 Hok1 Hsec Hf2) in E2.
  injection E2 as <- <-.
  cbn [retry_result] in Hturn. rewrite Hok2, Hj in Hturn.
  cbn [hasFeatures] in Hturn. rewrite Hfs in Hturn.
  split.
  { eexists. split; [exact Hturn|].
    split; [cbn; now rewrite <- app_assoc|].
    split; reflexivity. }
  rewrite Hturn.
  match goal with |- context [resolveFrom k (S i) ?l ?s] =>
    destruct (resolveFrom_returns k (S i) l s) as (final & st' & Erun & _ & Hkeep) end.
  { rewrite !length_insert. lia. }
  exists final, st'. split; [exact Erun|].
  exists (asSuccess p (c :: insee) g). repeat split.
  rewrite Hkeep by lia. apply list_lookup_insert_eq.
  rewrite length_insert. lia.
Qed.

Lemma geometry_lookup_retry_witness :
  (exists st1,
     @resolveFrom legacy_sections 1 0 [schorbach] (@initialState legacy_sections tt)
     = @resolveFrom legacy_sections 0 1 [schorbach_resolved] st1
     /\ published st1 = [[asLoading schorbach]; [schorbach_resolved]]
     /\ parcels st1 = [schorbach_resolved]
     /\ sent (net st1)
        = [ lit "https://geo.api.gouv.fr/communes?nom=SCHORBACH&fields=code&boost=population&limit=1";
            lit "https://apicarto.ign.fr/api/cadastre/parcelle?code_insee=57639&section=C&numero=0584";
            lit "https://apicarto.ign.fr/api/cadastre/parcelle?code_insee=57639&section=0C&numero=0584" ])
  /\ exists final st',
       @resolveFrom legacy_sections 1 0 [schorbach] (@initialState legacy_sections tt)
       = (Val final, st')
       /\ exists p',
            final !! 0 = Some p'
            /\ status p' = success
            /\ geoJson p' = Some one_parcel
            /\ inseeCode p' = Some (lit "57639").
Proof.
  eapply (proj2 (proj2 (proj2 (proj2
           (@geometry_lookup_retry legacy_sections (lit "57639") (lit "C") (lit "0584")
              (@Build_Net legacy_sections tt [commune_url (lit "SCHORBACH")])))))
          0 0 [schorbach] (@initialState legacy_sections tt) schorbach).
  - reflexivity.
  - simpl. lia.
  - reflexivity.
  - reflexivity.
  - reflexivity.
  - discriminate.
  - reflexivity.
  - reflexivity.
  - reflexivity.
  - reflexivity.
  - reflexivity.
  - reflexivity.
  - reflexivity.
Defined.

(** C9, counterexample.  A response that is not OK is not always mapped
    to null: for the one-character section C the first response is not
    OK, and the lookup returns the parcel that the retry for section 0C
    yields. *)
Lemma non_ok_response_not_null :
  let url := geometry_request (lit "57639") (lit "C") (lit "0584") in
  let n := @Build_Net legacy_sections tt [] in
  (exists r1, @fetch_in legacy_sections url tt = (Responded r1, tt) /\ ok r1 = false)
  /\ fst (@getParcelGeometry legacy_sections (lit "57639") (lit "C") (lit "0584") n)
     = Val (JGeo one_parcel)
  /\ fst (@getParcelGeometry legacy_sections (lit "57639") (lit "C") (lit "0584") n)
     <> Val JNull.
Proof.
  cbn zeta. split; [eexists; split; reflexivity|].
  split; [reflexivity | discriminate].
Qed.

(** C9, amended.  Neither lookup ever throws: each returns a value in
    every state of the network.  Whenever the body of a lookup throws
    (a transport error, a body that does not parse), the result is null.
    [getInseeCode] returns null for a response that is not OK and for an
    empty result set.  [getParcelGeometry] returns null for a first
    response that is not OK when the section has not exactly one
    character; when it has, the one retry decides: its body when the
    retry is answered OK and parses, null when the retry is not OK, does
    not parse or meets a transport error.  Hence the loop over the records
    always returns, and a run that starts from the extracted triples
    always completes. *)
Theorem lookups_never_throw :
  forall `{Env},
    (forall communeName n, exists v n', getInseeCode communeName n = (Val v, n'))
    /\ (forall insee section numero n,
          exists v n', getParcelGeometry insee section numero n = (Val v, n'))
    /\ (forall communeName n e n',
          getInseeCode_try communeName n = (Throw e, n') ->
          getInseeCode communeName n = (Val None, n'))
    /\ (forall communeName (n : Net) url w',
          commune_lookup_fails communeName (world n) url w' ->
          getInseeCode communeName n
          = (Val None, {| world := w'; sent := sent n ++ [url] |}))
    /\ (forall communeName (n : Net) q r e w',
          encodeURIComponent communeName = Val q ->
          fetch_in (commune_url q) (world n) = (Responded r, w') ->
          ok r = true ->
          json r = Throw e ->
          fst (getInseeCode communeName n) = Val None)
    /\ (forall insee section numero n e n',
          getParcelGeometry_try insee section numero n = (Throw e, n') ->
          getParcelGeometry insee section numero n = (Val JNull, n'))
    /\ (forall insee section numero (n : Net),
          let url := geometry_request insee section (zero_padded numero) in
          let retryUrl :=
            geometry_request insee (lit "0" ++ section) (zero_padded numero) in
          (forall e w1,
             fetch_in url (world n) = (Rejected e, w1) ->
             fst (getParcelGeometry insee section numero n) = Val JNull)
          /\ (forall r1 e w1,
                fetch_in url (world n) = (Responded r1, w1) ->
                ok r1 = true ->
                json r1 = Throw e ->
                fst (getParcelGeometry insee section numero n) = Val JNull)
          /\ (forall r1 w1,
                fetch_in url (world n) = (Responded r1, w1) ->
                ok r1 = false ->
                length section <> 1 ->
                fst (getParcelGeometry insee section numero n) = Val JNull)
          /\ (forall r1 w1 o2 w2,
                fetch_in url (world n) = (Responded r1, w1) ->
                ok r1 = false ->
                length section = 1 ->
                fetch_in retryUrl w1 = (o2, w2) ->
                fst (getParcelGeometry insee section numero n)
                = Val (match o2 with
                       | Rejected _ => JNull
                       | Responded r2 =>
                           if ok r2
                           then match json r2 with Val j => j | Throw _ => JNull end
                           else JNull
                       end)))
    /\ (forall n i up st,
          i + n <= length up ->
          exists final st', resolveFrom n i up st = (Val final, st'))
    /\ (forall parsedRaw st,
          exists st', resolveRun parsedRaw st = (Val tt, st')
                      /\ appStatus st' = COMPLETED).
Proof.
  intros E.
  split; [apply getInseeCode_returns|].
  split; [apply getParcelGeometry_returns|].
  split; [intros ? ? ? ?; apply try_catch_throw|].
  split; [apply getInseeCode_not_found|].
  split.
  { intros communeName n q r e w' Hq Hf Hok Hj.
    now rewrite (getInseeCode_unparsable _ _ _ _ _ _ Hq Hf Hok Hj). }
  split; [intros ? ? ? ? ? ?; apply try_catch_throw|].
  split.
  { intros insee section numero n url retryUrl.
    destruct (parcelle_url_text insee section numero) as [Hurl Hretry].
    change (parcelle_url insee section (padStart 4 48 numero) = url) in Hurl.
    change (parcelle_url insee (48%N :: section) (padStart 4 48 numero) = retryUrl)
      in Hretry.
    rewrite <- Hurl, <- Hretry. repeat split.
    - intros e w1 Hf. now rewrite (getParcelGeometry_rejected _ _ _ _ _ _ Hf).
    - intros r1 e w1 Hf Hok Hj.
      now rewrite (getParcelGeometry_ok _ _ _ _ _ _ Hf Hok), Hj.
    - intros r1 w1 Hf Hok Hlen.
      now rewrite (getParcelGeometry_no_retry _ _ _ _ _ _ Hf Hok Hlen).
    - intros r1 w1 o2 w2 Hf Hok Hlen Hr.
      now rewrite (getParcelGeometry_retry _ _ _ _ _ _ _ _ Hf Hok Hlen Hr). }
  split.
  { intros n i up st Hlen.
    destruct (resolveFrom_returns n i up st Hlen) as (final & st' & Erun & _).
    eauto. }
  apply resolveRun_completes.
Qed.

Lemma lookups_never_throw_witness :
  fst (@getParcelGeometry legacy_sections (lit "57639") (lit "C") (lit "0584")
         (@Build_Net legacy_sections tt []))
  = Val (JGeo one_parcel).
Proof.
  apply (proj2 (proj2 (proj2
           (proj1 (proj2 (proj2 (proj2 (proj2 (proj2 (proj2
              (@lookups_never_throw legacy_sections)))))))
              (lit "57639") (lit "C") (lit "0584") (@Build_Net legacy_sections tt []))))
           {| ok := false; json := Throw {| message := lit "Unexpected token" |} |} tt
           (Responded {| ok := true; json := Val (JGeo one_parcel) |}) tt).
  - reflexivity.
  - reflexivity.
  - reflexivity.
  - reflexivity.
Defined.

(* ===================================================================== *)
(** * The extractor on arbitrary text                                   *)
(* ===================================================================== *)

Section MatcherLemmas.
Variable ic : bool.

Lemma rep_inv (cl : cclass) (greedy : bool) (k : cont) :
  forall (s : jstring) (lo : nat) (hi : option nat) (pos : nat) (c : captures) out,
    rep ic cl greedy k lo hi pos s c = Some out ->
    exists n,
      n <= length s
      /\ lo <= n
      /\ match hi with Some h => n <= h | None => True end
      /\ Forall (fun ch => class_matches ic cl ch = true) (firstn n s)
      /\ k (pos + n) (skipn n s) c = Some out.
Proof.
  induction s as [|ch s IH]; intros lo hi pos c out Hrun.
  - destruct lo as [|lo]; cbn in Hrun.
    + exists 0. rewrite Nat.add_0_r. cbn [length firstn skipn].
      split; [lia|]. split; [lia|]. split; [destruct hi; [lia | exact I]|].
      split; [constructor|].
      destruct greedy; unfold orelse in Hrun; [exact Hrun|].
      now destruct (k pos [] c).
    + discriminate.
  - assert (forall out',
               (if (hi_allows hi && class_matches ic cl ch)%bool
                then rep ic cl greedy k (pred lo) (option_map pred hi) (S pos) s c
                else None) = Some out' ->
               exists n,
                 n <= length (ch :: s) /\ lo <= n
                 /\ match hi with Some h => n <= h | None => True end
                 /\ Forall (fun ch => class_matches ic cl ch = true) (firstn n (ch :: s))
                 /\ k (pos + n) (skipn n (ch :: s)) c = Some out') as Hmore.
    { intros out' Hm.
      destruct (hi_allows hi) eqn:Eh; [|discriminate].
      destruct (class_matches ic cl ch) eqn:Ec; [|discriminate].
      cbn [andb] in Hm. apply IH in Hm as (n & Hn & Hlo & Hhi & Hall & Hk).
      exists (S n). cbn [length firstn skipn].
      split; [lia|]. split; [lia|].
      split; [destruct hi as [[|h]|]; cbn in *; try discriminate; try lia; exact I|].
      split; [constructor; assumption|].
      now replace (pos + S n) with (S pos + n) by lia. }
    assert (lo = 0 -> k pos (ch :: s) c = Some out ->
            exists n,
              n <= length (ch :: s) /\ lo <= n
              /\ match hi with Some h => n <= h | None => True end
              /\ Forall (fun ch => class_matches ic cl ch = true) (firstn n (ch :: s))
              /\ k (pos + n) (skipn n (ch :: s)) c = Some out) as Hstop.
    { intros -> Hk. exists 0. rewrite Nat.add_0_r. cbn [firstn skipn length].
      split; [lia|]. split; [lia|]. split; [destruct hi; [lia | exact I]|].
      split; [constructor | exact Hk]. }
    destruct lo as [|lo]; cbn [rep] in Hrun.
    + destruct greedy; unfold orelse in Hrun.
      * match type of Hrun with
        | match ?m with _ => _ end = _ => destruct m as [o|] eqn:Em
        end.
        -- injection Hrun as ->. now apply Hmore.
        -- now apply Hstop.
      * destruct (k pos (ch :: s) c) as [o|] eqn:Ek.
        -- injection Hrun as ->. now apply Hstop.
        -- now apply Hmore.
    + now apply Hmore.
Qed.

Lemma run_inv (r : regex) :
  forall (k : cont) (pos : nat) (s : jstring) (c : captures) out,
    run ic r k pos s c = Some out ->
    exists pos' s' new,
      k pos' s' (new ++ c) = Some out
      /\ Forall (fun e => cap_ok ic r (fst e) (snd e)) new
      /\ Forall (fun i => In i (map fst new)) (must r).
Proof.
  induction r as [| a | cl | r1 IH1 r2 IH2 | r1 IH1 r2 IH2 | r1 IH1
                 | cl lo hi greedy | i r1 IH1 | |];
    intros k pos s c out Hrun; cbn [run] in Hrun.
  - exists pos, s, []. now repeat split.
  - destruct s as [|ch s]; [discriminate|].
    destruct (N.eqb _ _); [|discriminate].
    exists (S pos), s, []. now repeat split.
  - destruct s as [|ch s]; [discriminate|].
    destruct (class_matches ic cl ch); [|discriminate].
    exists (S pos), s, []. now repeat split.
  - apply IH1 in Hrun as (pos1 & s1 & new1 & Hrun & Hc1 & Hm1).
    apply IH2 in Hrun as (pos2 & s2 & new2 & Hk & Hc2 & Hm2).
    exists pos2, s2, (new2 ++ new1). rewrite <- app_assoc. split; [exact Hk|]. split.
    + apply Forall_app. split.
      * eapply Forall_impl; [exact Hc2|]. intros e He. cbn. now right.
      * eapply Forall_impl; [exact Hc1|]. intros e He. cbn. now left.
    + cbn [must]. apply Forall_app. split.
      * eapply Forall_impl; [exact Hm1|]. intros j Hj. cbn in Hj.
        rewrite map_app. apply in_or_app. now right.
      * eapply Forall_impl; [exact Hm2|]. intros j Hj. cbn in Hj.
        rewrite map_app. apply in_or_app. now left.
  - unfold orelse in Hrun.
    destruct (run ic r1 k pos s c) as [o|] eqn:E1.
    + injection Hrun as ->. apply IH1 in E1 as (pos1 & s1 & new1 & Hk & Hc1 & _).
      exists pos1, s1, new1. repeat split; [exact Hk| |constructor].
      eapply Forall_impl; [exact Hc1|]. intros e He. cbn. now left.
    + apply IH2 in Hrun as (pos1 & s1 & new1 & Hk & Hc1 & _).
      exists pos1, s1, new1. repeat split; [exact Hk| |constructor].
      eapply Forall_impl; [exact Hc1|]. intros e He. cbn. now right.
  - unfold orelse in Hrun.
    destruct (run ic r1 k pos s c) as [o|] eqn:E1.
    + injection Hrun as ->. apply IH1 in E1 as (pos1 & s1 & new1 & Hk & Hc1 & _).
      exists pos1, s1, new1. repeat split; [exact Hk|exact Hc1|constructor].
    + exists pos, s, []. repeat split; [exact Hrun|constructor|constructor].
  - apply rep_inv in Hrun as (n & _ & _ & _ & _ & Hk).
    exists (pos + n), (skipn n s), []. now repeat split.
  - assert (forall m, shape ic r1 m ->
              forall pos' s' new1,
                k pos' s' ((i, m) :: new1 ++ c) = Some out ->
                Forall (fun e => cap_ok ic r1 (fst e) (snd e)) new1 ->
                Forall (fun j => In j (map fst new1)) (must r1) ->
                exists pos' s' new,
                  k pos' s' (new ++ c) = Some out
                  /\ Forall (fun e => cap_ok ic (Group i r1) (fst e) (snd e)) new
                  /\ Forall (fun j => In j (map fst new)) (must (Group i r1))) as Hgroup.
    { intros m Hshape pos' s' new1 Hk Hc1 Hm1.
      exists pos', s', ((i, m) :: new1). split; [exact Hk|]. split.
      - constructor; [cbn; now left|].
        eapply Forall_impl; [exact Hc1|]. intros e He. cbn. now right.
      - cbn [must]. constructor; [now left|].
        eapply Forall_impl; [exact Hm1|]. intros j Hj. now right. }
    destruct r1;
      try (apply IH1 in Hrun as (pos1 & s1 & new1 & Hk & Hc1 & Hm1);
           apply (Hgroup (firstn (pos1 - pos) s)) with (pos' := pos1) (s' := s1) (new1 := new1);
           [exact I | exact Hk | exact Hc1 | exact Hm1]).
    cbn [run] in Hrun. apply rep_inv in Hrun as (n & Hn & Hlo & Hhi & Hall & Hk).
    replace (pos + n - pos) with n in Hk by lia.
    apply (Hgroup (firstn n s)) with (pos' := pos + n) (s' := skipn n s) (new1 := []).
    + cbn [shape]. rewrite length_firstn, Nat.min_l by exact Hn. now repeat split.
    + exact Hk.
    + constructor.
    + constructor.
  - destruct (Nat.eqb pos 0); [|discriminate].
    exists pos, s, []. now repeat split.
  - destruct s; [|discriminate]. exists pos, [], []. now repeat split.
Qed.

Lemma exec_from_inv (r : regex) :
  forall (s : jstring) (pos : nat) (c : captures),
    exec_from ic r pos s = Some c ->
    Forall (fun e => cap_ok ic r (fst e) (snd e)) c
    /\ Forall (fun i => In i (map fst c)) (must r).
Proof.
  induction s as [|ch s IH]; intros pos c Hex; cbn [exec_from] in Hex.
  - destruct (match_here ic r pos []) as [[[e rest] c']|] eqn:Em; [|discriminate].
    injection Hex as ->. unfold match_here in Em.
    apply run_inv in Em as (pos' & s' & new & Hk & Hc & Hm).
    unfold accept in Hk. injection Hk as _ _ <-. now rewrite app_nil_r.
  - destruct (match_here ic r pos (ch :: s)) as [[[e rest] c']|] eqn:Em.
    + injection Hex as ->. unfold match_here in Em.
      apply run_inv in Em as (pos' & s' & new & Hk & Hc & Hm).
      unfold accept in Hk. injection Hk as _ _ <-. now rewrite app_nil_r.
    + now apply IH in Hex.
Qed.

End MatcherLemmas.

Lemma capture_In (i : nat) (c : captures) (m : jstring) :
  capture i c = Some m -> In (i, m) c.
Proof.
  induction c as [|[j s] c IH]; cbn; [discriminate|].
  destruct (Nat.eqb i j) eqn:E.
  - apply Nat.eqb_eq in E as ->. intros [= ->]. now left.
  - intros Hc. right. now apply IH.
Qed.

Lemma capture_Some (i : nat) (c : captures) :
  In i (map fst c) -> exists m, capture i c = Some m.
Proof.
  induction c as [|[j s] c IH]; cbn; [intros []|].
  destruct (Nat.eqb i j) eqn:E; [eauto|].
  intros [Hj|Hin]; [apply Nat.eqb_neq in E; congruence | now apply IH].
Qed.

Section ExtractorShape.

Ltac decide_cmp :=
  repeat match goal with
  | |- context [N.leb ?a ?b] =>
      first [ replace (N.leb a b) with true by (symmetry; apply N.leb_le; lia)
            | replace (N.leb a b) with false by (symmetry; apply N.leb_gt; lia) ]
  | |- context [N.eqb ?a ?b] =>
      first [ replace (N.eqb a b) with true by (symmetry; apply N.eqb_eq; lia)
            | replace (N.eqb a b) with false by (symmetry; apply N.eqb_neq; lia) ]
  end.

Lemma alnum_class_upper (c : jchar) :
  class_matches true alnum_class c = true ->
  (isUpper (upper c) || isDigit (upper c))%bool = true.
Proof.
  unfold class_matches, alnum_class, item_matches, item_has,
    isUpper, isDigit, upper, lower, isLower, isUpper, in_range;
    cbn [negated items existsb].
  assert (c < 48 \/ (48 <= c <= 57) \/ (58 <= c <= 64) \/ (65 <= c <= 90)
          \/ (91 <= c <= 96) \/ (97 <= c <= 122) \/ 122 < c)%N as Hc by lia.
  repeat (destruct Hc as [Hc|Hc]);
    decide_cmp; cbn [andb orb negb xorb]; decide_cmp;
    cbn [andb orb negb xorb]; congruence.
Qed.

Lemma digit_class_digit (c : jchar) :
  class_matches true digit_class c = true -> isDigit c = true.
Proof.
  unfold class_matches, digit_class, item_matches, item_has,
    isDigit, upper, lower, isLower, isUpper, in_range;
    cbn [negated items existsb].
  assert (c < 16 \/ (16 <= c <= 25) \/ (26 <= c <= 47) \/ (48 <= c <= 57)
          \/ (58 <= c <= 64) \/ (65 <= c <= 79) \/ (80 <= c <= 89) \/ c = 90
          \/ (91 <= c <= 96) \/ (97 <= c <= 122) \/ 122 < c)%N as Hc by lia.
  repeat (destruct Hc as [Hc|Hc]);
    decide_cmp; cbn [andb orb negb xorb]; decide_cmp;
    cbn [andb orb negb xorb]; congruence.
Qed.

(** The patterns are anchored: a match can only start at position 0. *)
Lemma anchored_exec (rest : regex) (s : jstring) :
  forall pos, 0 < pos -> exec_from true (Seq Bol rest) pos s = None.
Proof.
  induction s as [|ch s IH]; intros pos Hpos; cbn [exec_from match_here run].
  - now replace (Nat.eqb pos 0) with false by (symmetry; apply Nat.eqb_neq; lia).
  - replace (Nat.eqb pos 0) with false by (symmetry; apply Nat.eqb_neq; lia).
    apply IH. lia.
Qed.

Lemma anchored_match (rest : regex) (s : jstring) (c : captures) :
  jsmatch true (Seq Bol rest) s = Some c ->
  exists e s', run true rest accept 0 s [] = Some (e, s', c).
Proof.
  unfold jsmatch. destruct s as [|ch s]; cbn [exec_from match_here run Nat.eqb].
  - destruct (run true rest accept 0 [] []) as [[[e s'] c']|]; [|discriminate].
    intros [= ->]. eauto.
  - destruct (run true rest accept 0 (ch :: s) []) as [[[e s'] c']|].
    + intros [= ->]. eauto.
    + now rewrite anchored_exec by lia.
Qed.

(** What a match of either pattern has captured. *)
Lemma pattern_captures (p : regex) (s : jstring) (c : captures) :
  p = pattern1 \/ p = pattern2 ->
  jsmatch true p s = Some c ->
  exists n m2 m3,
    1 <= n <= length s
    /\ capture 1 c = Some (firstn n s)
    /\ capture 2 c = Some m2
    /\ capture 3 c = Some m3
    /\ 1 <= length m2 <= 2
    /\ Forall (fun ch => class_matches true alnum_class ch = true) m2
    /\ 1 <= length m3
    /\ Forall (fun ch => class_matches true digit_class ch = true) m3.
Proof.
  intros Hp Hmatch.
  assert (exists rest,
             p = Seq Bol (Seq (Group 1 (Rep dot 1 None false)) rest)
             /\ must rest = [2; 3]
             /\ (forall j m, cap_ok true rest j m ->
                   (j = 2 /\ shape true (Rep alnum_class 1 (Some 2) true) m)
                   \/ (j = 3 /\ shape true (Rep digit_class 1 None true) m)))
    as (rest & -> & Hmust & Hcap).
  { destruct Hp as [-> | ->]; eexists; (split; [reflexivity|]); split;
      try reflexivity; intros j m; cbn; intuition. }
  apply anchored_match in Hmatch as (e & s' & Hrun).
  cbn [run] in Hrun.
  apply rep_inv in Hrun as (n & Hn & Hlo & _ & _ & Hrun).
  cbn [Nat.add Nat.sub] in Hrun. rewrite Nat.sub_0_r in Hrun.
  apply run_inv in Hrun as (pos' & s'' & new & Hk & Hc & Hm).
  unfold accept in Hk. injection Hk as _ _ <-.
  rewrite Hmust in Hm.
  assert (forall j, In j [2; 3] -> exists m, capture j (new ++ [(1, firstn n s)]) = Some m
                                            /\ In (j, m) new) as Hget.
  { intros j Hj.
    destruct (capture_Some j (new ++ [(1, firstn n s)])) as [m Hcapt].
    - rewrite map_app. apply in_or_app. left.
      eapply Forall_forall in Hm; [exact Hm|]. now apply list_elem_of_In.
    - exists m. split; [exact Hcapt|].
      apply capture_In in Hcapt. apply in_app_or in Hcapt as [Hin|[Heq|[]]]; [exact Hin|].
      injection Heq as <- _. cbn in Hj. intuition discriminate. }
  assert (capture 1 (new ++ [(1, firstn n s)]) = Some (firstn n s)) as H1.
  { clear Hm Hget. induction new as [|[j m] new IH]; [reflexivity|].
    apply Forall_cons in Hc as [Hjm Hc]. cbn [app capture].
    destruct (Hcap j m Hjm) as [[-> _]|[-> _]]; cbn [Nat.eqb]; now apply IH. }
  destruct (Hget 2 ltac:(cbn; tauto)) as (m2 & Hc2 & Hin2).
  destruct (Hget 3 ltac:(cbn; tauto)) as (m3 & Hc3 & Hin3).
  exists n, m2, m3.
  pose proof (proj1 (List.Forall_forall _ _) Hc _ Hin2) as Hok2.
  pose proof (proj1 (List.Forall_forall _ _) Hc _ Hin3) as Hok3.
  cbn [fst snd] in Hok2, Hok3.
  destruct (Hcap _ _ Hok2) as [[_ (Hlo2 & Hhi2 & Hall2)]|[[=] _]].
  destruct (Hcap _ _ Hok3) as [[[=] _]|[_ (Hlo3 & _ & Hall3)]].
  repeat split; try assumption; lia.
Qed.

End ExtractorShape.

Section TrimLemmas.

Lemma trimStart_app_nonws (l : jstring) (c : jchar) :
  isWhiteSpace c = false -> trimStart (l ++ [c]) = trimStart l ++ [c].
Proof.
  intros Hc. induction l as [|x l IH]; cbn [app trimStart].
  - now rewrite Hc.
  - destruct (isWhiteSpace x); [exact IH | reflexivity].
Qed.

Lemma trimEnd_cons_nonws (c : jchar) (t : jstring) :
  isWhiteSpace c = false -> trimEnd (c :: t) = c :: trimEnd t.
Proof.
  intros Hc. unfold trimEnd. cbn [rev].
  rewrite trimStart_app_nonws by exact Hc. now rewrite rev_app_distr.
Qed.

Lemma trimStart_head (s : jstring) :
  trimStart s = [] \/ exists c t, trimStart s = c :: t /\ isWhiteSpace c = false.
Proof.
  induction s as [|x s IH]; cbn [trimStart]; [now left|].
  destruct (isWhiteSpace x) eqn:E; [exact IH|]. right. eauto.
Qed.

Lemma trim_head (s : jstring) :
  trim s = [] \/ exists c t, trim s = c :: t /\ isWhiteSpace c = false.
Proof.
  unfold trim. destruct (trimStart_head s) as [-> | (c & t & -> & Hc)].
  - now left.
  - right. rewrite trimEnd_cons_nonws by exact Hc. eauto.
Qed.

Lemma trim_prefix_head (s : jstring) (n : nat) :
  1 <= n <= length (trim s) ->
  exists c t, trim (firstn n (trim s)) = c :: t /\ isWhiteSpace c = false.
Proof.
  intros Hn. destruct (trim_head s) as [E | (c & t & E & Hc)].
  - rewrite E in Hn. cbn in Hn. lia.
  - rewrite E. destruct n as [|n]; [lia|]. cbn [firstn].
    unfold trim at 1. cbn [trimStart]. rewrite Hc.
    rewrite trimEnd_cons_nonws by exact Hc. eauto.
Qed.

Lemma trimStart_blank (s : jstring) :
  Forall (fun c => isWhiteSpace c = true) s -> trimStart s = [].
Proof.
  induction 1 as [|c s Hc _ IH]; cbn [trimStart]; [reflexivity|]. now rewrite Hc.
Qed.

Lemma trim_blank (s : jstring) :
  Forall (fun c => isWhiteSpace c = true) s -> trim s = [].
Proof. intros Hs. unfold trim. now rewrite trimStart_blank. Qed.

End TrimLemmas.

Section ExtractorLemmas.

Lemma to_query_shape (p : regex) (line : jstring) (c : captures) :
  p = pattern1 \/ p = pattern2 ->
  jsmatch true p (trim line) = Some c ->
  let q := to_query c in
  (exists ch rest, RegexService.communeName q = ch :: rest /\ isWhiteSpace ch = false)
  /\ 1 <= length (RegexService.section q) <= 2
  /\ Forall (fun ch => (isUpper ch || isDigit ch)%bool = true) (RegexService.section q)
  /\ 1 <= length (RegexService.numero q)
  /\ Forall (fun ch => isDigit ch = true) (RegexService.numero q).
Proof.
  intros Hp Hmatch.
  destruct (pattern_captures p _ c Hp Hmatch)
    as (n & m2 & m3 & Hn & H1 & H2 & H3 & Hl2 & Ha2 & Hl3 & Ha3).
  unfold to_query, group. rewrite H1, H2, H3. cbn.
  split; [now apply trim_prefix_head|].
  unfold toUpperCase. rewrite length_map. split; [exact Hl2|]. split.
  - clear Hl2 H2. induction Ha2 as [|ch m2 Hch _ IH]; cbn [map]; constructor.
    + now apply alnum_class_upper.
    + exact IH.
  - split; [exact Hl3|].
    eapply Forall_impl; [exact Ha3|]. intros ch. apply digit_class_digit.
Qed.

Lemma split_app (sep : jchar) (a b : jstring) :
  split sep (a ++ sep :: b) = split sep a ++ split sep b.
Proof.
  induction a as [|c a IH]; cbn [app split].
  - unfold jchar_eqb. now rewrite N.eqb_refl.
  - destruct (jchar_eqb c sep); rewrite IH; [reflexivity|].
    destruct (split sep a) as [|piece rest] eqn:E; [|reflexivity].
    destruct a; cbn in E; [discriminate|].
    destruct (jchar_eqb _ sep); [discriminate|].
    now destruct (split sep a).
Qed.

Lemma parse_line_length (line : jstring) : length (parse_line line) <= 1.
Proof.
  unfold parse_line.
  destruct (jsmatch true pattern1 (trim line)); [cbn; lia|].
  destruct (jsmatch true pattern2 (trim line)); cbn; lia.
Qed.

Lemma flat_map_parse_length (lines : list jstring) :
  length (flat_map parse_line lines) <= length lines.
Proof.
  induction lines as [|l lines IH]; cbn [flat_map length]; [lia|].
  rewrite length_app. pose proof (parse_line_length l). lia.
Qed.

End ExtractorLemmas.

(** X1. Whatever the text, every query the deterministic extractor
    returns has a commune name that starts with a character other than
    white space, a section of one or two characters that are upper-case
    letters or digits, and a number that is a non-empty run of digits. *)
Theorem extractor_output_shape :
  forall inputText : jstring,
    Forall (fun q =>
              (exists ch rest,
                  RegexService.communeName q = ch :: rest
                  /\ isWhiteSpace ch = false)
              /\ 1 <= length (RegexService.section q) <= 2
              /\ Forall (fun ch => (isUpper ch || isDigit ch)%bool = true)
                        (RegexService.section q)
              /\ 1 <= length (RegexService.numero q)
              /\ Forall (fun ch => isDigit ch = true) (RegexService.numero q))
           (parseParcelTextRegex inputText).
Proof.
  intros inputText. unfold parseParcelTextRegex.
  induction (List.filter _ (split 10 inputText)) as [|line lines IH];
    cbn [flat_map]; [constructor|].
  apply Forall_app. split; [|exact IH].
  unfold parse_line.
  destruct (jsmatch true pattern1 (trim line)) as [c|] eqn:E1.
  - constructor; [|constructor].
    apply (to_query_shape pattern1 line c); [now left | exact E1].
  - destruct (jsmatch true pattern2 (trim line)) as [c|] eqn:E2; [|constructor].
    constructor; [|constructor].
    apply (to_query_shape pattern2 line c); [now right | exact E2].
Qed.

(** X2. The extractor works line by line: the queries of two texts joined
    by a line feed are the queries of the first followed by those of the
    second, and a text never yields more queries than it has lines. *)
Theorem extractor_line_by_line :
  forall a b : jstring,
    parseParcelTextRegex (a ++ [10%N] ++ b)
    = parseParcelTextRegex a ++ parseParcelTextRegex b
    /\ length (parseParcelTextRegex a) <= length (split 10 a).
Proof.
  intros a b. unfold parseParcelTextRegex. split.
  - cbn [app]. rewrite split_app, List.filter_app, flat_map_app. reflexivity.
  - etransitivity; [apply flat_map_parse_length|]. apply List.filter_length_le.
Qed.

(* ===================================================================== *)
(** * Runs that resolve nothing                                         *)
(* ===================================================================== *)

(** X3. [handleProcess] on a text made of white space only returns at
    once and leaves the whole state as it was, in either parsing mode. *)
Theorem handleProcess_blank :
  forall `{Env} (useAiParsing : bool) (inputText : jstring) (st : AppState),
    Forall (fun c => isWhiteSpace c = true) inputText ->
    handleProcess useAiParsing inputText st = (Val tt, st).
Proof.
  intros E useAiParsing inputText st Hblank.
  unfold handleProcess. now rewrite trim_blank.
Qed.

Lemma handleProcess_blank_witness :
  @handleProcess no_commune true (lit "  " ++ [10%N; 9%N])
    (@initialState no_commune tt)
  = (Val tt, @initialState no_commune tt).
Proof.
  apply (@handleProcess_blank no_commune).
  repeat constructor.
Defined.

(** X4. In regex mode, a non-blank text in which the extractor finds no
    parcel ends the run in the IDLE state with the "No parcels detected"
    message: the list of records is emptied once, the selection and the
    measurement set are cleared, and the network is not touched. *)
Theorem handleProcess_regex_no_match :
  forall `{Env} (inputText : jstring) (st : AppState),
    trim inputText <> [] ->
    parseParcelTextRegex inputText = [] ->
    exists st',
      handleProcess false inputText st = (Val tt, st')
      /\ appStatus st' = IDLE
      /\ progressMessage st'
         = lit "No parcels detected using Regex mode. Try checking your format or enable AI analysis."
      /\ parcels st' = []
      /\ published st' = published st ++ [[]]
      /\ net st' = net st
      /\ selectedParcelId st' = None
      /\ measurementsVisibleIds st' = [].
Proof.
  intros E inputText st Htrim Hparse.
  unfold handleProcess. destruct (trim inputText) as [|c t]; [congruence|].
  unfold try_catch, extract, bind, setAppStatus, setParcels, setSelectedParcelId,
    setMeasurementsVisibleIds, setProgressMessage, modify, throw.
  rewrite Hparse. cbn.
  eexists. split; [reflexivity|]. cbn. repeat split.
Qed.

Lemma handleProcess_regex_no_match_witness :
  exists st',
    @handleProcess no_commune false example1 (@initialState no_commune tt) = (Val tt, st')
    /\ appStatus st' = IDLE
    /\ progressMessage st'
       = lit "No parcels detected using Regex mode. Try checking your format or enable AI analysis."
    /\ parcels st' = []
    /\ published st' = @published no_commune (@initialState no_commune tt) ++ [[]]
    /\ net st' = net (@initialState no_commune tt)
    /\ selectedParcelId st' = None
    /\ measurementsVisibleIds st' = [].
Proof.
  apply (@handleProcess_regex_no_match no_commune example1).
  - vm_compute. discriminate.
  - vm_compute. reflexivity.
Defined.

(** X5. In AI mode, when the remote extraction throws, [handleProcess]
    catches the error and ends in the IDLE state; the message shown is the
    error's message, or the default text when that message is empty, and
    no request is sent to the cadastre services. *)
Theorem handleProcess_remote_failure :
  forall `{Env} (inputText : jstring) (st : AppState) (e : JsError) (w' : World),
    trim inputText <> [] ->
    remote_extract inputText (world (net st)) = (Throw e, w') ->
    exists st',
      handleProcess true inputText st = (Val tt, st')
      /\ appStatus st' = IDLE
      /\ progressMessage st'
         = match message e with
           | [] => lit "An error occurred during processing."
           | m => m
           end
      /\ parcels st' = []
      /\ published st' = published st ++ [[]]
      /\ sent (net st') = sent (net st)
      /\ world (net st') = w'.
Proof.
  intros E inputText st e w' Htrim Hx.
  unfold handleProcess. destruct (trim inputText) as [|c t]; [congruence|].
  unfold try_catch, extract, bind, setAppStatus, setParcels, setSelectedParcelId,
    setMeasurementsVisibleIds, setProgressMessage, modify, parseParcelText,
    service, zoom.
  cbn [net world sent]. rewrite Hx. cbn.
  eexists. split; [reflexivity|]. cbn. repeat split.
Qed.

Lemma handleProcess_remote_failure_witness :
  exists st',
    @handleProcess extractor_down true (lit "SCHORBACH C 584")
      (@initialState extractor_down tt) = (Val tt, st')
    /\ appStatus st' = IDLE
    /\ progressMessage st' = lit "503"
    /\ parcels st' = []
    /\ published st' = @published extractor_down (@initialState extractor_down tt) ++ [[]]
    /\ sent (net st') = sent (net (@initialState extractor_down tt))
    /\ world (net st') = tt.
Proof.
  apply (@handleProcess_remote_failure extractor_down (lit "SCHORBACH C 584")
           (@initialState extractor_down tt) {| message := lit "503" |} tt).
  - vm_compute. discriminate.
  - reflexivity.
Defined.

(** X6. In AI mode, when the remote extraction returns no parcel, the
    run is not stopped as it is in regex mode: the empty list is published
    twice and the run ends in the COMPLETED state with "Processing
    complete.", without any request. *)
Theorem handleProcess_remote_empty :
  forall `{Env} (inputText : jstring) (st : AppState) (w' : World),
    trim inputText <> [] ->
    remote_extract inputText (world (net st)) = (Val [], w') ->
    exists st',
      handleProcess true inputText st = (Val tt, st')
      /\ appStatus st' = COMPLETED
      /\ progressMessage st' = lit "Processing complete."
      /\ parcels st' = []
      /\ published st' = published st ++ [[]; []]
      /\ sent (net st') = sent (net st).
Proof.
  intros E inputText st w' Htrim Hx.
  unfold handleProcess. destruct (trim inputText) as [|c t]; [congruence|].
  unfold try_catch, extract, resolveRun, resolveAll, bind, setAppStatus, setParcels,
    setSelectedParcelId, setMeasurementsVisibleIds, setProgressMessage, modify,
    parseParcelText, service, zoom.
  cbn [net world sent]. rewrite Hx. cbn.
  eexists. split; [reflexivity|]. cbn. rewrite <- app_assoc. repeat split.
Qed.

Lemma handleProcess_remote_empty_witness :
  exists st',
    @handleProcess no_commune true (lit "hello") (@initialState no_commune tt) = (Val tt, st')
    /\ appStatus st' = COMPLETED
    /\ progressMessage st' = lit "Processing complete."
    /\ parcels st' = []
    /\ published st' = @published no_commune (@initialState no_commune tt) ++ [[]; []]
    /\ sent (net st') = sent (net (@initialState no_commune tt)).
Proof.
  apply (@handleProcess_remote_empty no_commune (lit "hello") (@initialState no_commune tt) tt).
  - vm_compute. discriminate.
  - reflexivity.
Defined.

(* ===================================================================== *)
(** * Invariants of the resolution loop                                 *)
(* ===================================================================== *)

Section RunProperties.
Context `{Env}.

Lemma map_insert_same {A B} (f : A -> B) (l : list A) (i : nat) (x p : A) :
  l !! i = Some p -> f x = f p -> map f (<[i := x]> l) = map f l.
Proof.
  revert i. induction l as [|a l IH]; intros [|i] Hp Hf; cbn in *; try discriminate.
  - injection Hp as ->. now rewrite Hf.
  - f_equal. now apply IH.
Qed.

Lemma identity_insert (l : list ParsedParcel) (i : nat) (x y p : ParsedParcel) :
  l !! i = Some p -> identity x = identity p -> identity y = identity p ->
  map identity (<[i := x]> (<[i := y]> l)) = map identity l
  /\ map identity (<[i := y]> l) = map identity l.
Proof.
  intros Hp Hx Hy.
  assert (map identity (<[i := y]> l) = map identity l) as E
    by now apply (map_insert_same identity l i y p).
  split; [|exact E]. rewrite <- E.
  apply (map_insert_same identity _ i x y).
  - apply list_lookup_insert_eq. now apply lookup_lt_Some in Hp.
  - congruence.
Qed.

(** Every list published by the loop, and its result, hold the same
    records as the array it started from. *)
Lemma resolveFrom_identity (n : nat) :
  forall (i : nat) (up : list ParsedParcel) (st : AppState) r st',
    resolveFrom n i up st = (r, st') ->
    exists new,
      published st' = published st ++ new
      /\ Forall (fun l => map identity l = map identity up) new
      /\ (forall final, r = Val final -> map identity final = map identity up).
Proof.
  induction n as [|n IH]; intros i up st r st'.
  - intros [= <- <-]. exists []. rewrite app_nil_r. repeat split; [constructor|].
    now intros final [= <-].
  - destruct (up !! i) as [p|] eqn:Hp.
    2:{ cbn [resolveFrom]. rewrite Hp. intros [= <- <-]. exists [].
        rewrite app_nil_r. repeat split; [constructor | discriminate]. }
    destruct (resolveFrom_turn n i up st p Hp) as (insee & n1 & _ & Hturn).
    destruct (truthy insee) as [code|].
    + destruct Hturn as (geo & n2 & _ & ->).
      set (x := match hasFeatures geo with
                | Some g => asSuccess p code g
                | None => asGeometryNotFound p code
                end).
      assert (identity x = identity p) as Hx by (unfold x; now destruct (hasFeatures geo)).
      destruct (identity_insert up i x (asLoading p) p Hp Hx eq_refl) as [E2 E1].
      replace (match hasFeatures geo with
               | Some g => <[i := asSuccess p code g]> (<[i := asLoading p]> up)
               | None => <[i := asGeometryNotFound p code]> (<[i := asLoading p]> up)
               end) with (<[i := x]> (<[i := asLoading p]> up))
        by (unfold x; now destruct (hasFeatures geo)).
      intros Hrun. apply IH in Hrun as (new & Hpub & Hnew & Hfin).
      exists ([<[i := asLoading p]> up; <[i := x]> (<[i := asLoading p]> up)] ++ new).
      split; [|split].
      * rewrite Hpub. cbn. now rewrite <- !app_assoc.
      * constructor; [exact E1|]. constructor; [exact E2|].
        eapply Forall_impl; [exact Hnew|]. intros l Hl. now rewrite Hl.
      * intros final Hf. now rewrite (Hfin final Hf).
    + rewrite Hturn. intros Hrun.
      destruct (identity_insert up i (asCommuneNotFound p) (asLoading p) p Hp eq_refl eq_refl)
        as [E2 E1].
      apply IH in Hrun as (new & Hpub & Hnew & Hfin).
      exists ([<[i := asLoading p]> up] ++ new).
      split; [|split].
      * rewrite Hpub. cbn. now rewrite <- !app_assoc.
      * constructor; [exact E1|].
        eapply Forall_impl; [exact Hnew|]. intros l Hl. now rewrite Hl.
      * intros final Hf. now rewrite (Hfin final Hf).
Qed.

Lemma initialParcelsFrom_queries (parsedRaw : list ParcelQuery) :
  forall idx st ps st',
    initialParcelsFrom idx parsedRaw st = (Val ps, st') ->
    map queryOf ps = parsedRaw /\ published st' = published st.
Proof.
  induction parsedRaw as [|q rest IH]; intros idx st ps st'.
  - intros [= <- <-]. now split.
  - cbn [initialParcelsFrom]. unfold bind at 1. unfold initialParcel, bind at 1.
    destruct (dateNow_run st) as (t & n1 & ->).
    unfold ret at 1. unfold bind at 1.
    destruct (initialParcelsFrom (S idx) rest (set_net n1 st)) as [[rs|e] st2] eqn:E;
      [|discriminate].
    apply IH in E as [Hq Hp]. intros [= <- <-]. split.
    + cbn [map]. rewrite Hq. now destruct q.
    + exact Hp.
Qed.

Lemma map_queryOf_identity (l l' : list ParsedParcel) :
  map identity l = map identity l' -> map queryOf l = map queryOf l'.
Proof.
  intros E. apply (f_equal (map snd)) in E. now rewrite !map_map in E.
Qed.

End RunProperties.

(** X7. Every list published during a resolution run holds, in order and
    position for position, exactly the queries that were extracted: the
    loop never adds, drops or reorders a record and never alters its
    commune name, section or number. *)
Theorem run_keeps_queries :
  forall `{Env} (parsedRaw : list ParcelQuery) (st : AppState),
  exists new,
    published (snd (resolveRun parsedRaw st)) = published st ++ new
    /\ Forall (fun l => map queryOf l = parsedRaw) new.
Proof.
  intros E parsedRaw st. unfold resolveRun. unfold bind at 1.
  destruct (initialParcelsFrom_run parsedRaw 0 st) as (ps & n0 & Hini & _ & _).
  rewrite Hini. apply initialParcelsFrom_queries in Hini as [Hq _].
  unfold bind at 1, setParcels at 1, modify at 1.
  unfold bind at 1, setAppStatus at 1, modify at 1.
  unfold bind at 1, setProgressMessage at 1, modify at 1.
  unfold bind at 1.
  match goal with |- context [resolveAll ps ?s] =>
    destruct (resolveAll ps s) as [r st3] eqn:Er;
    apply resolveFrom_identity in Er as (new & Hpub & Hnew & _) end.
  exists (ps :: new). split.
  - destruct r as [final|e]; cbn in *; rewrite Hpub; now rewrite <- app_assoc.
  - constructor; [exact Hq|].
    eapply Forall_impl; [exact Hnew|]. intros l Hl.
    now rewrite (map_queryOf_identity _ _ Hl).
Qed.

Section SettledLemmas.
Context `{Env}.

Lemma settled_before_step (i : nat) (l : list ParsedParcel) (x y : ParsedParcel) :
  settled_before i l -> settled x ->
  settled_before (S i) (<[i := x]> (<[i := y]> l)).
Proof.
  intros Hinv Hx j q Hq.
  destruct (Nat.eq_dec i j) as [<-|Hne].
  - apply list_lookup_insert_Some in Hq as [(_ & <- & _)|(Hne & _)]; [|congruence].
    now replace (Nat.ltb i (S i)) with true by (symmetry; apply Nat.ltb_lt; lia).
  - rewrite !list_lookup_insert_ne in Hq by exact Hne.
    specialize (Hinv j q Hq).
    destruct (Nat.ltb j i) eqn:E.
    + apply Nat.ltb_lt in E.
      now replace (Nat.ltb j (S i)) with true by (symmetry; apply Nat.ltb_lt; lia).
    + apply Nat.ltb_ge in E.
      now replace (Nat.ltb j (S i)) with false by (symmetry; apply Nat.ltb_ge; lia).
Qed.

Lemma settled_asCommuneNotFound p : pristine p -> settled (asCommuneNotFound p).
Proof.
  intros (_ & Hc & Hg & _). right. left. cbn. now repeat split.
Qed.

Lemma settled_asGeometryNotFound p code :
  pristine p -> settled (asGeometryNotFound p code).
Proof.
  intros (_ & _ & Hg & _). right. right. cbn. repeat split; [eexists; reflexivity | exact Hg].
Qed.

Lemma settled_asSuccess p code g : pristine p -> settled (asSuccess p code g).
Proof.
  intros (_ & _ & _ & He). left. cbn.
  repeat split; try (eexists; reflexivity); exact He.
Qed.

Lemma resolveFrom_shown (n : nat) :
  forall (i : nat) (up : list ParsedParcel) (st : AppState),
    i + n = length up ->
    settled_before i up ->
    shown_before i up (parcels st) ->
    exists final st',
      resolveFrom n i up st = (Val final, st')
      /\ length (parcels st') = length up
      /\ forall j q, parcels st' !! j = Some q ->
           settled q \/ (S j = length up /\ left_loading q).
Proof.
  induction n as [|n IH]; intros i up st Hlen Hinv [Hl Hshown].
  - exists up, st. split; [reflexivity|]. split; [exact Hl|].
    intros j q Hq. destruct (Hshown j q Hq) as [Hup|[Hj Hload]].
    + left. specialize (Hinv j q Hup). apply lookup_lt_Some in Hup.
      now replace (Nat.ltb j i) with true in Hinv by (symmetry; apply Nat.ltb_lt; lia).
    + right. split; [lia | exact Hload].
  - destruct (lookup_lt_is_Some_2 up i ltac:(lia)) as [p Hp].
    assert (pristine p) as Hnew.
    { specialize (Hinv i p Hp). now rewrite Nat.ltb_irrefl in Hinv. }
    destruct (resolveFrom_turn n i up st p Hp) as (insee & n1 & _ & Hturn).
    destruct (truthy insee) as [code|].
    + destruct Hturn as (geo & n2 & _ & ->).
      set (x := match hasFeatures geo with
                | Some g => asSuccess p code g
                | None => asGeometryNotFound p code
                end).
      assert (settled x) as Hx
        by (unfold x; destruct (hasFeatures geo);
            [now apply settled_asSuccess | now apply settled_asGeometryNotFound]).
      replace (match hasFeatures geo with
               | Some g => <[i := asSuccess p code g]> (<[i := asLoading p]> up)
               | None => <[i := asGeometryNotFound p code]> (<[i := asLoading p]> up)
               end) with (<[i := x]> (<[i := asLoading p]> up))
        by (unfold x; now destruct (hasFeatures geo)).
      match goal with |- context [resolveFrom n (S i) ?l ?s] =>
        destruct (IH (S i) l s) as (final & st' & E & Hl' & Hs) end.
      * rewrite !length_insert. lia.
      * now apply settled_before_step.
      * split; [reflexivity|]. intros j q Hq. now left.
      * exists final, st'. rewrite !length_insert in Hl', Hs. now repeat split.
    + rewrite Hturn.
      match goal with |- context [resolveFrom n (S i) ?l ?s] =>
        destruct (IH (S i) l s) as (final & st' & E & Hl' & Hs) end.
      * rewrite !length_insert. lia.
      * apply settled_before_step; [exact Hinv | now apply settled_asCommuneNotFound].
      * split; [cbn; now rewrite !length_insert|].
        intros j q Hq. cbn in Hq.
        destruct (Nat.eq_dec j i) as [->|Hne].
        -- rewrite list_lookup_insert_eq in Hq by (apply lookup_lt_Some in Hp; lia).
           injection Hq as <-. right. split; [reflexivity|].
           destruct Hnew as (_ & Hc & Hg & He). now repeat split.
        -- left. now rewrite list_lookup_insert_ne by lia.
      * exists final, st'. rewrite !length_insert in Hl', Hs. now repeat split.
Qed.

Lemma resolveRun_shown (parsedRaw : list ParcelQuery) (st : AppState) r st' :
  resolveRun parsedRaw st = (r, st') ->
  length (parcels st') = length parsedRaw
  /\ forall j q, parcels st' !! j = Some q ->
       settled q \/ (S j = length parsedRaw /\ left_loading q).
Proof.
  unfold resolveRun. unfold bind at 1.
  destruct (initialParcelsFrom_run parsedRaw 0 st) as (ps & n0 & -> & Hps & Hlen).
  unfold bind at 1, setParcels at 1, modify at 1.
  unfold bind at 1, setAppStatus at 1, modify at 1.
  unfold bind at 1, setProgressMessage at 1, modify at 1.
  unfold bind at 1.
  match goal with |- context [resolveAll ps ?s] =>
    destruct (resolveFrom_shown (length ps) 0 ps s eq_refl)
      as (final & st3 & E & Hl & Hs) end.
  - intros j q Hq. cbn. eapply Forall_lookup_1; eauto.
  - split; [reflexivity|]. intros j q Hq. now left.
  - unfold resolveAll. rewrite E. intros [= _ <-]. cbn. rewrite <- Hlen. now split.
Qed.

(** ** Requests *)

Lemma getInseeCode_sent (communeName : jstring) (n : Net) r n' :
  getInseeCode communeName n = (r, n') ->
  exists reqs, sent n' = sent n ++ reqs /\ length reqs <= 1.
Proof.
  unfold getInseeCode, try_catch, getInseeCode_try, bind, of_result.
  destruct (encodeURIComponent communeName) as [q|e].
  - destruct (fetch (commune_url q) n) as [[resp|e] n1] eqn:Ef;
      apply fetch_sent in Ef.
    + destruct (negb (ok resp)); unfold ret.
      * intros [= _ <-]. exists [commune_url q]. now split.
      * destruct (json resp) as [[| [|d l] |g]|e]; intros [= _ <-];
          exists [commune_url q]; now split.
    + unfold ret. intros [= _ <-]. exists [commune_url q]. now split.
  - unfold ret. intros [= _ <-]. exists []. rewrite app_nil_r. split; [reflexivity|cbn; lia].
Qed.

Lemma resolveFrom_requests (n : nat) :
  forall (i : nat) (up : list ParsedParcel) (st : AppState) r st',
    resolveFrom n i up st = (r, st') ->
    exists reqs, sent (net st') = sent (net st) ++ reqs /\ length reqs <= 3 * n.
Proof.
  induction n as [|n IH]; intros i up st r st'.
  - intros [= _ <-]. exists []. rewrite app_nil_r. split; [reflexivity | cbn; lia].
  - destruct (up !! i) as [p|] eqn:Hp.
    2:{ cbn [resolveFrom]. rewrite Hp. intros [= _ <-]. exists [].
        rewrite app_nil_r. split; [reflexivity | cbn; lia]. }
    destruct (resolveFrom_turn n i up st p Hp) as (insee & n1 & E1 & Hturn).
    apply getInseeCode_sent in E1 as (reqs1 & Hs1 & Hl1).
    destruct (truthy insee) as [code|].
    + destruct Hturn as (geo & n2 & E2 & ->).
      apply getParcelGeometry_sent in E2.
      intros Hrun. apply IH in Hrun as (reqs & Hs & Hl).
      cbn [publish setParcels modify snd net set_net] in Hs.
      destruct E2 as [E2|E2]; rewrite Hs, E2, Hs1, <- !app_assoc;
        eexists; (split; [reflexivity|]); rewrite !length_app; cbn [length]; lia.
    + rewrite Hturn. intros Hrun. apply IH in Hrun as (reqs & Hs & Hl).
      cbn [publish setParcels modify snd net set_net] in Hs.
      rewrite Hs, Hs1, <- !app_assoc.
      eexists; (split; [reflexivity|]); rewrite !length_app; lia.
Qed.

Lemma initialParcelsFrom_sent (parsedRaw : list ParcelQuery) :
  forall idx st r st',
    initialParcelsFrom idx parsedRaw st = (r, st') ->
    sent (net st') = sent (net st).
Proof.
  induction parsedRaw as [|q rest IH]; intros idx st r st'.
  - now intros [= _ <-].
  - cbn [initialParcelsFrom]. unfold bind at 1. unfold initialParcel, bind at 1.
    unfold dateNow. rewrite service_run.
    destruct (Date_now (world (net st))) as [t w]. cbn [fst snd].
    unfold ret at 1. unfold bind at 1.
    match goal with |- context [initialParcelsFrom (S idx) rest ?s] =>
      destruct (initialParcelsFrom (S idx) rest s) as [[rs|e] st2] eqn:E;
      apply IH in E end; intros [= _ <-]; exact E.
Qed.

End SettledLemmas.

(** X8. After a resolution run the component holds one record per
    extracted query, and none is pending: every record is settled, as a
    success with its INSEE code and geometry or as an error with one of
    the two messages, except that the last record may still be shown as
    loading, without code, geometry or message. *)
Theorem run_settles_all_but_last :
  forall `{Env} (parsedRaw : list ParcelQuery) (st : AppState),
    let shown := parcels (snd (resolveRun parsedRaw st)) in
    length shown = length parsedRaw
    /\ forall j q, shown !! j = Some q ->
         settled q \/ (S j = length parsedRaw /\ left_loading q).
Proof.
  intros E parsedRaw st.
  destruct (resolveRun parsedRaw st) as [r st'] eqn:Hrun.
  exact (resolveRun_shown _ _ _ _ Hrun).
Qed.

(** X9. A resolution run appends at most three requests per extracted
    query to the log of requests (one commune lookup, one geometry lookup
    and one retry), and removes none. *)
Theorem run_request_bound :
  forall `{Env} (parsedRaw : list ParcelQuery) (st : AppState),
  exists reqs,
    sent (net (snd (resolveRun parsedRaw st))) = sent (net st) ++ reqs
    /\ length reqs <= 3 * length parsedRaw.
Proof.
  intros E parsedRaw st. unfold resolveRun. unfold bind at 1.
  destruct (initialParcelsFrom_run parsedRaw 0 st) as (ps & n0 & Hini & _ & Hlen).
  rewrite Hini. apply initialParcelsFrom_sent in Hini.
  unfold bind at 1, setParcels at 1, modify at 1.
  unfold bind at 1, setAppStatus at 1, modify at 1.
  unfold bind at 1, setProgressMessage at 1, modify at 1.
  unfold bind at 1.
  match goal with |- context [resolveAll ps ?s] =>
    destruct (resolveAll ps s) as [r st3] eqn:Er;
    apply resolveFrom_requests in Er as (reqs & Hs & Hl) end.
  cbn [net] in Hs. rewrite Hini in Hs. rewrite Hlen in Hl.
  exists reqs. split; [|exact Hl].
  destruct r; cbn; exact Hs.
Qed.

(** X10. When the commune is found and the first geometry answer is OK but
    carries no feature, the loop sends no retry: the record is published
    as loading and then as an error with the message "Parcel geometry not
    found in Cadastre", it keeps the INSEE code, and the only request after
    the commune lookup is the one geometry request. *)
Theorem geometry_not_found :
  forall `{Env} (n i : nat) (up : list ParsedParcel) (st : AppState)
         (p : ParsedParcel) (code : jstring) (n1 : Net) r1 w1,
    let url := parcelle_url code (Types.section p) (padStart 4 48 (Types.numero p)) in
    up !! i = Some p ->
    i + S n <= length up ->
    getInseeCode (Types.communeName p) (net st) = (Val (Some code), n1) ->
    code <> [] ->
    fetch_in url (world n1) = (Responded r1, w1) ->
    ok r1 = true ->
    hasFeatures (match json r1 with Val j => j | Throw _ => JNull end) = None ->
    let loadingList := <[i := asLoading p]> up in
    let settledList := <[i := asGeometryNotFound p code]> loadingList in
    exists st1,
      resolveFrom (S n) i up st = resolveFrom n (S i) settledList st1
      /\ published st1 = published st ++ [loadingList; settledList]
      /\ parcels st1 = settledList
      /\ sent (net st1) = sent n1 ++ [url]
      /\ exists final st',
           resolveFrom (S n) i up st = (Val final, st')
           /\ exists p',
                final !! i = Some p'
                /\ status p' = error
                /\ errorMessage p' = Some (lit "Parcel geometry not found in Cadastre")
                /\ inseeCode p' = Some code
                /\ geoJson p' = geoJson p.
Proof.
  intros E n i up st p code n1 r1 w1 url Hp Hlen Hinsee Hne Hf Hok Hnone
    loadingList settledList.
  destruct (resolveFrom_turn n i up st p Hp) as (insee' & n1' & E1 & Hturn).
  rewrite Hinsee in E1. injection E1 as <- <-.
  destruct code as [|c code]; [congruence|]. cbn [truthy] in Hturn.
  destruct Hturn as (geo & n2 & E2 & Hturn).
  rewrite (getParcelGeometry_ok _ _ _ _ _ _ Hf Hok) in E2.
  injection E2 as <- <-. rewrite Hnone in Hturn.
  eexists. split; [exact Hturn|].
  split; [cbn; now rewrite <- app_assoc|].
  split; [reflexivity|]. split; [reflexivity|].
  rewrite Hturn.
  match goal with |- context [resolveFrom n (S i) ?l ?s] =>
    destruct (resolveFrom_returns n (S i) l s) as (final & st' & Erun & _ & Hkeep) end.
  { rewrite !length_insert. lia. }
  exists final, st'. split; [exact Erun|].
  exists (asGeometryNotFound p (c :: code)). repeat split.
  rewrite Hkeep by lia. apply list_lookup_insert_eq.
  rewrite length_insert. lia.
Qed.

Lemma geometry_not_found_witness :
  exists st1,
    @resolveFrom unknown_parcel 1 0 [schorbach] (@initialState unknown_parcel tt)
    = @resolveFrom unknown_parcel 0 1
        (<[0 := asGeometryNotFound schorbach (lit "57639")]> (<[0 := asLoading schorbach]> [schorbach]))
        st1
    /\ published st1
       = @published unknown_parcel (@initialState unknown_parcel tt)
         ++ [ <[0 := asLoading schorbach]> [schorbach];
              <[0 := asGeometryNotFound schorbach (lit "57639")]>
                (<[0 := asLoading schorbach]> [schorbach]) ]
    /\ parcels st1
       = <[0 := asGeometryNotFound schorbach (lit "57639")]>
           (<[0 := asLoading schorbach]> [schorbach])
    /\ sent (net st1)
       = [commune_url (lit "SCHORBACH")]
         ++ [parcelle_url (lit "57639") (lit "C") (padStart 4 48 (lit "0584"))]
    /\ exists final st',
         @resolveFrom unknown_parcel 1 0 [schorbach] (@initialState unknown_parcel tt)
         = (Val final, st')
         /\ exists p',
              final !! 0 = Some p'
              /\ status p' = error
              /\ errorMessage p' = Some (lit "Parcel geometry not found in Cadastre")
              /\ inseeCode p' = Some (lit "57639")
              /\ geoJson p' = geoJson schorbach.
Proof.
  apply (@geometry_not_found unknown_parcel 0 0 [schorbach] (@initialState unknown_parcel tt)
           schorbach (lit "57639")
           (@Build_Net unknown_parcel tt [commune_url (lit "SCHORBACH")])
           {| ok := true; json := Val (JGeo empty_collection) |} tt).
  - reflexivity.
  - simpl. lia.
  - reflexivity.
  - discriminate.
  - reflexivity.
  - reflexivity.
  - reflexivity.
Defined.

(* ===================================================================== *)
(** * Closed rings                                                      *)
(* ===================================================================== *)

Section ClosedRings.
Local Open Scope R_scope.







End ClosedRings.


(* ===================================================================== *)
(** * The GPX document and the archive                                  *)
(* ===================================================================== *)

Section GpxLemmas.
Context `{NumberFormat}.

Lemma fold_left_append {A} (f : A -> jstring) (l : list A) (acc : jstring) :
  fold_left (fun pts x => pts ++ f x) l acc = acc ++ concat (map f l).
Proof.
  revert acc. induction l as [|x l IH]; intros acc; cbn [fold_left map concat].
  - now rewrite app_nil_r.
  - now rewrite IH, app_assoc.
Qed.

Lemma addRing_segment (ring : Ring) : addRing ring = track_segment ring.
Proof. unfold addRing, track_segment. now rewrite fold_left_append. Qed.

Lemma forEach_appendRing (rings : list Ring) (segments : jstring) :
  forEach rings appendRing segments
  = (Val tt, segments ++ concat (map track_segment rings)).
Proof.
  revert segments. induction rings as [|ring rings IH]; intros segments;
    cbn [forEach map concat].
  - unfold ret. now rewrite app_nil_r.
  - unfold bind, appendRing at 1, modify. rewrite IH, addRing_segment.
    now rewrite <- app_assoc.
Qed.

Lemma forEach_polygons (polys : list (list Ring)) (segments : jstring) :
  forEach polys (fun poly => forEach poly appendRing) segments
  = (Val tt, segments ++ concat (map track_segment (concat polys))).
Proof.
  revert segments. induction polys as [|poly polys IH]; intros segments;
    cbn [forEach map concat].
  - unfold ret. now rewrite app_nil_r.
  - unfold bind. rewrite forEach_appendRing, IH.
    now rewrite map_app, concat_app, app_assoc.
Qed.

Lemma forEach_segments (fs : list Feature) (segments : jstring) :
  forEach fs segmentsOfFeature segments = (Val tt, segments ++ track fs).
Proof.
  unfold track, all_rings. revert segments.
  induction fs as [|f fs IH]; intros segments; cbn [forEach flat_map map concat].
  - unfold ret. now rewrite app_nil_r.
  - unfold bind, segmentsOfFeature at 1.
    rewrite map_app, concat_app.
    destruct (geometry f) as [[rings|polys|]|].
    + rewrite forEach_appendRing, IH. now rewrite app_assoc.
    + rewrite forEach_polygons, IH. now rewrite app_assoc.
    + unfold ret. now rewrite IH.
    + unfold ret. now rewrite IH.
Qed.

Lemma createGpxContent_track (p : ParsedParcel) (g : GeoJson) (fs : list Feature) :
  geoJson p = Some g ->
  featuresOf g = Some fs ->
  createGpxContent p = Val (gpxDocument (gpxName p) (track fs)).
Proof.
  intros Hg Hfs. unfold createGpxContent. rewrite Hg, Hfs.
  now rewrite forEach_segments.
Qed.

(** ** The archive *)

Lemma jstring_eqb_eq (a b : jstring) : jstring_eqb a b = true <-> a = b.
Proof.
  revert b. induction a as [|x a IH]; intros [|y b]; cbn; try easy.
  unfold jchar_eqb. rewrite andb_true_iff, N.eqb_eq, IH.
  split; [intros [-> ->]; reflexivity | intros [= -> ->]; now split].
Qed.

Lemma zip_file_names (name content : jstring) (zip : list (jstring * jstring)) :
  (forall n, In n (map fst (zip_file name content zip))
             <-> n = name \/ In n (map fst zip))
  /\ (NoDup (map fst zip) -> NoDup (map fst (zip_file name content zip)))
  /\ length zip <= length (zip_file name content zip) <= S (length zip).
Proof.
  induction zip as [|[n c] zip (IHin & IHnd & IHlen)]; cbn [zip_file].
  - split; [|split].
    + intros n. cbn. split; intros Hx; repeat (destruct Hx as [Hx|Hx]); try contradiction; subst; auto 6.
    + intros _. cbn. apply NoDup_singleton.
    + cbn. lia.
  - destruct (jstring_eqb n name) eqn:E.
    + apply jstring_eqb_eq in E as ->. split; [|split].
      * intros n. cbn. split; intros Hx; repeat (destruct Hx as [Hx|Hx]); try contradiction; subst; auto 6.
      * trivial.
      * cbn. lia.
    + assert (n <> name) as Hne
        by (intros ->; now rewrite (proj2 (jstring_eqb_eq _ _) eq_refl) in E).
      split; [|split].
      * intros m. cbn [map fst In]. rewrite IHin.
        split; intros Hx; repeat (destruct Hx as [Hx|Hx]); try contradiction; subst; auto 6.
      * cbn [map fst]. intros Hnd. apply NoDup_cons in Hnd as [Hnotin Hnd].
        apply NoDup_cons. split; [|now apply IHnd].
        rewrite list_elem_of_In, IHin. rewrite list_elem_of_In in Hnotin.
        intros [->|Hin]; [congruence | contradiction].
      * cbn [length]. lia.
Qed.

Lemma zip_file_nonempty (name content : jstring) (zip : list (jstring * jstring)) :
  1 <= length (zip_file name content zip).
Proof.
  destruct zip as [|[n c] zip]; cbn [zip_file]; [cbn; lia|].
  destruct (jstring_eqb n name); cbn [length]; lia.
Qed.

Lemma createGpxContent_returns (p : ParsedParcel) :
  record_ok p -> exists doc, createGpxContent p = Val doc.
Proof.
  intros (_ & Hfeat & _). unfold createGpxContent.
  destruct (geoJson p) as [g|]; [|eauto].
  destruct (Hfeat g eq_refl) as (f & fs & Hfs).
  unfold featuresOf. rewrite Hfs.
  destruct (isFeatureCollection g); rewrite forEach_segments; eauto.
Qed.

Lemma forEach_zip (l : list ParsedParcel) :
  forall zip,
    Forall record_ok l ->
    NoDup (map fst zip) ->
    exists zip',
      forEach l
        (fun p => bind (of_result (createGpxContent p))
                    (fun gpxContent =>
                       modify (zip_file (cleanName p ++ lit ".gpx") gpxContent)))
        zip = (Val tt, zip')
      /\ NoDup (map fst zip')
      /\ length zip <= length zip' <= length zip + length l
      /\ (l <> [] -> zip' <> []).
Proof.
  induction l as [|p l IH]; intros zip Hok Hnd; cbn [forEach].
  - exists zip. unfold ret. repeat split; try assumption; try lia. congruence.
  - apply Forall_cons in Hok as [Hp Hl].
    destruct (createGpxContent_returns p Hp) as [doc Hdoc].
    unfold bind at 1. unfold bind at 1. unfold of_result, modify. rewrite Hdoc.
    destruct (zip_file_names (cleanName p ++ lit ".gpx") doc zip) as (_ & Hnd' & Hlen').
    destruct (IH _ Hl (Hnd' Hnd)) as (zip' & E & Hnd'' & Hlen'' & _).
    exists zip'. split; [exact E|]. split; [exact Hnd''|]. split.
    + cbn [length]. unfold jstring, jchar in *. lia.
    + intros _ ->. cbn [length] in Hlen''.
      pose proof (zip_file_nonempty (cleanName p ++ lit ".gpx") doc zip).
      unfold jstring, jchar in *. lia.
Qed.

Lemma exportable_iff_success (p : ParsedParcel) :
  record_ok p -> exportable p = Status_eqb (status p) success.
Proof.
  intros (Hgeo & _). unfold exportable.
  destruct (Status_eqb (status p) success) eqn:E; [|reflexivity].
  cbn [andb]. apply bool_decide_eq_true. apply Hgeo. now destruct (status p).
Qed.

End GpxLemmas.

Lemma schorbach_resolved_ok : record_ok schorbach_resolved.
Proof.
  unfold record_ok. cbn. split; [|split; [|split]].
  - split; [reflexivity | intros _; eexists; reflexivity].
  - intros g [= <-]. do 2 eexists. reflexivity.
  - split; [intros [? [=]] | intros [=]].
  - intros [[=]|[=]].
Qed.

(** X15. For a record whose geometry is a feature collection,
    [createGpxContent] returns the GPX document named after the record in
    which every ring of every Polygon or MultiPolygon feature, holes
    included, is one track segment, in the order of the document; features
    of other geometry types contribute nothing. *)
Theorem createGpxContent_segments :
  forall `{NumberFormat} (p : ParsedParcel) (g : GeoJson) (fs : list Feature),
    geoJson p = Some g ->
    featuresOf g = Some fs ->
    createGpxContent p = Val (gpxDocument (gpxName p) (track fs)).
Proof. intros F p g fs. apply createGpxContent_track. Qed.

Lemma createGpxContent_segments_witness :
  @createGpxContent plain_numbers schorbach_resolved
  = Val (gpxDocument (gpxName schorbach_resolved)
           (@track plain_numbers [ {| geometry := Some (Polygon [triangle]) |} ])).
Proof.
  apply (@createGpxContent_segments plain_numbers schorbach_resolved one_parcel).
  - reflexivity.
  - reflexivity.
Defined.

(** X16. On records that satisfy the invariant, [handleExportGPX] refuses
    with an alert exactly when no record has succeeded; otherwise it
    produces an archive that is not empty, holds no two entries of the same
    file name, and has at most one entry per successful record. *)
Theorem handleExportGPX_outcome :
  forall `{NumberFormat} (parcels : list ParsedParcel),
    Forall record_ok parcels ->
    let successes := List.filter (fun p => Status_eqb (status p) success) parcels in
    match successes with
    | [] =>
        handleExportGPX parcels
        = Val (Refused (lit "No valid parcels with geometry found to export."))
    | _ :: _ =>
        exists files,
          handleExportGPX parcels = Val (Archive files)
          /\ files <> []
          /\ NoDup (map fst files)
          /\ length files <= length successes
    end.
Proof.
  intros F parcels Hok successes.
  assert (List.filter exportable parcels = successes) as Hexp.
  { unfold successes. clear successes.
    induction Hok as [|p l Hp _ IH]; [reflexivity|]. cbn [List.filter].
    now rewrite (exportable_iff_success p Hp), IH. }
  unfold handleExportGPX. rewrite Hexp.
  assert (Forall record_ok successes) as Hs.
  { unfold successes. clear Hexp successes.
    induction Hok as [|p l Hp _ IH]; [constructor|]. cbn [List.filter].
    destruct (Status_eqb (status p) success); [constructor|]; assumption. }
  destruct successes as [|p l]; [reflexivity|].
  cbn [length Nat.eqb].
  destruct (forEach_zip (p :: l) [] Hs ltac:(constructor))
    as (zip' & E & Hnd & Hlen & Hne).
  rewrite E. exists zip'. repeat split; try assumption.
  - now apply Hne.
  - cbn [length] in *. lia.
Qed.

Lemma handleExportGPX_outcome_witness :
  exists files,
    @handleExportGPX plain_numbers [schorbach_resolved; schorbach_resolved]
    = Val (Archive files)
    /\ files <> []
    /\ NoDup (map fst files)
    /\ length files <= length [schorbach_resolved; schorbach_resolved].
Proof.
  apply (@handleExportGPX_outcome plain_numbers [schorbach_resolved; schorbach_resolved]).
  constructor; [exact schorbach_resolved_ok|].
  constructor; [exact schorbach_resolved_ok | constructor].
Defined.

(* ===================================================================== *)
(** * Edge labels of the map                                            *)
(* ===================================================================== *)

Section EdgeLemmas.
Context `{MapWidget}.
Local Open Scope R_scope.

Variable Q : Edge -> Prop.
Variable owner : jstring.
Hypothesis Q_new :
  forall pos dist, dist > 2 ->
    Q {| pos := pos; edgeLength := dist; parcelId := owner |}.

Lemma pushEdge_keeps (p1 p2 : LatLng) (allEdges : list Edge) :
  Forall Q allEdges -> Forall Q (pushEdge owner p1 p2 allEdges).
Proof.
  intros Hall. unfold pushEdge.
  destruct (Rgt_dec (distance p1 p2) 2) as [Hgt|_]; [|exact Hall].
  apply Forall_app. split; [exact Hall|]. constructor; [|constructor].
  now apply Q_new.
Qed.

Lemma pushEdge_length (p1 p2 : LatLng) (allEdges : list Edge) :
  (length allEdges <= length (pushEdge owner p1 p2 allEdges) <= S (length allEdges))%nat.
Proof.
  unfold pushEdge. destruct (Rgt_dec _ 2); [rewrite length_app; cbn|]; lia.
Qed.

Lemma sides_keep (ring : list LatLng) (idx : list nat) (allEdges : list Edge) :
  Forall Q allEdges -> Forall Q (fold_left (side_step owner ring) idx allEdges).
Proof.
  revert allEdges. induction idx as [|i idx IH]; intros allEdges Hall; cbn [fold_left].
  - exact Hall.
  - apply IH. now apply pushEdge_keeps.
Qed.

Lemma sides_length (ring : list LatLng) (idx : list nat) (allEdges : list Edge) :
  (length allEdges
   <= length (fold_left (side_step owner ring) idx allEdges)
   <= length allEdges + length idx)%nat.
Proof.
  revert allEdges. induction idx as [|i idx IH]; intros allEdges; cbn [fold_left length].
  - lia.
  - specialize (IH (side_step owner ring allEdges i)).
    pose proof (pushEdge_length (nth i ring origin) (nth (i + 1) ring origin) allEdges).
    unfold side_step in *. lia.
Qed.

Lemma ringEdges_keeps (ring : list LatLng) (allEdges : list Edge) :
  Forall Q allEdges -> Forall Q (ringEdges owner ring allEdges).
Proof.
  intros Hall. unfold ringEdges.
  destruct (Nat.ltb 2 (length ring)).
  - now apply pushEdge_keeps, sides_keep.
  - now apply sides_keep.
Qed.

Lemma ringEdges_length (ring : list LatLng) (allEdges : list Edge) :
  (length (ringEdges owner ring allEdges) <= length allEdges + length ring)%nat
  /\ ((length ring <= 2)%nat ->
      (length (ringEdges owner ring allEdges) <= length allEdges + (length ring - 1))%nat).
Proof.
  unfold ringEdges.
  pose proof (sides_length ring (seq 0 (length ring - 1)) allEdges) as Hs.
  rewrite length_seq in Hs.
  destruct (Nat.ltb 2 (length ring)) eqn:E.
  - apply Nat.ltb_lt in E.
    match goal with |- context [pushEdge owner ?a ?b ?l] =>
      pose proof (pushEdge_length a b l) end.
    split; lia.
  - apply Nat.ltb_ge in E. split; lia.
Qed.

Lemma polygons_keep (polygons : list (list LatLng)) (allEdges : list Edge) :
  Forall Q allEdges ->
  Forall Q (fold_left (fun acc ring => ringEdges owner ring acc) polygons allEdges).
Proof.
  revert allEdges. induction polygons as [|ring polygons IH]; intros allEdges Hall;
    cbn [fold_left]; [exact Hall|].
  apply IH. now apply ringEdges_keeps.
Qed.

End EdgeLemmas.

Section MeasurementLemmas.
Context `{MapWidget}.
Local Open Scope R_scope.

Lemma parcelEdges_keeps (Q : Edge -> Prop) (parcel : ParsedParcel) allEdges r allEdges' :
  (forall pos dist, dist > 2 ->
     Q {| pos := pos; edgeLength := dist; parcelId := id parcel |}) ->
  Forall Q allEdges ->
  parcelEdges parcel allEdges = (r, allEdges') ->
  Forall Q allEdges'.
Proof.
  intros Hnew Hall. unfold parcelEdges.
  destruct (geoJson parcel) as [g|]; [|now intros [= _ <-]].
  destruct (featuresOf g) as [fs|]; [|now intros [= _ <-]].
  destruct (forEach fs polygonsOfFeature []) as [[[]|e] polygons];
    intros [= _ <-]; [|exact Hall].
  now apply polygons_keep.
Qed.

Lemma targets_keep (Q : Edge -> Prop) (targets : list ParsedParcel) :
  (forall p pos dist, In p targets -> dist > 2 ->
     Q {| pos := pos; edgeLength := dist; parcelId := id p |}) ->
  forall allEdges r allEdges',
    Forall Q allEdges ->
    forEach targets parcelEdges allEdges = (r, allEdges') ->
    Forall Q allEdges'.
Proof.
  induction targets as [|p targets IH]; intros Hnew allEdges r allEdges' Hall;
    cbn [forEach].
  - now intros [= _ <-].
  - unfold bind.
    destruct (parcelEdges p allEdges) as [[[]|e] edges1] eqn:E1.
    + apply IH.
      * intros q pos dist Hq. apply Hnew. now right.
      * eapply parcelEdges_keeps; [|exact Hall|exact E1].
        intros pos dist. apply Hnew. now left.
    + intros [= _ <-]. eapply parcelEdges_keeps; [|exact Hall|exact E1].
      intros pos dist. apply Hnew. now left.
Qed.

End MeasurementLemmas.

(** X17. Every edge label computed by [ParcelMeasurements] is longer than
    two metres and belongs to a record of the list that has geometry and
    whose id is in the set of visible ids; and when the component renders
    nothing for lack of targets, no record of the list is such a target. *)
Theorem measurementData_edges :
  forall `{MapWidget} (parcels : list ParsedParcel) (visibleIds : list jstring),
    match measurementData parcels visibleIds with
    | Val (Some allEdges) => Forall (edge_ok parcels visibleIds) allEdges
    | Val None => Forall (fun p => isTarget visibleIds p = false) parcels
    | Throw _ => True
    end.
Proof.
  intros W parcels visibleIds. unfold measurementData.
  destruct (List.filter (isTarget visibleIds) parcels) as [|t targets] eqn:Ef.
  - cbn [length Nat.eqb]. apply List.Forall_forall. intros p Hp.
    destruct (isTarget visibleIds p) eqn:Et; [|reflexivity].
    assert (In p (List.filter (isTarget visibleIds) parcels)) as Hin
      by (apply filter_In; now split).
    rewrite Ef in Hin. destruct Hin.
  - cbn [length Nat.eqb].
    destruct (forEach (t :: targets) parcelEdges []) as [[[]|e] allEdges] eqn:E;
      [|exact I].
    eapply targets_keep; [| |exact E]; [|constructor].
    intros p pos dist Hp Hdist. split; [exact Hdist|].
    rewrite <- Ef in Hp. apply filter_In in Hp as [Hin Ht].
    unfold isTarget in Ht. apply andb_prop in Ht as [Hvis Hgeo].
    exists p. repeat split; try assumption.
    now apply bool_decide_eq_true in Hgeo.
Qed.

(** X18. A ring of n vertices adds at most n edge labels, and a ring of at
    most two vertices adds at most n - 1: it gets no closing segment. *)
Theorem ringEdges_count :
  forall `{MapWidget} (owner : jstring) (ring : list LatLng) (allEdges : list Edge),
    length (ringEdges owner ring allEdges) <= length allEdges + length ring
    /\ (length ring <= 2 ->
        length (ringEdges owner ring allEdges) <= length allEdges + (length ring - 1)).
Proof. intros W owner ring allEdges. apply ringEdges_length. Qed.

Lemma ringEdges_count_witness :
  length (@ringEdges ten_metres (lit "p-0-0")
            [ {| lat := 0; lng := 0 |}; {| lat := 1; lng := 1 |} ] [])
  <= length (@nil Edge) + (length [ {| lat := 0%R; lng := 0%R |}; {| lat := 1%R; lng := 1%R |} ] - 1).
Proof.
  apply (proj2 (@ringEdges_count ten_metres (lit "p-0-0")
                  [ {| lat := 0; lng := 0 |}; {| lat := 1; lng := 1 |} ] [])).
  simpl. lia.
Defined.

(* ===================================================================== *)
(** * The list view                                                     *)
(* ===================================================================== *)

Section SetLemmas.

Lemma jstring_eqb_refl (a : jstring) : jstring_eqb a a = true.
Proof. now apply jstring_eqb_eq. Qed.

Lemma jstring_eqb_neq (a b : jstring) : a <> b -> jstring_eqb a b = false.
Proof.
  intros Hne. destruct (jstring_eqb a b) eqn:E; [|reflexivity].
  apply jstring_eqb_eq in E. contradiction.
Qed.

Lemma Set_has_In (x : jstring) (s : list jstring) : Set_has x s = true <-> In x s.
Proof.
  unfold Set_has. rewrite existsb_exists. split.
  - intros (y & Hy & E). apply jstring_eqb_eq in E. now subst.
  - intros Hx. exists x. split; [exact Hx | apply jstring_eqb_refl].
Qed.

Lemma Set_delete_In (id x : jstring) (s : list jstring) :
  In x (Set_delete id s) <-> In x s /\ x <> id.
Proof.
  unfold Set_delete. rewrite filter_In. split.
  - intros [Hx Hne]. split; [exact Hx|]. intros ->.
    now rewrite jstring_eqb_refl in Hne.
  - intros [Hx Hne]. split; [exact Hx|].
    rewrite jstring_eqb_neq; [reflexivity | congruence].
Qed.

Lemma toggle_In (id x : jstring) (s : list jstring) :
  In x (toggleMeasurements id s)
  <-> (x = id /\ ~ In id s) \/ (x <> id /\ In x s).
Proof.
  unfold toggleMeasurements, Set_add.
  destruct (Set_has id s) eqn:E.
  - apply Set_has_In in E. rewrite Set_delete_In. split.
    + intros [Hx Hne]. now right.
    + intros [[-> Hn]|[Hne Hx]]; [contradiction | now split].
  - assert (~ In id s) as Hn by (rewrite <- Set_has_In, E; discriminate).
    rewrite in_app_iff. cbn [In]. split.
    + intros [Hx|[<-|[]]]; [|now left].
      right. split; [|exact Hx]. intros ->. contradiction.
    + intros [[-> _]|[_ Hx]]; [right; now left | now left].
Qed.

Lemma has_iff (x : jstring) (s t : list jstring) :
  (In x s <-> In x t) -> Set_has x s = Set_has x t.
Proof.
  intros Hiff. destruct (Set_has x t) eqn:E.
  - apply Set_has_In, Hiff, Set_has_In, E.
  - destruct (Set_has x s) eqn:E'; [|reflexivity].
    apply Set_has_In, Hiff, Set_has_In in E'. congruence.
Qed.

Lemma NoDup_filter_list {A} (f : A -> bool) (l : list A) :
  NoDup l -> NoDup (List.filter f l).
Proof.
  induction 1 as [|x l Hx Hl IH]; cbn [List.filter]; [constructor|].
  destruct (f x); [|exact IH]. constructor; [|exact IH].
  rewrite list_elem_of_In, filter_In. rewrite list_elem_of_In in Hx. tauto.
Qed.

End SetLemmas.

(** X19. [toggleMeasurements] flips the membership of the given id in the
    set of visible ids and of no other id, toggling twice restores every
    membership, and a set without duplicates stays without duplicates. *)
Theorem toggleMeasurements_membership :
  forall (id : jstring) (prev : list jstring),
    Set_has id (toggleMeasurements id prev) = negb (Set_has id prev)
    /\ (forall other, other <> id ->
          Set_has other (toggleMeasurements id prev) = Set_has other prev)
    /\ (forall x, Set_has x (toggleMeasurements id (toggleMeasurements id prev))
                  = Set_has x prev)
    /\ (NoDup prev -> NoDup (toggleMeasurements id prev)).
Proof.
  intros id prev.
  assert (Set_has id (toggleMeasurements id prev) = negb (Set_has id prev)) as H1.
  { destruct (Set_has id prev) eqn:E; cbn [negb].
    - destruct (Set_has id (toggleMeasurements id prev)) eqn:E'; [|reflexivity].
      apply Set_has_In, toggle_In in E'. apply Set_has_In in E.
      destruct E' as [[_ Hn]|[Hne _]]; [contradiction | congruence].
    - apply Set_has_In, toggle_In. left. split; [reflexivity|].
      rewrite <- Set_has_In, E. discriminate. }
  assert (forall s other, other <> id ->
            Set_has other (toggleMeasurements id s) = Set_has other s) as H2.
  { intros s other Hne. apply has_iff. rewrite toggle_In. split.
    - intros [[-> _]|[_ Hx]]; [congruence | exact Hx].
    - intros Hx. right. now split. }
  split; [exact H1|]. split; [apply H2|]. split.
  - intros x. apply has_iff. rewrite !toggle_In. split.
    + intros [[-> Hn]|[Hne [[-> _]|[_ Hx]]]]; try congruence.
      destruct (Set_has id prev) eqn:E; [now apply Set_has_In|].
      exfalso. apply Hn. left. split; [reflexivity|].
      rewrite <- Set_has_In, E. discriminate.
    + intros Hx. destruct (jstring_eqb x id) eqn:Ex;
        [apply jstring_eqb_eq in Ex; subst x
        |assert (x <> id) as Hne
           by (intros ->; now rewrite jstring_eqb_refl in Ex)].
      * left. split; [reflexivity|]. intros [[_ Hn]|[Hne _]]; congruence.
      * right. split; [exact Hne|]. right. now split.
  - intros Hnd. unfold toggleMeasurements, Set_add.
    destruct (Set_has id prev) eqn:E.
    + now apply NoDup_filter_list.
    + apply NoDup_app. split; [exact Hnd|]. split; [|apply NoDup_singleton].
      intros x Hx Hx'. apply list_elem_of_In in Hx.
      apply list_elem_of_In in Hx'. cbn in Hx'. destruct Hx' as [<-|[]].
      apply Set_has_In in Hx. congruence.
Qed.

Lemma toggleMeasurements_membership_witness :
  NoDup (toggleMeasurements (lit "p-1-0") [lit "p-0-0"; lit "p-1-0"]).
Proof.
  apply (proj2 (proj2 (proj2
           (toggleMeasurements_membership (lit "p-1-0") [lit "p-0-0"; lit "p-1-0"])))).
  apply NoDup_cons. split.
  - rewrite list_elem_of_In. cbn. intros [[=]|[]].
  - apply NoDup_singleton.
Defined.

(** X20. The counters of the list header partition the list: the total is
    the sum of the successes, the errors and the records still pending or
    loading. *)
Theorem stats_partition :
  forall parcels : list ParsedParcel,
    total (stats parcels)
    = successes (stats parcels) + errors (stats parcels) + pendings (stats parcels).
Proof.
  intros parcels. unfold stats; cbn [total successes errors pendings].
  induction parcels as [|p parcels IH]; [reflexivity|].
  cbn [List.filter length]. destruct (status p); cbn; lia.
Qed.

(** X21. On records that satisfy the invariant, the records the map fits
    its view to (those whose geometry has features), the records the
    success filter of the list shows, and the records the GPX export takes
    are the same list. *)
Theorem same_records_on_map_list_export :
  forall parcels : list ParsedParcel,
    Forall record_ok parcels ->
    validParcels parcels = filteredParcels filter_success parcels
    /\ List.filter exportable parcels = filteredParcels filter_success parcels.
Proof.
  intros parcels Hok. unfold validParcels, filteredParcels.
  induction Hok as [|p l Hp _ [IH1 IH2]]; [now split|].
  cbn [List.filter]. rewrite IH1, IH2, (exportable_iff_success p Hp).
  split; [|reflexivity].
  destruct Hp as (Hgeo & Hfeat & _).
  destruct (geoJson p) as [g|] eqn:Eg.
  - destruct (Hfeat g eq_refl) as (f & fs & ->).
    replace (Status_eqb (status p) success) with true; [reflexivity|].
    symmetry. rewrite (proj1 Hgeo); [reflexivity | now eexists].
  - replace (Status_eqb (status p) success) with false; [reflexivity|].
    destruct (status p) eqn:Es; try reflexivity.
    destruct (proj2 Hgeo eq_refl) as [? [=]].
Qed.

Lemma same_records_on_map_list_export_witness :
  validParcels [schorbach; schorbach_resolved]
  = filteredParcels filter_success [schorbach; schorbach_resolved]
  /\ List.filter exportable [schorbach; schorbach_resolved]
     = filteredParcels filter_success [schorbach; schorbach_resolved].
Proof.
  apply same_records_on_map_list_export.
  constructor; [|constructor; [exact schorbach_resolved_ok | constructor]].
  unfold record_ok. cbn. split; [|split; [|split]].
  - split; [intros [? [=]] | intros [=]].
  - intros g [=].
  - split; [intros [? [=]] | intros [=]].
  - intros _. now split.
Defined.

Section CopyLemmas.

Lemma split_no_sep (sep : jchar) (s : jstring) :
  ~ In sep s -> split sep s = [s].
Proof.
  induction s as [|c s IH]; intros Hn; cbn [split]; [reflexivity|].
  assert (c <> sep) as Hc by (intros ->; apply Hn; now left).
  unfold jchar_eqb. replace (N.eqb c sep) with false
    by (symmetry; now apply N.eqb_neq).
  rewrite IH; [reflexivity|]. intros Hin. apply Hn. now right.
Qed.

Lemma split_join (sep : jchar) (l : list jstring) :
  l <> [] ->
  Forall (fun s => ~ In sep s) l ->
  split sep (join [sep] l) = l.
Proof.
  intros Hne Hl. revert Hne.
  induction Hl as [|x l Hx Hl IH]; intros Hne; [now destruct Hne|].
  destruct l as [|y l].
  - cbn [join]. now apply split_no_sep.
  - change (join [sep] (x :: y :: l)) with (x ++ sep :: join [sep] (y :: l)).
    rewrite split_app, split_no_sep by exact Hx.
    cbn [app]. f_equal. apply IH. discriminate.
Qed.

Lemma copyLine_single (p : ParsedParcel) : single_line p -> ~ In 10%N (copyLine p).
Proof.
  intros (Hc & Hs & Hn). unfold copyLine. rewrite !in_app_iff.
  intros [H|[H|[H|[H|[H|[H|H]]]]]]; try contradiction;
    cbn in H; repeat (destruct H as [H|H]; [discriminate H|]); exact H.
Qed.

End CopyLemmas.

(** X22. When no field of the listed records holds a line feed, the text
    [handleCopyList] writes to the clipboard is empty for an empty list,
    and for any other list it splits at line feeds into exactly one line
    per record, in order, each of the form
    "commune Section s N(degree sign) number". *)
Theorem handleCopyList_lines :
  forall filtered : list ParsedParcel,
    Forall single_line filtered ->
    match filtered with
    | [] => fst (handleCopyList filtered) = []
    | _ :: _ => split 10 (fst (handleCopyList filtered)) = map copyLine filtered
    end.
Proof.
  intros filtered Hall. destruct filtered as [|p l]; [reflexivity|].
  unfold handleCopyList. cbn [fst]. apply split_join; [discriminate|].
  induction Hall as [|q l' Hq _ IH]; cbn [map]; constructor.
  - now apply copyLine_single.
  - exact IH.
Qed.

Lemma handleCopyList_lines_witness :
  split 10 (fst (handleCopyList [schorbach; schorbach_resolved]))
  = map copyLine [schorbach; schorbach_resolved].
Proof.
  apply (handleCopyList_lines [schorbach; schorbach_resolved]).
  repeat constructor; cbn; intros H;
    repeat (destruct H as [H|H]; [discriminate H|]); exact H.
Defined.
